(** * OpenMW weather core: a shallow embedding of [apps/openmw/mwworld/weather.cpp]

    The development follows the source file top to bottom:
    [TimeOfDayInterpolator], [Weather], [RegionWeather] and the transition
    state machine of [WeatherManager], then [MoonModel]; the cell
    coordinates of [apps/opencs/model/world/cellcoordinates.cpp] follow.
    Definitions come first, the properties of the natural-language
    specification and further properties of the code afterwards.

    Conventions.
    - C++ [int] / [size_t] values are integers of [Z]; the sentinel
      [invalidWeatherID] is [-1].  [std::vector] is a [list]; an access
      outside of the vector is undefined behaviour in C++ and is reported here
      as the fault [OutOfBounds].  A failed [assert] is the fault
      [AssertionFailed].
    - [float] arithmetic is kept abstract behind the interface [FloatOps], so
      every function is written once, exactly as in the source.  Two instances
      are provided: IEEE-754 binary32 (the arithmetic the program runs on)
      and exact rational arithmetic (the arithmetic the specification
      reasons in).
    - [std::map<std::string, RegionWeather>] is a [gmap string RegionWeather].
    - The random source ([Misc::Rng]) and the world/player queries
      ([MWBase::Environment]) are explicit arguments. *)

From Stdlib Require Import ZArith QArith Qround Lqa Lia Bool List Ascii String.
From Stdlib Require Import Floats.SpecFloat.
From Stdlib Require Import Decimal DecimalString DecimalPos.
From stdpp Require Import base option list gmap strings.

Local Open Scope Z_scope.

(** ** Faults *)

Inductive fault : Type :=
| AssertionFailed
| OutOfBounds.

Inductive res (A : Type) : Type :=
| Ok (a : A)
| Fail (f : fault).
Arguments Ok {A} a.
Arguments Fail {A} f.

Definition res_bind {A B : Type} (m : res A) (k : A -> res B) : res B :=
  match m with
  | Ok a => k a
  | Fail f => Fail f
  end.

Notation "'do' x <- m ; k" := (res_bind m (fun x => k))
  (at level 10, x name, m at level 100, k at level 200).

(** [static_cast<size_t>] of an [int] (64-bit [size_t]). *)
Definition to_size_t (i : Z) : Z := i mod 2 ^ 64.

(** [v[i]] for a [std::vector] [v] and an [int] index [i]: the index is
    converted to [size_t], and any position at or past [v.size()] is a
    fault. *)
Definition vec_at {A : Type} (v : list A) (i : Z) : res A :=
  let n := to_size_t i in
  if n <? Z.of_nat (length v) then
    match v !! Z.to_nat n with
    | Some a => Ok a
    | None => Fail OutOfBounds
    end
  else Fail OutOfBounds.

(** ** The arithmetic of [float] *)

Class FloatOps (F : Type) : Type := {
  f_of_Z : Z -> F;
  f_add : F -> F -> F;
  f_sub : F -> F -> F;
  f_mul : F -> F -> F;
  f_div : F -> F -> F;
  f_neg : F -> F;
  f_le : F -> F -> bool;
  f_lt : F -> F -> bool;
}.

Declare Scope float_scope.
Delimit Scope float_scope with F.
Infix "+" := f_add : float_scope.
Infix "-" := f_sub : float_scope.
Infix "*" := f_mul : float_scope.
Infix "/" := f_div : float_scope.
Notation "- x" := (f_neg x) : float_scope.
Infix "<=?" := f_le : float_scope.
Infix "<?" := f_lt : float_scope.
Notation "x >=? y" := (f_le y x) (at level 70, no associativity) : float_scope.
Notation "x >? y" := (f_lt y x) (at level 70, no associativity) : float_scope.

Section Literals.
Context {F : Type} `{FloatOps F}.
Definition f0 : F := f_of_Z 0.
Definition f1 : F := f_of_Z 1.
Definition f2 : F := f_of_Z 2.
Definition f3 : F := f_of_Z 3.
Definition f10 : F := f_of_Z 10.
Definition f60 : F := f_of_Z 60.
(** [0.5f] and [0.25f] are powers of two. *)
Definition f0_5 : F := (f1 / f2)%F.
Definition f0_25 : F := (f1 / f_of_Z 4)%F.
End Literals.

(** IEEE-754 binary32, round to nearest even. *)
Module Binary32.
Definition prec : Z := 24.
Definition emax : Z := 128.
Definition float : Type := spec_float.
Definition of_Z (z : Z) : float := binary_normalize prec emax z 0 false.
Definition add : float -> float -> float := SFadd prec emax.
Definition sub : float -> float -> float := SFsub prec emax.
Definition mul : float -> float -> float := SFmul prec emax.
Definition div : float -> float -> float := SFdiv prec emax.
Definition neg : float -> float := SFopp.
Definition le : float -> float -> bool := SFleb.
Definition lt : float -> float -> bool := SFltb.
Definition nan : float := S754_nan.
End Binary32.

#[export] Instance binary32_ops : FloatOps Binary32.float := {|
  f_of_Z := Binary32.of_Z;
  f_add := Binary32.add;
  f_sub := Binary32.sub;
  f_mul := Binary32.mul;
  f_div := Binary32.div;
  f_neg := Binary32.neg;
  f_le := Binary32.le;
  f_lt := Binary32.lt;
|}.

(** Exact rational arithmetic. *)
#[export] Instance exact_ops : FloatOps Q := {|
  f_of_Z := inject_Z;
  f_add := Qplus;
  f_sub := Qminus;
  f_mul := Qmult;
  f_div := Qdiv;
  f_neg := Qopp;
  f_le := Qle_bool;
  f_lt := fun x y => negb (Qle_bool y x);
|}.

(** ** TimeOfDayInterpolator *)

Record TimeOfDaySettings (F : Type) : Type := {
  mNightStart : F;
  mNightEnd : F;
  mDayStart : F;
  mDayEnd : F;
  mSunriseTime : F;
}.
Arguments mNightStart {F} _.
Arguments mNightEnd {F} _.
Arguments mDayStart {F} _.
Arguments mDayEnd {F} _.
Arguments mSunriseTime {F} _.

Record Vec4f (F : Type) : Type := {
  vx : F; vy : F; vz : F; vw : F;
}.
Arguments vx {F} _.
Arguments vy {F} _.
Arguments vz {F} _.
Arguments vw {F} _.

Record TimeOfDayInterpolator (T : Type) : Type := {
  mSunriseValue : T;
  mDayValue : T;
  mSunsetValue : T;
  mNightValue : T;
}.
Arguments mSunriseValue {T} _.
Arguments mDayValue {T} _.
Arguments mSunsetValue {T} _.
Arguments mNightValue {T} _.

(** The two [lerp] overloads and the value-initialised [T()]. *)
Class Interpolated (F T : Type) : Type := {
  lerp : T -> T -> F -> T;
  T_default : T;
}.

Section Interpolation.
Context {F : Type} `{FloatOps F}.
Local Open Scope float_scope.

Definition lerp_float (x y factor : F) : F :=
  x * (f1 - factor) + y * factor.

Definition vec_scale (v : Vec4f F) (k : F) : Vec4f F :=
  {| vx := vx v * k; vy := vy v * k; vz := vz v * k; vw := vw v * k |}.

Definition vec_add (a b : Vec4f F) : Vec4f F :=
  {| vx := vx a + vx b; vy := vy a + vy b; vz := vz a + vz b; vw := vw a + vw b |}.

Definition lerp_vec (x y : Vec4f F) (factor : F) : Vec4f F :=
  vec_add (vec_scale x (f1 - factor)) (vec_scale y factor).

#[export] Instance interpolated_float : Interpolated F F :=
  {| lerp := lerp_float; T_default := f0 |}.

#[export] Instance interpolated_vec : Interpolated F (Vec4f F) :=
  {| lerp := lerp_vec; T_default := {| vx := f0; vy := f0; vz := f0; vw := f0 |} |}.

Definition getValue {T : Type} `{Interpolated F T}
    (i : TimeOfDayInterpolator T) (gameHour : F) (timeSettings : TimeOfDaySettings F) : T :=
  (* night *)
  if (gameHour <=? mNightEnd timeSettings) || (gameHour >=? mNightStart timeSettings + f1) then
    mNightValue i
  (* sunrise *)
  else if (gameHour >=? mNightEnd timeSettings) && (gameHour <=? mDayStart timeSettings + f1) then
    if gameHour <=? mSunriseTime timeSettings then
      (* fade in *)
      let advance := mSunriseTime timeSettings - gameHour in
      let factor := advance / f0_5 in
      lerp (mSunriseValue i) (mNightValue i) factor
    else
      (* fade out *)
      let advance := gameHour - mSunriseTime timeSettings in
      let factor := advance / f3 in
      lerp (mSunriseValue i) (mDayValue i) factor
  (* day *)
  else if (gameHour >=? mDayStart timeSettings + f1) && (gameHour <=? mDayEnd timeSettings - f1) then
    mDayValue i
  (* sunset *)
  else if (gameHour >=? mDayEnd timeSettings - f1) && (gameHour <=? mNightStart timeSettings + f1) then
    if gameHour <=? mDayEnd timeSettings + f1 then
      (* fade in *)
      let advance := (mDayEnd timeSettings + f1) - gameHour in
      let factor := advance / f2 in
      lerp (mSunsetValue i) (mDayValue i) factor
    else
      (* fade out *)
      let advance := gameHour - (mDayEnd timeSettings + f1) in
      let factor := advance / f2 in
      lerp (mSunsetValue i) (mNightValue i) factor
  else T_default.
End Interpolation.

(** ** Weather *)

(** Modelled from the spec: [MWWorld::Fallback] is declared in [fallback.hpp],
    which is outside of the excerpt; the specification describes it as an
    external static key/value table, so it is a record of lookups. *)
Record Fallback (F : Type) : Type := {
  getFallbackFloat : string -> F;
  getFallbackString : string -> string;
  getFallbackBool : string -> bool;
  getFallbackColour : string -> Vec4f F;
}.
Arguments getFallbackFloat {F} _ _.
Arguments getFallbackString {F} _ _.
Arguments getFallbackBool {F} _ _.
Arguments getFallbackColour {F} _ _.

Record Weather (F : Type) : Type := {
  mCloudTexture : string;
  mSkyColor : TimeOfDayInterpolator (Vec4f F);
  mFogColor : TimeOfDayInterpolator (Vec4f F);
  mAmbientColor : TimeOfDayInterpolator (Vec4f F);
  mSunColor : TimeOfDayInterpolator (Vec4f F);
  mLandFogDepth : TimeOfDayInterpolator F;
  mSunDiscSunsetColor : Vec4f F;
  mWindSpeed : F;
  mCloudSpeed : F;
  mGlareView : F;
  mIsStorm : bool;
  mRainSpeed : F;
  mRainFrequency : F;
  mParticleEffect : string;
  mRainEffect : string;
  mAmbientLoopSoundID : string;
  mTransitionDelta : F;
  mCloudsMaximumPercent : F;
  mThunderFrequency : F;
  mThunderThreshold : F;
  mThunderSoundID : list string;
  mFlashDecrement : F;
  mFlashBrightness : F;
}.
Arguments mCloudTexture {F} _.
Arguments mSkyColor {F} _.
Arguments mFogColor {F} _.
Arguments mAmbientColor {F} _.
Arguments mSunColor {F} _.
Arguments mLandFogDepth {F} _.
Arguments mSunDiscSunsetColor {F} _.
Arguments mWindSpeed {F} _.
Arguments mCloudSpeed {F} _.
Arguments mGlareView {F} _.
Arguments mIsStorm {F} _.
Arguments mRainSpeed {F} _.
Arguments mRainFrequency {F} _.
Arguments mParticleEffect {F} _.
Arguments mRainEffect {F} _.
Arguments mAmbientLoopSoundID {F} _.
Arguments mTransitionDelta {F} _.
Arguments mCloudsMaximumPercent {F} _.
Arguments mThunderFrequency {F} _.
Arguments mThunderThreshold {F} _.
Arguments mThunderSoundID {F} _.
Arguments mFlashDecrement {F} _.
Arguments mFlashBrightness {F} _.

Section WeatherType.
Context {F : Type} `{FloatOps F}.
Local Open Scope float_scope.

(** The only assignment to a [Weather] after its construction. *)
Definition setFlashBrightness (w : Weather F) (b : F) : Weather F :=
  {| mCloudTexture := mCloudTexture w;
     mSkyColor := mSkyColor w;
     mFogColor := mFogColor w;
     mAmbientColor := mAmbientColor w;
     mSunColor := mSunColor w;
     mLandFogDepth := mLandFogDepth w;
     mSunDiscSunsetColor := mSunDiscSunsetColor w;
     mWindSpeed := mWindSpeed w;
     mCloudSpeed := mCloudSpeed w;
     mGlareView := mGlareView w;
     mIsStorm := mIsStorm w;
     mRainSpeed := mRainSpeed w;
     mRainFrequency := mRainFrequency w;
     mParticleEffect := mParticleEffect w;
     mRainEffect := mRainEffect w;
     mAmbientLoopSoundID := mAmbientLoopSoundID w;
     mTransitionDelta := mTransitionDelta w;
     mCloudsMaximumPercent := mCloudsMaximumPercent w;
     mThunderFrequency := mThunderFrequency w;
     mThunderThreshold := mThunderThreshold w;
     mThunderSoundID := mThunderSoundID w;
     mFlashDecrement := mFlashDecrement w;
     mFlashBrightness := b |}.

Definition interpolatorOf {T : Type} (get : string -> T) (name part kind : string)
    : TimeOfDayInterpolator T :=
  let key := fun time => get ("Weather_" +:+ name +:+ "_" +:+ part +:+ "_" +:+ time +:+ "_" +:+ kind) in
  {| mSunriseValue := key "Sunrise"; mDayValue := key "Day";
     mSunsetValue := key "Sunset"; mNightValue := key "Night" |}.

(** [Weather::Weather] *)
Definition Weather_new (name : string) (fallback : Fallback F)
    (stormWindSpeed rainSpeed : F) (particleEffect : string) : Weather F :=
  let flt := fun attr => getFallbackFloat fallback ("Weather_" +:+ name +:+ attr) in
  let str := fun attr => getFallbackString fallback ("Weather_" +:+ name +:+ attr) in
  let windSpeed := flt "_Wind_Speed" in
  let rainEffect :=
    if getFallbackBool fallback ("Weather_" +:+ name +:+ "_Using_Precip")
    then "meshes\raindrop.nif" else "" in
  {| mCloudTexture := str "_Cloud_Texture";
     mSkyColor := interpolatorOf (getFallbackColour fallback) name "Sky" "Color";
     mFogColor := interpolatorOf (getFallbackColour fallback) name "Fog" "Color";
     mAmbientColor := interpolatorOf (getFallbackColour fallback) name "Ambient" "Color";
     mSunColor := interpolatorOf (getFallbackColour fallback) name "Sun" "Color";
     mLandFogDepth :=
       {| mSunriseValue := flt "_Land_Fog_Day_Depth";
          mDayValue := flt "_Land_Fog_Day_Depth";
          mSunsetValue := flt "_Land_Fog_Day_Depth";
          mNightValue := flt "_Land_Fog_Night_Depth" |};
     mSunDiscSunsetColor := getFallbackColour fallback ("Weather_" +:+ name +:+ "_Sun_Disc_Sunset_Color");
     mWindSpeed := windSpeed;
     mCloudSpeed := flt "_Cloud_Speed";
     mGlareView := flt "_Glare_View";
     mIsStorm := windSpeed >? stormWindSpeed;
     mRainSpeed := rainSpeed;
     mRainFrequency := flt "_Rain_Entrance_Speed";
     mParticleEffect := particleEffect;
     mRainEffect := rainEffect;
     mAmbientLoopSoundID :=
       if negb (String.eqb rainEffect "") then
         let id := str "_Rain_Loop_Sound_ID" in
         if String.eqb id "" then "rain" else id
       else str "_Ambient_Loop_Sound_ID";
     mTransitionDelta := flt "_Transition_Delta";
     mCloudsMaximumPercent := flt "_Clouds_Maximum_Percent";
     mThunderFrequency := flt "_Thunder_Frequency";
     mThunderThreshold := flt "_Thunder_Threshold";
     mThunderSoundID :=
       [str "_Thunder_Sound_ID_0"; str "_Thunder_Sound_ID_1";
        str "_Thunder_Sound_ID_2"; str "_Thunder_Sound_ID_3"];
     mFlashDecrement := flt "_Flash_Decrement";
     mFlashBrightness := f0 |}.

Definition transitionDelta (w : Weather F) : F := mTransitionDelta w.

Definition cloudBlendFactor (w : Weather F) (transitionRatio : F) : F :=
  transitionRatio / mCloudsMaximumPercent w.

Definition flashDecrement (w : Weather F) (elapsedSeconds : F) : Weather F :=
  let decrement := mFlashDecrement w * elapsedSeconds in
  setFlashBrightness w
    (if decrement >? mFlashBrightness w then f0 else mFlashBrightness w - decrement).

Definition thunderChance (w : Weather F) (transitionRatio elapsedSeconds : F) : F :=
  let scaleFactor := (transitionRatio - mThunderThreshold w) / (f1 - mThunderThreshold w) in
  ((mThunderFrequency w * f10) / f60) * elapsedSeconds * scaleFactor.

(** [distance] is the value of [Misc::Rng::rollDice(4)].  The result pairs
    the weather with the sounds handed to the sound manager. *)
Definition lightningAndThunder (w : Weather F) (distance : Z) : res (Weather F * list string) :=
  let w' := setFlashBrightness w (mFlashBrightness w + (f1 - (f_of_Z distance * f0_25))) in
  do sound <- vec_at (mThunderSoundID w) distance;
  Ok (w', [sound]).

(** The random draws of one call. *)
Record ThunderRolls : Type := {
  rollProbability : F;
  rollDice4 : Z;
}.

(** [Weather::calculateThunder]: the returned brightness, the weather after
    the call and the sounds played. *)
Definition calculateThunder (w : Weather F) (transitionRatio elapsedSeconds : F)
    (isPaused : bool) (rng : ThunderRolls) : res (F * Weather F * list string) :=
  do r <-
    (if negb isPaused then
       if (transitionRatio >=? mThunderThreshold w) && (mThunderFrequency w >? f0) then
         let w1 := flashDecrement w elapsedSeconds in
         if rollProbability rng <=? thunderChance w1 transitionRatio elapsedSeconds then
           lightningAndThunder w1 (rollDice4 rng)
         else Ok (w1, [])
       else Ok (setFlashBrightness w f0, [])
     else Ok (w, []));
  Ok (mFlashBrightness (fst r), fst r, snd r).
End WeatherType.

(** ** RegionWeather *)

Definition invalidWeatherID : Z := -1.

(** Modelled from the spec: [ESM::Region] is declared in the ESM component,
    outside of the excerpt; only the fields read by [weather.cpp] appear. *)
Record RegionData : Type := {
  mClear : Z; mCloudy : Z; mFoggy : Z; mOvercast : Z; mRain : Z;
  mThunder : Z; mAsh : Z; mBlight : Z; mA : Z; mB : Z;
}.
Record Region : Type := {
  mId : string;
  mData : RegionData;
}.

(** [mChances] is a [std::vector<char>]; its entries are integers. *)
Record RegionWeather : Type := {
  mWeather : Z;
  mChances : list Z;
}.

(** [ESM::RegionWeatherState], the saved form of a [RegionWeather]. *)
Record RegionWeatherState : Type := {
  rs_mWeather : Z;
  rs_mChances : list Z;
}.

(** [RegionWeather(const ESM::Region&)].  The ten chances are pushed into a
    [std::vector<char>]: a chance within 0..127 is stored as it is on every
    platform; what becomes of a greater one depends on the signedness of
    [char] and is not modelled. *)
Definition RegionWeather_of_region (region : Region) : RegionWeather :=
  let d := mData region in
  {| mWeather := invalidWeatherID;
     mChances := [mClear d; mCloudy d; mFoggy d; mOvercast d; mRain d;
                  mThunder d; mAsh d; mBlight d; mA d; mB d] |}.

Definition RegionWeather_of_state (state : RegionWeatherState) : RegionWeather :=
  {| mWeather := rs_mWeather state; mChances := rs_mChances state |}.

Definition RegionWeather_to_state (rw : RegionWeather) : RegionWeatherState :=
  {| rs_mWeather := mWeather rw; rs_mChances := mChances rw |}.

Definition setWeather (weatherID : Z) (rw : RegionWeather) : RegionWeather :=
  {| mWeather := weatherID; mChances := mChances rw |}.

(** The loop of [chooseNewWeather]: [i] and [sum] are the loop variables,
    [rest] is [mChances] from position [i] on.  The value returned is the
    final [i]. *)
Fixpoint chooseLoop (chance sum i : Z) (rest : list Z) : Z :=
  match rest with
  | [] => i
  | c :: rest' =>
      let sum' := sum + c in
      if chance <=? sum' then i else chooseLoop chance sum' (i + 1) rest'
  end.

(** [roll100] is the value of [Misc::Rng::rollDice(100)]. *)
Definition chooseNewWeather (roll100 : Z) (rw : RegionWeather) : RegionWeather :=
  let chance := roll100 + 1 in
  setWeather (chooseLoop chance 0 0 (mChances rw)) rw.

(** [getWeather] returns the id and may update the region. *)
Definition getWeather (roll100 : Z) (rw : RegionWeather) : Z * RegionWeather :=
  let rw' := if mWeather rw =? invalidWeatherID then chooseNewWeather roll100 rw else rw in
  (mWeather rw', rw').

(** The copy loop of [setChances]: [mChances[i] = *it] for the remaining
    source entries [src], starting at position [i].  [reserve] changes the
    capacity of the vector and not its size, so it does not appear. *)
Fixpoint writeChances (i : nat) (src dst : list Z) : res (list Z) :=
  match src with
  | [] => Ok dst
  | c :: src' =>
      if (i <? length dst)%nat then writeChances (S i) src' (<[i := c]> dst)
      else Fail OutOfBounds
  end.

Definition setChances (chances : list Z) (roll100 : Z) (rw : RegionWeather) : res RegionWeather :=
  do table <- writeChances 0 chances (mChances rw);
  let rw' := {| mWeather := mWeather rw; mChances := table |} in
  if to_size_t (mWeather rw') >=? Z.of_nat (length table) then Ok (chooseNewWeather roll100 rw')
  else
    do c <- vec_at table (mWeather rw');
    if c =? 0 then Ok (chooseNewWeather roll100 rw') else Ok rw'.

(** ** WeatherManager *)

(** Modelled from the spec: [Misc::StringUtils::lowerCase] lives in the
    [components] tree, outside of the excerpt; region ids are keyed by their
    lower-case form, taken here as ASCII lower-casing. *)
Definition lowerChar (c : ascii) : ascii :=
  let n := nat_of_ascii c in
  if ((65 <=? n) && (n <=? 90))%nat then ascii_of_nat (n + 32) else c.

Fixpoint lowerCase (s : string) : string :=
  match s with
  | EmptyString => EmptyString
  | String c s' => String (lowerChar c) (lowerCase s')
  end.

(** What [weather.cpp] reads of the game-data store. *)
Record ESMStore (F : Type) : Type := {
  storeRegions : list Region;
  fStromWindSpeed : F;
}.
Arguments storeRegions {F} _.
Arguments fStromWindSpeed {F} _.

(** What [weather.cpp] asks of [MWBase::World] and of the player. *)
Record World : Type := {
  isCellExterior : bool;
  isCellQuasiExterior : bool;
  playerIsInCell : bool;
  playerCellRegion : string;
}.

(** [ESM::WeatherState], the saved record. *)
Record WeatherState (F : Type) : Type := {
  st_mCurrentRegion : string;
  st_mTimePassed : F;
  st_mFastForward : bool;
  st_mWeatherUpdateTime : F;
  st_mTransitionFactor : F;
  st_mCurrentWeather : Z;
  st_mNextWeather : Z;
  st_mQueuedWeather : Z;
  st_mRegions : gmap string RegionWeatherState;
}.
Arguments st_mCurrentRegion {F} _.
Arguments st_mTimePassed {F} _.
Arguments st_mFastForward {F} _.
Arguments st_mWeatherUpdateTime {F} _.
Arguments st_mTransitionFactor {F} _.
Arguments st_mCurrentWeather {F} _.
Arguments st_mNextWeather {F} _.
Arguments st_mQueuedWeather {F} _.
Arguments st_mRegions {F} _.

(** Record names: only [ESM::REC_WTHR] is told apart. *)
Inductive RecNameInts : Type :=
| REC_WTHR
| REC_other (n : Z).

(** The state of the manager that the transition machine reads and writes.
    The rendering result [mResult], the members [mWindSpeed], [mIsStorm] and
    [mStormDirection], the ambient sound ([mAmbientSound], [mPlayingSoundID])
    and the moons are not part of the model: [update] and [stopSounds] write
    them (also while paused) and none of the functions below reads them, so no
    statement about a [WeatherManager] here speaks of them. *)
Record WeatherManager (F : Type) : Type := {
  mStore : ESMStore F;
  mTimeSettings : TimeOfDaySettings F;
  mHoursBetweenWeatherChanges : F;
  mWeatherSettings : list (Weather F);
  mCurrentRegion : string;
  mTimePassed : F;
  mFastForward : bool;
  mWeatherUpdateTime : F;
  mTransitionFactor : F;
  mCurrentWeather : Z;
  mNextWeather : Z;
  mQueuedWeather : Z;
  mRegions : gmap string RegionWeather;
}.
Arguments mStore {F} _.
Arguments mTimeSettings {F} _.
Arguments mHoursBetweenWeatherChanges {F} _.
Arguments mWeatherSettings {F} _.
Arguments mCurrentRegion {F} _.
Arguments mTimePassed {F} _.
Arguments mFastForward {F} _.
Arguments mWeatherUpdateTime {F} _.
Arguments mTransitionFactor {F} _.
Arguments mCurrentWeather {F} _.
Arguments mNextWeather {F} _.
Arguments mQueuedWeather {F} _.
Arguments mRegions {F} _.

(** The random draws of one [update]. *)
Record UpdateRolls (F : Type) : Type := {
  rollDice100 : Z;
  rollsCurrent : @ThunderRolls F;
  rollsNext : @ThunderRolls F;
}.
Arguments rollDice100 {F} _.
Arguments rollsCurrent {F} _.
Arguments rollsNext {F} _.

(** [std::map::insert]: an existing key keeps its value. *)
Definition map_insert_new {V : Type} (k : string) (v : V) (m : gmap string V) : gmap string V :=
  match m !! k with
  | Some _ => m
  | None => <[k := v]> m
  end.

Section Manager.
Context {F : Type} `{FloatOps F}.
Local Open Scope float_scope.

(** Assignments to the members of the manager. *)
Definition set_mWeatherSettings (v : list (Weather F)) (s : WeatherManager F) : WeatherManager F :=
  {| mStore := mStore s; mTimeSettings := mTimeSettings s;
     mHoursBetweenWeatherChanges := mHoursBetweenWeatherChanges s;
     mWeatherSettings := v; mCurrentRegion := mCurrentRegion s;
     mTimePassed := mTimePassed s; mFastForward := mFastForward s;
     mWeatherUpdateTime := mWeatherUpdateTime s; mTransitionFactor := mTransitionFactor s;
     mCurrentWeather := mCurrentWeather s; mNextWeather := mNextWeather s;
     mQueuedWeather := mQueuedWeather s; mRegions := mRegions s |}.

Definition set_mCurrentRegion (v : string) (s : WeatherManager F) : WeatherManager F :=
  {| mStore := mStore s; mTimeSettings := mTimeSettings s;
     mHoursBetweenWeatherChanges := mHoursBetweenWeatherChanges s;
     mWeatherSettings := mWeatherSettings s; mCurrentRegion := v;
     mTimePassed := mTimePassed s; mFastForward := mFastForward s;
     mWeatherUpdateTime := mWeatherUpdateTime s; mTransitionFactor := mTransitionFactor s;
     mCurrentWeather := mCurrentWeather s; mNextWeather := mNextWeather s;
     mQueuedWeather := mQueuedWeather s; mRegions := mRegions s |}.

Definition set_mTimePassed (v : F) (s : WeatherManager F) : WeatherManager F :=
  {| mStore := mStore s; mTimeSettings := mTimeSettings s;
     mHoursBetweenWeatherChanges := mHoursBetweenWeatherChanges s;
     mWeatherSettings := mWeatherSettings s; mCurrentRegion := mCurrentRegion s;
     mTimePassed := v; mFastForward := mFastForward s;
     mWeatherUpdateTime := mWeatherUpdateTime s; mTransitionFactor := mTransitionFactor s;
     mCurrentWeather := mCurrentWeather s; mNextWeather := mNextWeather s;
     mQueuedWeather := mQueuedWeather s; mRegions := mRegions s |}.

Definition set_mFastForward (v : bool) (s : WeatherManager F) : WeatherManager F :=
  {| mStore := mStore s; mTimeSettings := mTimeSettings s;
     mHoursBetweenWeatherChanges := mHoursBetweenWeatherChanges s;
     mWeatherSettings := mWeatherSettings s; mCurrentRegion := mCurrentRegion s;
     mTimePassed := mTimePassed s; mFastForward := v;
     mWeatherUpdateTime := mWeatherUpdateTime s; mTransitionFactor := mTransitionFactor s;
     mCurrentWeather := mCurrentWeather s; mNextWeather := mNextWeather s;
     mQueuedWeather := mQueuedWeather s; mRegions := mRegions s |}.

Definition set_mWeatherUpdateTime (v : F) (s : WeatherManager F) : WeatherManager F :=
  {| mStore := mStore s; mTimeSettings := mTimeSettings s;
     mHoursBetweenWeatherChanges := mHoursBetweenWeatherChanges s;
     mWeatherSettings := mWeatherSettings s; mCurrentRegion := mCurrentRegion s;
     mTimePassed := mTimePassed s; mFastForward := mFastForward s;
     mWeatherUpdateTime := v; mTransitionFactor := mTransitionFactor s;
     mCurrentWeather := mCurrentWeather s; mNextWeather := mNextWeather s;
     mQueuedWeather := mQueuedWeather s; mRegions := mRegions s |}.

Definition set_mTransitionFactor (v : F) (s : WeatherManager F) : WeatherManager F :=
  {| mStore := mStore s; mTimeSettings := mTimeSettings s;
     mHoursBetweenWeatherChanges := mHoursBetweenWeatherChanges s;
     mWeatherSettings := mWeatherSettings s; mCurrentRegion := mCurrentRegion s;
     mTimePassed := mTimePassed s; mFastForward := mFastForward s;
     mWeatherUpdateTime := mWeatherUpdateTime s; mTransitionFactor := v;
     mCurrentWeather := mCurrentWeather s; mNextWeather := mNextWeather s;
     mQueuedWeather := mQueuedWeather s; mRegions := mRegions s |}.

Definition set_mCurrentWeather (v : Z) (s : WeatherManager F) : WeatherManager F :=
  {| mStore := mStore s; mTimeSettings := mTimeSettings s;
     mHoursBetweenWeatherChanges := mHoursBetweenWeatherChanges s;
     mWeatherSettings := mWeatherSettings s; mCurrentRegion := mCurrentRegion s;
     mTimePassed := mTimePassed s; mFastForward := mFastForward s;
     mWeatherUpdateTime := mWeatherUpdateTime s; mTransitionFactor := mTransitionFactor s;
     mCurrentWeather := v; mNextWeather := mNextWeather s;
     mQueuedWeather := mQueuedWeather s; mRegions := mRegions s |}.

Definition set_mNextWeather (v : Z) (s : WeatherManager F) : WeatherManager F :=
  {| mStore := mStore s; mTimeSettings := mTimeSettings s;
     mHoursBetweenWeatherChanges := mHoursBetweenWeatherChanges s;
     mWeatherSettings := mWeatherSettings s; mCurrentRegion := mCurrentRegion s;
     mTimePassed := mTimePassed s; mFastForward := mFastForward s;
     mWeatherUpdateTime := mWeatherUpdateTime s; mTransitionFactor := mTransitionFactor s;
     mCurrentWeather := mCurrentWeather s; mNextWeather := v;
     mQueuedWeather := mQueuedWeather s; mRegions := mRegions s |}.

Definition set_mQueuedWeather (v : Z) (s : WeatherManager F) : WeatherManager F :=
  {| mStore := mStore s; mTimeSettings := mTimeSettings s;
     mHoursBetweenWeatherChanges := mHoursBetweenWeatherChanges s;
     mWeatherSettings := mWeatherSettings s; mCurrentRegion := mCurrentRegion s;
     mTimePassed := mTimePassed s; mFastForward := mFastForward s;
     mWeatherUpdateTime := mWeatherUpdateTime s; mTransitionFactor := mTransitionFactor s;
     mCurrentWeather := mCurrentWeather s; mNextWeather := mNextWeather s;
     mQueuedWeather := v; mRegions := mRegions s |}.

Definition set_mRegions (v : gmap string RegionWeather) (s : WeatherManager F) : WeatherManager F :=
  {| mStore := mStore s; mTimeSettings := mTimeSettings s;
     mHoursBetweenWeatherChanges := mHoursBetweenWeatherChanges s;
     mWeatherSettings := mWeatherSettings s; mCurrentRegion := mCurrentRegion s;
     mTimePassed := mTimePassed s; mFastForward := mFastForward s;
     mWeatherUpdateTime := mWeatherUpdateTime s; mTransitionFactor := mTransitionFactor s;
     mCurrentWeather := mCurrentWeather s; mNextWeather := mNextWeather s;
     mQueuedWeather := mQueuedWeather s; mRegions := v |}.

Definition inTransition (s : WeatherManager F) : bool :=
  negb (mNextWeather s =? invalidWeatherID)%Z.

Definition forceWeather (weatherID : Z) (s : WeatherManager F) : WeatherManager F :=
  set_mQueuedWeather invalidWeatherID
    (set_mNextWeather invalidWeatherID
      (set_mCurrentWeather weatherID
        (set_mTransitionFactor f0 s))).

Definition addWeatherTransition (weatherID : Z) (s : WeatherManager F) : res (WeatherManager F) :=
  if negb ((0 <=? weatherID)%Z && (weatherID <? Z.of_nat (length (mWeatherSettings s)))%Z)
  then Fail AssertionFailed
  else if negb (inTransition s) && negb (weatherID =? mCurrentWeather s)%Z then
    Ok (set_mTransitionFactor f1 (set_mNextWeather weatherID s))
  else if inTransition s && negb (weatherID =? mNextWeather s)%Z then
    Ok (set_mQueuedWeather weatherID s)
  else Ok s.

Definition updateWeatherTransitions (elapsedRealSeconds : F) (s : WeatherManager F)
    : res (WeatherManager F) :=
  if negb (mFastForward s) && inTransition s then
    do next <- vec_at (mWeatherSettings s) (mNextWeather s);
    let delta := transitionDelta next in
    let s1 := set_mTransitionFactor (mTransitionFactor s - elapsedRealSeconds * delta) s in
    if mTransitionFactor s1 <=? f0 then
      let s2 := set_mQueuedWeather invalidWeatherID
                  (set_mNextWeather (mQueuedWeather s1)
                    (set_mCurrentWeather (mNextWeather s1) s1)) in
      if inTransition s2 then
        do next' <- vec_at (mWeatherSettings s2) (mNextWeather s2);
        let newDelta := transitionDelta next' in
        let remainingSeconds := - (mTransitionFactor s2 / delta) in
        Ok (set_mTransitionFactor (f1 - (remainingSeconds * newDelta)) s2)
      else Ok (set_mTransitionFactor f0 s2)
    else Ok s1
  else
    let s1 :=
      if negb (mQueuedWeather s =? invalidWeatherID)%Z then set_mCurrentWeather (mQueuedWeather s) s
      else if negb (mNextWeather s =? invalidWeatherID)%Z then set_mCurrentWeather (mNextWeather s) s
      else s in
    Ok (set_mFastForward false
          (set_mQueuedWeather invalidWeatherID
            (set_mNextWeather invalidWeatherID s1))).

(** [hours] is a [double] in the source, added to the [float] member and
    rounded once; it is taken here as a value of [F], that is, as a number
    of hours that a [float] holds exactly. *)
Definition advanceTime (hours : F) (incremental : bool) (s : WeatherManager F) : WeatherManager F :=
  set_mFastForward (if negb incremental then true else mFastForward s)
    (set_mTimePassed (mTimePassed s + hours) s).

Definition importRegions (s : WeatherManager F) : WeatherManager F :=
  set_mRegions
    (foldl (fun m region => map_insert_new (lowerCase (mId region)) (RegionWeather_of_region region) m)
           (mRegions s) (storeRegions (mStore s)))
    s.

(** [regionalWeatherChanged] receives the region by reference; the region
    after the call is returned next to the manager. *)
Definition regionalWeatherChanged (world : World) (roll100 : Z)
    (regionID : string) (region : RegionWeather) (s : WeatherManager F)
    : res (RegionWeather * WeatherManager F) :=
  if playerIsInCell world then
    let playerRegion := lowerCase (playerCellRegion world) in
    if negb (String.eqb playerRegion "") && String.eqb playerRegion regionID then
      let '(id, region') := getWeather roll100 region in
      do s' <- addWeatherTransition id s;
      Ok (region', s')
    else Ok (region, s)
  else Ok (region, s).

(** [weatherID] is an [unsigned int]. *)
Definition changeWeather (world : World) (roll100 : Z) (regionID : string) (weatherID : N)
    (s : WeatherManager F) : res (WeatherManager F) :=
  if (Z.of_N weatherID <? Z.of_nat (length (mWeatherSettings s)))%Z then
    let lowerCaseRegionID := lowerCase regionID in
    match mRegions s !! lowerCaseRegionID with
    | Some region =>
        let region1 := setWeather (Z.of_N weatherID) region in
        do r <- regionalWeatherChanged world roll100 lowerCaseRegionID region1 s;
        Ok (set_mRegions (<[lowerCaseRegionID := fst r]> (mRegions (snd r))) (snd r))
    | None => Ok s
    end
  else Ok s.

Definition modRegion (world : World) (roll100 : Z) (regionID : string) (chances : list Z)
    (s : WeatherManager F) : res (WeatherManager F) :=
  let lowerCaseRegionID := lowerCase regionID in
  match mRegions s !! lowerCaseRegionID with
  | Some region =>
      do region1 <- setChances chances roll100 region;
      do r <- regionalWeatherChanged world roll100 lowerCaseRegionID region1 s;
      Ok (set_mRegions (<[lowerCaseRegionID := fst r]> (mRegions (snd r))) (snd r))
  | None => Ok s
  end.

Definition playerTeleported (world : World) (roll100 : Z) (s : WeatherManager F) : WeatherManager F :=
  if isCellExterior world || isCellQuasiExterior world then
    let playerRegion := lowerCase (playerCellRegion world) in
    match mRegions s !! playerRegion with
    | Some region =>
        if negb (String.eqb playerRegion (mCurrentRegion s)) then
          let '(id, region') := getWeather roll100 region in
          forceWeather id
            (set_mRegions (<[playerRegion := region']> (mRegions s))
              (set_mCurrentRegion playerRegion s))
        else s
    | None => s
    end
  else s.

Definition updateWeatherTime (s : WeatherManager F) : bool * WeatherManager F :=
  let s1 := set_mTimePassed f0 (set_mWeatherUpdateTime (mWeatherUpdateTime s - mTimePassed s) s) in
  if mWeatherUpdateTime s1 <=? f0 then
    let s2 := set_mRegions (setWeather invalidWeatherID <$> mRegions s1) s1 in
    (true, set_mWeatherUpdateTime (mWeatherUpdateTime s2 + mHoursBetweenWeatherChanges s2) s2)
  else (false, s1).

Definition updateWeatherRegion (playerRegion : string) (s : WeatherManager F)
    : bool * WeatherManager F :=
  if negb (String.eqb playerRegion "") && negb (String.eqb playerRegion (mCurrentRegion s)) then
    (true, set_mCurrentRegion playerRegion s)
  else (false, s).

(** [calculateWeatherResult], as far as the modelled state goes: it reads
    the settings of the current (and next) weather and runs their thunder. *)
Definition calculateWeatherResult (elapsedSeconds : F) (isPaused : bool)
    (rng : UpdateRolls F) (s : WeatherManager F) : res (WeatherManager F * list string) :=
  if negb (inTransition s) then
    do w <- vec_at (mWeatherSettings s) (mCurrentWeather s);
    do r <- calculateThunder w f1 elapsedSeconds isPaused (rollsCurrent rng);
    Ok (set_mWeatherSettings (<[Z.to_nat (mCurrentWeather s) := snd (fst r)]> (mWeatherSettings s)) s,
        snd r)
  else
    do w <- vec_at (mWeatherSettings s) (mCurrentWeather s);
    do _ <- vec_at (mWeatherSettings s) (mNextWeather s);
    do r <- calculateThunder w (mTransitionFactor s) elapsedSeconds isPaused (rollsCurrent rng);
    let s1 := set_mWeatherSettings
                (<[Z.to_nat (mCurrentWeather s) := snd (fst r)]> (mWeatherSettings s)) s in
    do w' <- vec_at (mWeatherSettings s1) (mNextWeather s1);
    do r' <- calculateThunder w' (f1 - mTransitionFactor s1) elapsedSeconds isPaused (rollsNext rng);
    Ok (set_mWeatherSettings
          (<[Z.to_nat (mNextWeather s1) := snd (fst r')]> (mWeatherSettings s1)) s1,
        snd r ++ snd r').

(** [update]: the timers, the transition machine and the thunder; the
    values pushed to the renderer and to the ambient sound are left out. *)
Definition update (world : World) (rng : UpdateRolls F) (duration : F) (paused : bool)
    (s : WeatherManager F) : res (WeatherManager F * list string) :=
  do s1 <-
    (if negb paused then
       let playerRegion := lowerCase (playerCellRegion world) in
       let '(timeUp, sa) := updateWeatherTime s in
       let '(changed, sb) := if timeUp then (true, sa) else updateWeatherRegion playerRegion sa in
       do sc <-
         (if changed then
            match mRegions sb !! mCurrentRegion sb with
            | Some region =>
                let '(id, region') := getWeather (rollDice100 rng) region in
                addWeatherTransition id
                  (set_mRegions (<[mCurrentRegion sb := region']> (mRegions sb)) sb)
            | None => Ok sb
            end
          else Ok sb);
       updateWeatherTransitions duration sc
     else Ok s);
  let exterior := isCellExterior world || isCellQuasiExterior world in
  if negb exterior then Ok (s1, [])
  else calculateWeatherResult duration paused rng s1.

Definition readRecord (type : RecNameInts) (format : Z) (state : WeatherState F)
    (s : WeatherManager F) : bool * WeatherManager F :=
  match type with
  | REC_WTHR =>
      let oldestCompatibleSaveFormat := 2%Z in
      if (format <? oldestCompatibleSaveFormat)%Z then (true, s)
      else
        let s1 :=
          set_mRegions ∅
            (set_mQueuedWeather (st_mQueuedWeather state)
              (set_mNextWeather (st_mNextWeather state)
                (set_mCurrentWeather (st_mCurrentWeather state)
                  (set_mTransitionFactor (st_mTransitionFactor state)
                    (set_mWeatherUpdateTime (st_mWeatherUpdateTime state)
                      (set_mFastForward (st_mFastForward state)
                        (set_mTimePassed (st_mTimePassed state)
                          (set_mCurrentRegion (st_mCurrentRegion state) s)))))))) in
        if decide (size (st_mRegions state) = 0%nat) then (true, importRegions s1)
        else (true, set_mRegions (RegionWeather_of_state <$> st_mRegions state) s1)
  | REC_other _ => (false, s)
  end.

Definition weatherTypes : list (string * string) :=
  [("Clear", ""); ("Cloudy", ""); ("Foggy", ""); ("Overcast", ""); ("Rain", "");
   ("Thunderstorm", ""); ("Ashstorm", "meshes\ashcloud.nif");
   ("Blight", "meshes\blightcloud.nif"); ("Snow", "meshes\snow.nif");
   ("Blizzard", "meshes\blizzard.nif")].

Definition addWeather (fallback : Fallback F) (store : ESMStore F) (rainSpeed : F)
    (settings : list (Weather F)) (type : string * string) : list (Weather F) :=
  settings ++ [Weather_new (fst type) fallback (fStromWindSpeed store) rainSpeed (snd type)].

(** [WeatherManager::WeatherManager] *)
Definition WeatherManager_new (fallback : Fallback F) (store : ESMStore F) : WeatherManager F :=
  let sunriseTime := getFallbackFloat fallback "Weather_Sunrise_Time" in
  let sunsetTime := getFallbackFloat fallback "Weather_Sunset_Time" in
  let sunriseDuration := getFallbackFloat fallback "Weather_Sunrise_Duration" in
  let sunsetDuration := getFallbackFloat fallback "Weather_Sunset_Duration" in
  let hours := getFallbackFloat fallback "Weather_Hours_Between_Weather_Changes" in
  let rainSpeed := getFallbackFloat fallback "Weather_Precip_Gravity" in
  forceWeather 0
    (importRegions
      {| mStore := store;
         mTimeSettings :=
           {| mNightStart := sunsetTime + sunsetDuration;
              mNightEnd := sunriseTime - f0_5;
              mDayStart := sunriseTime + sunriseDuration;
              mDayEnd := sunsetTime;
              mSunriseTime := sunriseTime |};
         mHoursBetweenWeatherChanges := hours;
         mWeatherSettings := foldl (addWeather fallback store rainSpeed) [] weatherTypes;
         mCurrentRegion := "";
         mTimePassed := f0;
         mFastForward := false;
         mWeatherUpdateTime := hours;
         mTransitionFactor := f0;
         mCurrentWeather := 0;
         mNextWeather := 0;
         mQueuedWeather := 0;
         mRegions := ∅ |}).
End Manager.

(** ** WeatherManager: saving and resetting *)

Section ManagerState.
Context {F : Type} `{FloatOps F}.

(** [WeatherManager::write]: the record handed to the writer. *)
Definition write (s : WeatherManager F) : WeatherState F :=
  {| st_mCurrentRegion := mCurrentRegion s;
     st_mTimePassed := mTimePassed s;
     st_mFastForward := mFastForward s;
     st_mWeatherUpdateTime := mWeatherUpdateTime s;
     st_mTransitionFactor := mTransitionFactor s;
     st_mCurrentWeather := mCurrentWeather s;
     st_mNextWeather := mNextWeather s;
     st_mQueuedWeather := mQueuedWeather s;
     st_mRegions := RegionWeather_to_state <$> mRegions s |}.

(** [WeatherManager::clear]; stopping the sounds is outside of the model. *)
Definition clear (s : WeatherManager F) : WeatherManager F :=
  importRegions
    (set_mRegions ∅
      (forceWeather 0
        (set_mWeatherUpdateTime f0
          (set_mTimePassed f0
            (set_mCurrentRegion "" s))))).
End ManagerState.

(** ** MoonModel *)

(** [std::fmod], which [MoonModel::moonRiseHour] needs on top of [FloatOps]. *)
Class FloatFmod (F : Type) : Type := {
  f_fmod : F -> F -> F;
}.

(** IEEE-754 [fmod] on binary32: the remainder of the truncated quotient,
    computed exactly on the scaled mantissas; it has the sign of [x]. *)
Definition Binary32_fmod (x y : Binary32.float) : Binary32.float :=
  match x, y with
  | S754_nan, _ | _, S754_nan => S754_nan
  | S754_infinity _, _ => S754_nan
  | _, S754_zero _ => S754_nan
  | _, S754_infinity _ => x
  | S754_zero _, _ => x
  | S754_finite sx mx ex, S754_finite _ my ey =>
      let e := Z.min ex ey in
      let r := (Z.pos mx * 2 ^ (ex - e)) mod (Z.pos my * 2 ^ (ey - e)) in
      if r =? 0 then S754_zero sx
      else binary_normalize Binary32.prec Binary32.emax (if sx then - r else r) e false
  end.

#[export] Instance binary32_fmod : FloatFmod Binary32.float :=
  {| f_fmod := Binary32_fmod |}.

(** Truncation toward zero, and [fmod] in exact arithmetic.  (Where C yields
    NaN for a zero divisor, the rationals yield [x].) *)
Definition Qtruncate (q : Q) : Z :=
  if Qle_bool 0 q then Qfloor q else Qceiling q.

#[export] Instance exact_fmod : FloatFmod Q :=
  {| f_fmod := fun x y => (x - y * inject_Z (Qtruncate (x / y)))%Q |}.

(** [static_cast<unsigned int>] of an [int]. *)
Definition to_unsigned (i : Z) : Z := i mod 2 ^ 32.

(** Modelled from the spec: [MWWorld::TimeStamp] is declared in
    [timestamp.hpp], outside of the excerpt: a day count and the hour of the
    day. *)
Record TimeStamp (F : Type) : Type := {
  getHour : F;
  getDay : Z;
}.
Arguments getHour {F} _.
Arguments getDay {F} _.

(** Modelled from the spec: [MWRender::MoonState] is declared in [sky.hpp],
    outside of the excerpt; the fields are those [calculateState] fills, in
    its order. *)
Record MoonState (F : Type) : Type := {
  mRotationFromHorizon : F;
  mRotationFromNorth : F;
  mPhase : Z;
  mShadowBlend : F;
  mMoonAlpha : F;
}.
Arguments mRotationFromHorizon {F} _.
Arguments mRotationFromNorth {F} _.
Arguments mPhase {F} _.
Arguments mShadowBlend {F} _.
Arguments mMoonAlpha {F} _.

Record MoonModel (F : Type) : Type := {
  mFadeInStart : F;
  mFadeInFinish : F;
  mFadeOutStart : F;
  mFadeOutFinish : F;
  mAxisOffset : F;
  mSpeed : F;
  mDailyIncrement : F;
  mFadeStartAngle : F;
  mFadeEndAngle : F;
  mMoonShadowEarlyFadeAngle : F;
}.
Arguments mFadeInStart {F} _.
Arguments mFadeInFinish {F} _.
Arguments mFadeOutStart {F} _.
Arguments mFadeOutFinish {F} _.
Arguments mAxisOffset {F} _.
Arguments mSpeed {F} _.
Arguments mDailyIncrement {F} _.
Arguments mFadeStartAngle {F} _.
Arguments mFadeEndAngle {F} _.
Arguments mMoonShadowEarlyFadeAngle {F} _.

Section MoonModelFunctions.
Context {F : Type} `{FloatOps F} `{FloatFmod F}.
Local Open Scope float_scope.

Definition f15 : F := f_of_Z 15.
Definition f23 : F := f_of_Z 23.
Definition f24 : F := f_of_Z 24.
Definition f180 : F := f_of_Z 180.

(** [std::min(a, b)]: [b] when [b < a], else [a]. *)
Definition f_min (a b : F) : F := if b <? a then b else a.

(** [MoonModel::MoonModel] *)
Definition MoonModel_new (name : string) (fallback : Fallback F) : MoonModel F :=
  let flt := fun attr => getFallbackFloat fallback ("Moons_" +:+ name +:+ attr) in
  {| mFadeInStart := flt "_Fade_In_Start";
     mFadeInFinish := flt "_Fade_In_Finish";
     mFadeOutStart := flt "_Fade_Out_Start";
     mFadeOutFinish := flt "_Fade_Out_Finish";
     mAxisOffset := flt "_Axis_Offset";
     mSpeed := f_min (flt "_Speed") (f180 / f23);
     mDailyIncrement := flt "_Daily_Increment";
     mFadeStartAngle := flt "_Fade_Start_Angle";
     mFadeEndAngle := flt "_Fade_End_Angle";
     mMoonShadowEarlyFadeAngle := flt "_Moon_Shadow_Early_Fade_Angle" |}.

Definition rotation (m : MoonModel F) (hours : F) : F :=
  f15 * mSpeed m * hours.

(** [daysPassed] is an [unsigned int], and so is the sum scaled by the
    daily increment. *)
Definition moonRiseHour (m : MoonModel F) (daysPassed : Z) : F :=
  let startDay := 16%Z in
  mDailyIncrement m
  + f_fmod (f_of_Z (to_unsigned (daysPassed - 1 + startDay)) * mDailyIncrement m) f24.

Definition angle (m : MoonModel F) (gameTime : TimeStamp F) : F :=
  let moonRiseHourToday := moonRiseHour m (to_unsigned (getDay gameTime)) in
  let moonRiseAngleToday :=
    if getHour gameTime <? moonRiseHourToday then
      let moonRiseHourYesterday := moonRiseHour m (to_unsigned (getDay gameTime - 1)) in
      if moonRiseHourYesterday <? f24 then
        let moonRiseAngleYesterday := rotation m (f24 - moonRiseHourYesterday) in
        if moonRiseAngleYesterday <? f180 then
          rotation m (getHour gameTime) + moonRiseAngleYesterday
        else f0
      else f0
    else rotation m (getHour gameTime - moonRiseHourToday) in
  if moonRiseAngleToday >=? f180 then f0 else moonRiseAngleToday.

(** The quotient and remainder are those of [int]; the result is returned
    as an [unsigned int]. *)
Definition phase (m : MoonModel F) (gameTime : TimeStamp F) : Z :=
  to_unsigned
    (if getHour gameTime <? moonRiseHour m (to_unsigned (getDay gameTime)) then
       Z.rem (Z.quot (getDay gameTime) 3) 8
     else Z.rem (Z.quot (getDay gameTime + 1) 3) 8).

Definition shadowBlend (m : MoonModel F) (angle : F) : F :=
  let fadeAngle := mFadeStartAngle m - mFadeEndAngle m in
  let fadeEndAngle2 := f180 - mFadeEndAngle m in
  let fadeStartAngle2 := f180 - mFadeStartAngle m in
  if (angle >=? mFadeEndAngle m) && (angle <? mFadeStartAngle m) then
    (angle - mFadeEndAngle m) / fadeAngle
  else if (angle >=? mFadeStartAngle m) && (angle <? fadeStartAngle2) then f1
  else if (angle >=? fadeStartAngle2) && (angle <? fadeEndAngle2) then
    (fadeEndAngle2 - angle) / fadeAngle
  else f0.

Definition hourlyAlpha (m : MoonModel F) (gameHour : F) : F :=
  if (gameHour >=? mFadeOutStart m) && (gameHour <? mFadeOutFinish m) then
    (mFadeOutFinish m - gameHour) / (mFadeOutFinish m - mFadeOutStart m)
  else if (gameHour >=? mFadeOutFinish m) && (gameHour <? mFadeInStart m) then f0
  else if (gameHour >=? mFadeInStart m) && (gameHour <? mFadeInFinish m) then
    (gameHour - mFadeInStart m) / (mFadeInFinish m - mFadeInStart m)
  else f1.

Definition earlyMoonShadowAlpha (m : MoonModel F) (angle : F) : F :=
  let moonShadowEarlyFadeAngle1 := mFadeEndAngle m - mMoonShadowEarlyFadeAngle m in
  let fadeEndAngle2 := f180 - mFadeEndAngle m in
  let moonShadowEarlyFadeAngle2 := fadeEndAngle2 + mMoonShadowEarlyFadeAngle m in
  if (angle >=? moonShadowEarlyFadeAngle1) && (angle <? mFadeEndAngle m) then
    (angle - moonShadowEarlyFadeAngle1) / mMoonShadowEarlyFadeAngle m
  else if (angle >=? mFadeEndAngle m) && (angle <? fadeEndAngle2) then f1
  else if (angle >=? fadeEndAngle2) && (angle <? moonShadowEarlyFadeAngle2) then
    (moonShadowEarlyFadeAngle2 - angle) / mMoonShadowEarlyFadeAngle m
  else f0.

Definition calculateState (m : MoonModel F) (gameTime : TimeStamp F) : MoonState F :=
  let rotationFromHorizon := angle m gameTime in
  {| mRotationFromHorizon := rotationFromHorizon;
     mRotationFromNorth := mAxisOffset m;
     mPhase := phase m gameTime;
     mShadowBlend := shadowBlend m rotationFromHorizon;
     mMoonAlpha := earlyMoonShadowAlpha m rotationFromHorizon * hourlyAlpha m (getHour gameTime) |}.
End MoonModelFunctions.

(** * Cell coordinates: [apps/opencs/model/world/cellcoordinates.cpp]

    [int] values are integers of [Z] inside the range of [int]; a stream
    is the string still to be read. *)

Module CellCoordinates.

(** The range of [int]. *)
Definition INT_MIN : Z := - 2 ^ 31.
Definition INT_MAX : Z := 2 ^ 31 - 1.
Definition fitsInt (z : Z) : bool := (INT_MIN <=? z) && (z <=? INT_MAX).

Record CellCoordinates : Type := {
  mX : Z;
  mY : Z;
}.

(** [CellCoordinates()] *)
Definition origin : CellCoordinates := {| mX := 0; mY := 0 |}.

Definition getX (c : CellCoordinates) : Z := mX c.
Definition getY (c : CellCoordinates) : Z := mY c.

(** [move]: [None] stands for a signed overflow of [mX + x] or [mY + y],
    which is undefined behaviour in C++. *)
Definition move (x y : Z) (c : CellCoordinates) : option CellCoordinates :=
  if fitsInt (mX c + x) && fitsInt (mY c + y)
  then Some {| mX := mX c + x; mY := mY c + y |}
  else None.

(** [stream << n] for an [int]: decimal digits, a minus sign when negative. *)
Definition showInt (n : Z) : string :=
  match n with
  | Z0 => "0"
  | Zpos p => NilEmpty.string_of_uint (Pos.to_uint p)
  | Zneg p => String "-" (NilEmpty.string_of_uint (Pos.to_uint p))
  end.

(** [std::isspace] in the classic locale. *)
Definition isSpace (c : ascii) : bool :=
  let n := nat_of_ascii c in
  (n =? 32)%nat || ((9 <=? n) && (n <=? 13))%nat.

Fixpoint skipWhitespace (s : string) : string :=
  match s with
  | String c s' => if isSpace c then skipWhitespace s' else s
  | EmptyString => EmptyString
  end.

(** [stream >> c] for a [char]: skips white space, takes one character. *)
Definition readChar (s : string) : option (ascii * string) :=
  match skipWhitespace s with
  | String c s' => Some (c, s')
  | EmptyString => None
  end.

(** The decimal digit a character stands for. *)
Definition digitOf (c : ascii) : option (uint -> uint) :=
  match c with
  | "0" => Some D0 | "1" => Some D1 | "2" => Some D2 | "3" => Some D3 | "4" => Some D4
  | "5" => Some D5 | "6" => Some D6 | "7" => Some D7 | "8" => Some D8 | "9" => Some D9
  | _ => None
  end%char.

(** The longest prefix of decimal digits and what follows it. *)
Fixpoint readDigits (s : string) : uint * string :=
  match s with
  | String c s' =>
      match digitOf c with
      | Some digit => let '(d, rest) := readDigits s' in (digit d, rest)
      | None => (Nil, s)
      end
  | EmptyString => (Nil, EmptyString)
  end.

(** [stream >> n] for an [int]: skips white space, accepts a sign and at
    least one digit, and fails when the value does not fit an [int]. *)
Definition readInt (s : string) : option (Z * string) :=
  let s1 := skipWhitespace s in
  let '(negative, s2) :=
    match s1 with
    | String "-" r => (true, r)
    | String "+" r => (false, r)
    | _ => (false, s1)
    end in
  let '(digits, rest) := readDigits s2 in
  match digits with
  | Nil => None
  | _ =>
      let magnitude := Z.of_N (N.of_uint digits) in
      let value := if negative then - magnitude else magnitude in
      if fitsInt value then Some (value, rest) else None
  end.

(** The worldspace is ignored. *)
Definition getId (worldspace : string) (c : CellCoordinates) : string :=
  "#" +:+ showInt (mX c) +:+ " " +:+ showInt (mY c).

Definition fromId (id : string) : CellCoordinates * bool :=
  match id with
  | String "#" _ =>
      match readChar id with
      | Some (ignore, s1) =>
          match readInt s1 with
          | Some (x, s2) =>
              match readInt s2 with
              | Some (y, _) => ({| mX := x; mY := y |}, true)
              | None => (origin, false)
              end
          | None => (origin, false)
          end
      | None => (origin, false)
      end
  | _ => (origin, false)
  end.

(** [operator==], [operator!=], [operator<] *)
Definition eqb (left right : CellCoordinates) : bool :=
  (getX left =? getX right) && (getY left =? getY right).

Definition neqb (left right : CellCoordinates) : bool := negb (eqb left right).

Definition ltb (left right : CellCoordinates) : bool :=
  if getX left <? getX right then true
  else if getX left >? getX right then false
  else getY left <? getY right.

(** [operator<<] *)
Definition show (coordinates : CellCoordinates) : string :=
  showInt (getX coordinates) +:+ ", " +:+ showInt (getY coordinates).

End CellCoordinates.

(** * The vocabulary of the properties *)

(** [chances[0] + ... + chances[n-1]] *)
Definition prefixSum (chances : list Z) (n : nat) : Z :=
  foldr Z.add 0 (take n chances).

(** A ten-entry chance table that sums to 10 only. *)
Definition sparseTable : RegionWeather :=
  {| mWeather := invalidWeatherID; mChances := [10; 0; 0; 0; 0; 0; 0; 0; 0; 0] |}.

Section Vocabulary.
Context {F : Type} `{FloatOps F}.
Local Open Scope float_scope.

Definition keyframes (i : TimeOfDayInterpolator F) : list F :=
  [mSunriseValue i; mDayValue i; mSunsetValue i; mNightValue i].

(** [nightEnd < dayStart <= dayEnd < nightStart] *)
Definition boundaryInvariant (ts : TimeOfDaySettings F) : bool :=
  (mNightEnd ts <? mDayStart ts) && (mDayStart ts <=? mDayEnd ts)
  && (mDayEnd ts <? mNightStart ts).

Definition monotonicKeyframes (i : TimeOfDayInterpolator F) : bool :=
  ((mSunriseValue i <=? mDayValue i) && (mDayValue i <=? mSunsetValue i)
   && (mSunsetValue i <=? mNightValue i))
  || ((mSunriseValue i >=? mDayValue i) && (mDayValue i >=? mSunsetValue i)
      && (mSunsetValue i >=? mNightValue i)).

(** [min(keyframes) <= v <= max(keyframes)] *)
Definition withinKeyframes (i : TimeOfDayInterpolator F) (v : F) : bool :=
  existsb (fun k => k <=? v) (keyframes i) && existsb (fun k => v <=? k) (keyframes i).

(** The order decides between [x] and [y]: one of [x <= y], [y <= x]
    holds.  In binary32 that is so unless one of them is NaN. *)
Definition comparable (x y : F) : bool := (x <=? y) || (y <=? x).

(** A five-hour sunrise: sunrise at 6, night ends at 5.5, day starts at 11
    and ends at 18, night starts at 20. *)
Definition longSunrise : TimeOfDaySettings F :=
  {| mNightStart := f_of_Z 20; mNightEnd := f_of_Z 11 / f2; mDayStart := f_of_Z 11;
     mDayEnd := f_of_Z 18; mSunriseTime := f_of_Z 6 |}.

(** Keyframes that grow from sunrise to night. *)
Definition risingKeyframes : TimeOfDayInterpolator F :=
  {| mSunriseValue := f0; mDayValue := f_of_Z 4; mSunsetValue := f_of_Z 5;
     mNightValue := f_of_Z 6 |}.

(** Keyframes 7, 7, 8, 9: sunrise and day agree. *)
Definition flatKeyframes : TimeOfDayInterpolator F :=
  {| mSunriseValue := f_of_Z 7; mDayValue := f_of_Z 7; mSunsetValue := f_of_Z 8;
     mNightValue := f_of_Z 9 |}.

(** Consecutive calls of [calculateThunder] on one [Weather], each with its
    own arguments and draws: the values returned, the weather left behind
    and the sounds played. *)
Fixpoint calculateThunderCalls (isPaused : bool) (calls : list (F * F * ThunderRolls))
    (w : Weather F) : res (list F * Weather F * list string) :=
  match calls with
  | [] => Ok ([], w, [])
  | (transitionRatio, elapsedSeconds, rng) :: calls' =>
      do r <- calculateThunder w transitionRatio elapsedSeconds isPaused rng;
      do rs <- calculateThunderCalls isPaused calls' (snd (fst r));
      Ok (fst (fst r) :: fst (fst rs), snd (fst rs), snd r ++ snd rs)
  end.

(** A configuration in the style of the stock game: sunrise at 6 and sunset
    at 18, both lasting 2 h, weather re-rolled every 20 h, every transition
    delta 1/8 Hz. *)
Definition sampleFallback : Fallback F :=
  {| getFallbackFloat := fun key =>
       if String.eqb key "Weather_Sunrise_Time" then f_of_Z 6
       else if String.eqb key "Weather_Sunset_Time" then f_of_Z 18
       else if String.eqb key "Weather_Sunrise_Duration" then f2
       else if String.eqb key "Weather_Sunset_Duration" then f2
       else if String.eqb key "Weather_Hours_Between_Weather_Changes" then f_of_Z 20
       else f1 / f_of_Z 8;
     getFallbackString := fun _ => "";
     getFallbackBool := fun _ => false;
     getFallbackColour := fun _ => T_default |}.

Definition sampleStore : ESMStore F :=
  {| storeRegions :=
       [{| mId := "Ascadian Isles Region";
           mData := {| mClear := 45; mCloudy := 45; mFoggy := 5; mOvercast := 5; mRain := 0;
                       mThunder := 0; mAsh := 0; mBlight := 0; mA := 0; mB := 0 |} |}];
     fStromWindSpeed := f1 |}.

(** The manager right after construction: weather 0, no transition. *)
Definition freshManager : WeatherManager F :=
  WeatherManager_new sampleFallback sampleStore.

(** In the middle of a transition 0 -> 3 with weather 5 queued. *)
Definition midTransition : WeatherManager F :=
  set_mTransitionFactor f0_5
    (set_mQueuedWeather 5 (set_mNextWeather 3 freshManager)).

(** The assertion of [addWeatherTransition]. *)
Definition validIndex (s : WeatherManager F) (weatherID : Z) : Prop :=
  (0 <= weatherID < Z.of_nat (length (mWeatherSettings s)))%Z.

(** Consecutive calls of [addWeatherTransition]. *)
Fixpoint addWeatherTransitions (ids : list Z) (s : WeatherManager F) : res (WeatherManager F) :=
  match ids with
  | [] => Ok s
  | weatherID :: ids' =>
      do s' <- addWeatherTransition weatherID s;
      addWeatherTransitions ids' s'
  end.

(** The ten weather types of the constructor. *)
Definition tenWeathers (s : WeatherManager F) : Prop :=
  length (mWeatherSettings s) = 10%nat.

Definition validWeatherID (weatherID : Z) : Prop := (0 <= weatherID < 10)%Z.

Definition validOrInvalid (s : WeatherManager F) (weatherID : Z) : Prop :=
  weatherID = invalidWeatherID \/
  (0 <= weatherID < Z.of_nat (length (mWeatherSettings s)))%Z.

Definition transitionInvariant (s : WeatherManager F) : Prop :=
  length (mWeatherSettings s) = 10%nat /\
  (mNextWeather s = invalidWeatherID <-> inTransition s = false) /\
  (mQueuedWeather s <> invalidWeatherID -> mNextWeather s <> invalidWeatherID) /\
  validOrInvalid s (mCurrentWeather s) /\
  validOrInvalid s (mNextWeather s) /\
  validOrInvalid s (mQueuedWeather s).

(** The mutators named by the specification, with their arguments. *)
Inductive mutator : Type :=
| ForceWeather (weatherID : Z)
| AddWeatherTransition (weatherID : Z)
| UpdateWeatherTransitions (elapsedSeconds : F)
| ChangeWeather (world : World) (roll100 : Z) (regionID : string) (weatherID : N)
| ReadRecord (type : RecNameInts) (format : Z) (state : WeatherState F)
| Update (world : World) (rng : UpdateRolls F) (duration : F) (paused : bool).

Definition runMutator (m : mutator) (s : WeatherManager F) : res (WeatherManager F) :=
  match m with
  | ForceWeather weatherID => Ok (forceWeather weatherID s)
  | AddWeatherTransition weatherID => addWeatherTransition weatherID s
  | UpdateWeatherTransitions elapsedSeconds => updateWeatherTransitions elapsedSeconds s
  | ChangeWeather world roll100 regionID weatherID =>
      changeWeather world roll100 regionID weatherID s
  | ReadRecord type format state => Ok (snd (readRecord type format state s))
  | Update world rng duration paused =>
      do r <- update world rng duration paused s; Ok (fst r)
  end.

(** The states reached from [init] by mutators satisfying [allowed], each
    of which returns normally. *)
Inductive reachable (allowed : mutator -> Prop) (init : WeatherManager F)
    : WeatherManager F -> Prop :=
| reachable_init : reachable allowed init init
| reachable_step (s s' : WeatherManager F) (m : mutator) :
    reachable allowed init s -> allowed m -> runMutator m s = Ok s' ->
    reachable allowed init s'.

Definition anyMutator (m : mutator) : Prop := True.

(** The ids of a saved record obey the conditions of the invariant. *)
Definition recordIdsOk (state : WeatherState F) : Prop :=
  (st_mQueuedWeather state <> invalidWeatherID -> st_mNextWeather state <> invalidWeatherID) /\
  (st_mCurrentWeather state = invalidWeatherID \/ validWeatherID (st_mCurrentWeather state)) /\
  (st_mNextWeather state = invalidWeatherID \/ validWeatherID (st_mNextWeather state)) /\
  (st_mQueuedWeather state = invalidWeatherID \/ validWeatherID (st_mQueuedWeather state)).

(** A region from which [getWeather] returns a valid id for every draw: its
    weather is unset or valid, and its table has at most ten entries, whose
    sum reaches 100, the greatest value drawn. *)
Definition selectable (region : RegionWeather) : Prop :=
  (mWeather region = invalidWeatherID \/ validWeatherID (mWeather region)) /\
  (length (mChances region) <= 10)%nat /\
  100 <= prefixSum (mChances region) (length (mChances region)).

(** A region of the store whose ten chances fit a [char] on every platform
    (0..127) and sum to 100 or more. *)
Definition storeRegionOk (region : Region) : Prop :=
  Forall (fun c => 0 <= c <= 127) (mChances (RegionWeather_of_region region)) /\
  100 <= prefixSum (mChances (RegionWeather_of_region region)) 10.

(** [mThunderSoundID] is an array of four sound ids. *)
Definition fourSounds (w : Weather F) : Prop := length (mThunderSoundID w) = 4%nat.

(** What the transition machine relies on besides the ids: four thunder
    sounds per weather, selectable regions, and a store of regions that
    are selectable when imported. *)
Definition dataOk (s : WeatherManager F) : Prop :=
  Forall fourSounds (mWeatherSettings s) /\
  map_Forall (fun _ region => selectable region) (mRegions s) /\
  Forall storeRegionOk (storeRegions (mStore s)).

Definition wellFormed (s : WeatherManager F) : Prop :=
  transitionInvariant s /\ validWeatherID (mCurrentWeather s) /\ dataOk s.

(** The draws of one [update] lie in the ranges of [rollDice(100)] and
    [rollDice(4)]. *)
Definition rollsInRange (rng : UpdateRolls F) : Prop :=
  0 <= rollDice100 rng < 100 /\
  0 <= rollDice4 (rollsCurrent rng) < 4 /\
  0 <= rollDice4 (rollsNext rng) < 4.

(** A saved record whose ids conform, whose current weather is set, and
    whose regions are selectable. *)
Definition recordOk (state : WeatherState F) : Prop :=
  recordIdsOk state /\
  validWeatherID (st_mCurrentWeather state) /\
  map_Forall (fun _ region => selectable (RegionWeather_of_state region)) (st_mRegions state).

(** [forceWeather] and [addWeatherTransition] are given a valid id,
    [readRecord] a conforming record and [update] draws within their
    ranges; [updateWeatherTransitions] and [changeWeather] are
    unrestricted. *)
Definition conformingMutator (m : mutator) : Prop :=
  match m with
  | ForceWeather weatherID => validWeatherID weatherID
  | AddWeatherTransition weatherID => validWeatherID weatherID
  | ReadRecord _ _ state => recordOk state
  | Update _ rng _ _ => rollsInRange rng
  | UpdateWeatherTransitions _ => True
  | ChangeWeather _ _ _ _ => True
  end.

(** The store, the weather settings and the region map are the same in [s]
    and [s']. *)
Definition sameData (s s' : WeatherManager F) : Prop :=
  mStore s' = mStore s /\ mWeatherSettings s' = mWeatherSettings s /\ mRegions s' = mRegions s.

(** The store, the settings, the timers, the fast-forward flag and the
    current region are the same in [s] and [s']. *)
Definition sameConfiguration (s s' : WeatherManager F) : Prop :=
  mStore s' = mStore s /\
  mTimeSettings s' = mTimeSettings s /\
  mHoursBetweenWeatherChanges s' = mHoursBetweenWeatherChanges s /\
  mWeatherSettings s' = mWeatherSettings s /\
  mCurrentRegion s' = mCurrentRegion s /\
  mTimePassed s' = mTimePassed s /\
  mFastForward s' = mFastForward s /\
  mWeatherUpdateTime s' = mWeatherUpdateTime s.

(** [s'] differs from [s] at most in the four members of the transition:
    current, next, queued and the transition factor. *)
Definition sameSurroundings (s s' : WeatherManager F) : Prop :=
  sameConfiguration s s' /\ mRegions s' = mRegions s.

(** The four members of the transition are the same in [s] and [s']. *)
Definition sameTransition (s s' : WeatherManager F) : Prop :=
  mCurrentWeather s' = mCurrentWeather s /\
  mNextWeather s' = mNextWeather s /\
  mQueuedWeather s' = mQueuedWeather s /\
  mTransitionFactor s' = mTransitionFactor s.

(** The part of the state the invariant reads. *)
Definition transitionIds (s : WeatherManager F) : nat * Z * Z * Z :=
  (length (mWeatherSettings s), mCurrentWeather s, mNextWeather s, mQueuedWeather s).

End Vocabulary.

(** Concrete inputs. *)

(** Weather 3 and weather 5 of [freshManager]. *)
Definition sampleWeather (name : string) : Weather Binary32.float :=
  Weather_new name sampleFallback (fStromWindSpeed sampleStore)
    (getFallbackFloat sampleFallback "Weather_Precip_Gravity") "".

Definition indoors : World :=
  {| isCellExterior := false; isCellQuasiExterior := false;
     playerIsInCell := true; playerCellRegion := "" |}.

(** A saved record with a queued weather and no transition. *)
Definition strayQueued : WeatherState Binary32.float :=
  {| st_mCurrentRegion := "";
     st_mTimePassed := f0;
     st_mFastForward := false;
     st_mWeatherUpdateTime := f_of_Z 20;
     st_mTransitionFactor := f0;
     st_mCurrentWeather := 0;
     st_mNextWeather := invalidWeatherID;
     st_mQueuedWeather := 3;
     st_mRegions := ∅ |}.

(** A store whose only region has all chances zero. *)
Definition barrenStore : ESMStore Binary32.float :=
  {| storeRegions :=
       [{| mId := "Mournhold";
           mData := {| mClear := 0; mCloudy := 0; mFoggy := 0; mOvercast := 0; mRain := 0;
                       mThunder := 0; mAsh := 0; mBlight := 0; mA := 0; mB := 0 |} |}];
     fStromWindSpeed := f1 |}.

Definition outdoorsInMournhold : World :=
  {| isCellExterior := true; isCellQuasiExterior := false;
     playerIsInCell := true; playerCellRegion := "Mournhold" |}.

(** Saving, resetting and repeated ticks. *)

Section ManagerVocabulary.
Context {F : Type} `{FloatOps F}.

(** The first region of the store whose lower-case id is [key]. *)
Definition firstStoreRegion (store : ESMStore F) (key : string) : option Region :=
  snd <$> list_find (fun region => lowerCase (mId region) = key) (storeRegions store).

(** Draws that set off no thunder. *)
Definition quietRolls : UpdateRolls F :=
  {| rollDice100 := 0;
     rollsCurrent := {| rollProbability := f1; rollDice4 := 0 |};
     rollsNext := {| rollProbability := f1; rollDice4 := 0 |} |}.

(** Masser, with the values of the stock configuration. *)
Definition masser : MoonModel F :=
  {| mFadeInStart := f_of_Z 14; mFadeInFinish := f_of_Z 15; mFadeOutStart := f_of_Z 7;
     mFadeOutFinish := f_of_Z 10; mAxisOffset := f_of_Z 35; mSpeed := f0_5;
     mDailyIncrement := f1; mFadeStartAngle := f_of_Z 50; mFadeEndAngle := f_of_Z 40;
     mMoonShadowEarlyFadeAngle := f0_5 |}.
End ManagerVocabulary.

(** The value of an [int]. *)
Definition isInt (i : Z) : Prop := - 2 ^ 31 <= i < 2 ^ 31.

(** Whether the player stands in the region with the key [key]. *)
Definition playerIsIn (world : World) (key : string) : bool :=
  playerIsInCell world
  && negb (String.eqb (lowerCase (playerCellRegion world)) "")
  && String.eqb (lowerCase (playerCellRegion world)) key.

(** A region on weather 0 whose table gives weather 0 the only chance. *)
Definition clearRegion : RegionWeather :=
  {| mWeather := 0; mChances := [100; 0; 0; 0; 0; 0; 0; 0; 0; 0] |}.

(** A weather of the constructor with some brightness left from a strike. *)
Definition flashingWeather : Weather Q :=
  setFlashBrightness
    (Weather_new "Thunderstorm" sampleFallback (fStromWindSpeed sampleStore)
       (getFallbackFloat sampleFallback "Weather_Precip_Gravity") "")
    (3 # 4)%Q.

(** Draws that make lightning strike at distance 3. *)
Definition strikingRolls : @ThunderRolls Q :=
  {| rollProbability := 0%Q; rollDice4 := 3 |}.

(** [rest] does not begin with a decimal digit. *)
Definition noLeadingDigit (rest : string) : Prop :=
  match rest with
  | String c _ => CellCoordinates.digitOf c = None
  | EmptyString => True
  end.

(** * Properties *)

(** ** RegionWeather: weighted selection *)

Lemma prefixSum_nil n : prefixSum [] n = 0.
Proof. unfold prefixSum. now rewrite take_nil. Qed.

Lemma prefixSum_cons c l n : prefixSum (c :: l) (S n) = c + prefixSum l n.
Proof. reflexivity. Qed.

Lemma prefixSum_nonneg l n : Forall (fun c => 0 <= c) l -> 0 <= prefixSum l n.
Proof.
  intros Hl. revert n. induction Hl as [|c l Hc _ IH]; intros n.
  - rewrite prefixSum_nil. lia.
  - destruct n as [|n]; [unfold prefixSum; simpl; lia|].
    rewrite prefixSum_cons. specialize (IH n). lia.
Qed.

Lemma prefixSum_mono l n m :
  Forall (fun c => 0 <= c) l -> (n <= m)%nat -> prefixSum l n <= prefixSum l m.
Proof.
  intros Hl. revert n m. induction Hl as [|c l Hc Hl IH]; intros n m Hnm.
  - rewrite !prefixSum_nil. lia.
  - destruct n as [|n].
    + pose proof (prefixSum_nonneg (c :: l) m (Forall_cons_2 _ _ _ Hc Hl)).
      unfold prefixSum at 1. simpl. lia.
    + destruct m as [|m]; [lia|]. rewrite !prefixSum_cons.
      specialize (IH n m). lia.
Qed.

(** The loop stops at the first position whose running sum reaches [chance],
    and runs off the end of the table when there is none. *)
Lemma chooseLoop_spec chance rest : forall sum i,
  let r := chooseLoop chance sum i rest in
  i <= r <= i + Z.of_nat (length rest) /\
  (forall j : nat, i + Z.of_nat j < r -> sum + prefixSum rest (S j) < chance) /\
  (r < i + Z.of_nat (length rest) ->
   chance <= sum + prefixSum rest (S (Z.to_nat (r - i)))).
Proof.
  induction rest as [|c rest IH]; intros sum i; cbn [chooseLoop length].
  - cbv zeta. split; [lia|]. split; intros; lia.
  - cbv zeta. destruct (Z.leb_spec chance (sum + c)) as [Hle|Hgt].
    + split; [lia|]. split; [intros; lia|]. intros _.
      replace (i - i) with 0 by lia. change (Z.to_nat 0) with 0%nat.
      rewrite prefixSum_cons. unfold prefixSum. rewrite take_0. simpl. lia.
    + specialize (IH (sum + c) (i + 1)). cbv zeta in IH.
      destruct IH as (Hrange & Hbefore & Hat).
      set (r := chooseLoop chance (sum + c) (i + 1) rest) in *.
      split; [lia|]. split.
      * intros j Hj. rewrite prefixSum_cons. destruct j as [|j].
        -- unfold prefixSum. rewrite take_0. simpl. lia.
        -- specialize (Hbefore j). lia.
      * intros Hr. rewrite prefixSum_cons.
        replace (Z.to_nat (r - i)) with (S (Z.to_nat (r - (i + 1)))) by lia.
        specialize (Hat ltac:(lia)). lia.
Qed.

(** C5.  For a draw [chance = roll100 + 1] in [1,100] that some prefix sum
    of the chance table reaches, [chooseNewWeather] selects the first index
    [i] with [chances[0] + ... + chances[i] >= chance]. *)
Theorem chooseNewWeather_first_reaching (rw : RegionWeather) (roll100 : Z) :
  0 <= roll100 < 100 ->
  (exists k : nat, (k < length (mChances rw))%nat /\
                   roll100 + 1 <= prefixSum (mChances rw) (S k)) ->
  exists i : nat,
    mWeather (chooseNewWeather roll100 rw) = Z.of_nat i /\
    (i < length (mChances rw))%nat /\
    roll100 + 1 <= prefixSum (mChances rw) (S i) /\
    (forall j : nat, (j < i)%nat -> prefixSum (mChances rw) (S j) < roll100 + 1).
Proof.
  intros _ (k & Hk & Hreach).
  unfold chooseNewWeather, setWeather. cbn [mWeather].
  destruct (chooseLoop_spec (roll100 + 1) (mChances rw) 0 0) as (Hrange & Hbefore & Hat).
  set (r := chooseLoop (roll100 + 1) 0 0 (mChances rw)) in *.
  assert (Hlt : r < Z.of_nat (length (mChances rw))).
  { destruct (Z.lt_ge_cases r (Z.of_nat (length (mChances rw)))) as [|Hge]; [assumption|].
    specialize (Hbefore k ltac:(lia)). lia. }
  exists (Z.to_nat r). split; [lia|]. split; [lia|]. split.
  - specialize (Hat ltac:(lia)). replace (r - 0) with r in Hat by lia. lia.
  - intros j Hj. specialize (Hbefore j ltac:(lia)). lia.
Qed.

Lemma chooseNewWeather_first_reaching_witness :
  exists i : nat,
    mWeather (chooseNewWeather 49 {| mWeather := -1; mChances := [30; 0; 40; 30] |}) = Z.of_nat i /\
    (i < 4)%nat /\
    50 <= prefixSum [30; 0; 40; 30] (S i) /\
    (forall j : nat, (j < i)%nat -> prefixSum [30; 0; 40; 30] (S j) < 50).
Proof.
  apply (chooseNewWeather_first_reaching {| mWeather := -1; mChances := [30; 0; 40; 30] |} 49).
  - lia.
  - exists 2%nat. split; [simpl; lia | vm_compute; discriminate].
Defined.

(** C6, as stated, fails: with a table that sums to 10 and the draw 50 the
    loop runs to its end and the selected id is 10, the size of the table,
    not its last index 9. *)
Lemma chooseNewWeather_not_last_index :
  prefixSum (mChances sparseTable) (length (mChances sparseTable)) < 100 /\
  prefixSum (mChances sparseTable) (length (mChances sparseTable)) < 49 + 1 <= 100 /\
  mWeather (chooseNewWeather 49 sparseTable) = 10 /\
  mWeather (chooseNewWeather 49 sparseTable) <> Z.of_nat (length (mChances sparseTable)) - 1.
Proof. vm_compute. repeat split; congruence. Qed.

(** C6, amended.  When the entries are non-negative and sum to less than the
    draw, [chooseNewWeather] selects the id equal to the size of the table,
    one past its last index. *)
Theorem chooseNewWeather_past_the_end (rw : RegionWeather) (roll100 : Z) :
  0 <= roll100 < 100 ->
  Forall (fun c => 0 <= c) (mChances rw) ->
  prefixSum (mChances rw) (length (mChances rw)) < 100 ->
  prefixSum (mChances rw) (length (mChances rw)) < roll100 + 1 ->
  mWeather (chooseNewWeather roll100 rw) = Z.of_nat (length (mChances rw)).
Proof.
  intros _ Hpos _ Hsum.
  unfold chooseNewWeather, setWeather. cbn [mWeather].
  destruct (chooseLoop_spec (roll100 + 1) (mChances rw) 0 0) as (Hrange & _ & Hat).
  set (r := chooseLoop (roll100 + 1) 0 0 (mChances rw)) in *.
  destruct (Z.lt_ge_cases r (Z.of_nat (length (mChances rw)))) as [Hlt|Hge]; [|lia].
  specialize (Hat ltac:(lia)).
  pose proof (prefixSum_mono (mChances rw) (S (Z.to_nat (r - 0))) (length (mChances rw)) Hpos ltac:(lia)).
  lia.
Qed.

Lemma chooseNewWeather_past_the_end_witness :
  mWeather (chooseNewWeather 49 sparseTable) = Z.of_nat (length (mChances sparseTable)).
Proof.
  apply (chooseNewWeather_past_the_end sparseTable 49).
  - lia.
  - repeat constructor; simpl; lia.
  - vm_compute. reflexivity.
  - vm_compute. reflexivity.
Defined.

(** ** RegionWeather: the copy loop of [setChances] *)

Lemma to_size_t_small i : 0 <= i < 2 ^ 64 -> to_size_t i = i.
Proof. intros Hi. unfold to_size_t. now apply Z.mod_small. Qed.

Lemma vec_at_Ok {A : Type} (v : list A) (i : Z) (a : A) :
  0 <= i < 2 ^ 64 -> v !! Z.to_nat i = Some a -> vec_at v i = Ok a.
Proof.
  intros Hi Ha. unfold vec_at. cbv zeta. rewrite (to_size_t_small i Hi).
  apply lookup_lt_Some in Ha as Hlt.
  destruct (Z.ltb_spec i (Z.of_nat (length v))) as [_|Hge]; [|lia].
  now rewrite Ha.
Qed.

Lemma vec_at_in_range {A : Type} (v : list A) (i : Z) :
  to_size_t i < Z.of_nat (length v) -> exists a, vec_at v i = Ok a.
Proof.
  intros Hlt. unfold vec_at. cbv zeta.
  destruct (Z.ltb_spec (to_size_t i) (Z.of_nat (length v))) as [_|Hge]; [|lia].
  assert (Hpos : 0 <= to_size_t i) by (unfold to_size_t; apply Z.mod_pos_bound; lia).
  destruct (lookup_lt_is_Some_2 v (Z.to_nat (to_size_t i)) ltac:(lia)) as [a Ha].
  exists a. now rewrite Ha.
Qed.

Lemma writeChances_spec src : forall (i : nat) (dst : list Z),
  (i <= length dst)%nat ->
  ((i + length src <= length dst)%nat ->
     exists table, writeChances i src dst = Ok table /\
       length table = length dst /\
       (forall j, (j < length src)%nat -> table !! (i + j)%nat = src !! j) /\
       (forall j, (j < i)%nat -> table !! j = dst !! j)) /\
  ((length dst < i + length src)%nat -> writeChances i src dst = Fail OutOfBounds).
Proof.
  induction src as [|c src IH]; intros i dst Hi; cbn [writeChances length].
  - split; [|lia]. intros _. exists dst. repeat split; intros; try lia; reflexivity.
  - destruct (Nat.ltb_spec i (length dst)) as [Hlt|Hge].
    + specialize (IH (S i) (<[i := c]> dst)). rewrite length_insert in IH.
      destruct (IH ltac:(lia)) as [IHok IHfail]. split.
      * intros Hfit. destruct (IHok ltac:(lia)) as (table & Heq & Hlen & Hsrc & Hdst).
        exists table. split; [exact Heq|]. split; [exact Hlen|]. split.
        -- intros [|j] Hj.
           ++ rewrite Nat.add_0_r, (Hdst i ltac:(lia)). cbn.
              now apply list_lookup_insert_eq.
           ++ replace (i + S j)%nat with (S i + j)%nat by lia. cbn. apply Hsrc. lia.
        -- intros j Hj. rewrite (Hdst j ltac:(lia)). apply list_lookup_insert_ne. lia.
      * intros Hover. apply IHfail. lia.
    + split; [lia|]. reflexivity.
Qed.

(** C10.  [setChances] writes [chances[i]] into slot [i] of the stored table
    for every [i < chances.size()]; the writes stay inside the table exactly
    when [chances.size() <= mChances.size()], and a longer argument makes a
    write land past the end, which happens for some input. *)
Theorem setChances_writes_in_bounds_iff :
  (forall (chances : list Z) (roll100 : Z) (rw : RegionWeather),
     ((length chances <= length (mChances rw))%nat ->
        exists rw', setChances chances roll100 rw = Ok rw' /\
          length (mChances rw') = length (mChances rw) /\
          forall i, (i < length chances)%nat -> mChances rw' !! i = chances !! i) /\
     ((length (mChances rw) < length chances)%nat ->
        setChances chances roll100 rw = Fail OutOfBounds)) /\
  (exists (chances : list Z) (roll100 : Z) (rw : RegionWeather),
     setChances chances roll100 rw = Fail OutOfBounds).
Proof.
  split.
  - intros chances roll100 rw.
    destruct (writeChances_spec chances 0 (mChances rw) ltac:(lia)) as [Hok Hfail].
    split.
    + intros Hfit. destruct (Hok ltac:(lia)) as (table & Heq & Hlen & Hsrc & _).
      unfold setChances. rewrite Heq. cbn [res_bind mWeather mChances].
      rewrite Z.geb_leb.
      destruct (Z.leb_spec (Z.of_nat (length table)) (to_size_t (mWeather rw))) as [Hout|Hin].
      * eexists. split; [reflexivity|]. cbn. split; [exact Hlen|exact Hsrc].
      * destruct (vec_at_in_range table (mWeather rw) Hin) as [c Hc]. rewrite Hc.
        cbn [res_bind]. destruct (c =? 0); eexists; (split; [reflexivity|]); cbn;
          (split; [exact Hlen|exact Hsrc]).
    + intros Hover. unfold setChances. rewrite (Hfail ltac:(lia)). reflexivity.
  - exists [50; 50], 0, {| mWeather := 0; mChances := [100] |}. reflexivity.
Qed.

Lemma setChances_writes_in_bounds_iff_witness :
  (exists rw', setChances [50; 50] 0 {| mWeather := 0; mChances := [100; 0; 0] |} = Ok rw' /\
     length (mChances rw') = 3%nat /\
     forall i, (i < 2)%nat -> mChances rw' !! i = [50; 50] !! i) /\
  setChances [50; 50] 0 {| mWeather := 0; mChances := [100] |} = Fail OutOfBounds.
Proof.
  destruct setChances_writes_in_bounds_iff as [Hall _]. split.
  - destruct (Hall [50; 50] 0 {| mWeather := 0; mChances := [100; 0; 0] |}) as [Hfits _].
    apply Hfits. simpl. lia.
  - destruct (Hall [50; 50] 0 {| mWeather := 0; mChances := [100] |}) as [_ Hover].
    apply Hover. simpl. lia.
Defined.

(** ** TimeOfDayInterpolator: keyframes and blends *)


(** In binary32 a NaN hour fails every comparison of the chain, and the
    function falls through to its last line, [return T()]. *)
Lemma getValue_nan (i : TimeOfDayInterpolator Binary32.float)
    (ts : TimeOfDaySettings Binary32.float) :
  getValue i Binary32.nan ts = T_default.
Proof.
  unfold getValue.
  assert (Hle : forall x : Binary32.float, (x <=? Binary32.nan)%F = false)
    by (intros [ | | | ]; reflexivity).
  assert (Hge : forall x : Binary32.float, (Binary32.nan <=? x)%F = false)
    by (intros x; reflexivity).
  rewrite !Hle, !Hge. reflexivity.
Qed.

Lemma comparable_flip {F : Type} `{FloatOps F} (x y : F) :
  comparable x y = true -> (x <=? y)%F = false -> (y <=? x)%F = true.
Proof. unfold comparable. intros Hc Hxy. now rewrite Hxy in Hc. Qed.

Lemma binary32_compare_antisym (x y : Binary32.float) :
  SFcompare y x = option_map CompOpp (SFcompare x y).
Proof.
  destruct x as [sx|sx| |sx mx ex], y as [sy|sy| |sy my ey]; cbn;
    try reflexivity; try (destruct sx; reflexivity); try (destruct sy; reflexivity);
    try (destruct sx, sy; reflexivity).
  destruct sx, sy; try reflexivity; rewrite (Z.compare_antisym ex ey);
    destruct (ex ?= ey)%Z; cbn; try reflexivity;
      rewrite (Pos.compare_cont_antisym mx my Eq); cbn;
      destruct (Pos.compare_cont Eq mx my); reflexivity.
Qed.

(** In binary32 the order decides between any two values that are not NaN. *)
Lemma binary32_comparable (x y : Binary32.float) :
  x <> Binary32.nan -> y <> Binary32.nan -> comparable x y = true.
Proof.
  intros Hx Hy. unfold comparable. cbn. unfold Binary32.le, SFleb.
  rewrite (binary32_compare_antisym x y).
  assert (Hsome : exists c, SFcompare x y = Some c).
  { destruct x as [sx|sx| |sx mx ex]; try (now contradiction Hx);
      destruct y as [sy|sy| |sy my ey]; try (now contradiction Hy); cbn; eauto. }
  destruct Hsome as [c ->]. destruct c; reflexivity.
Qed.

Section InterpolatorClaims.
Context {F : Type} `{FloatOps F}.
Local Open Scope float_scope.


End InterpolatorClaims.


(** ** Weather: thunder while paused *)

Section ThunderClaims.
Context {F : Type} `{FloatOps F}.

Lemma calculateThunder_paused (w : Weather F) (transitionRatio elapsedSeconds : F)
    (rng : ThunderRolls) :
  calculateThunder w transitionRatio elapsedSeconds true rng = Ok (mFlashBrightness w, w, []).
Proof. reflexivity. Qed.

(** C8.  With [isPaused = true], any number of consecutive calls of
    [calculateThunder], whatever the transition ratios, elapsed times and
    draws, each return the flash brightness held before the first call,
    leave the [Weather] (flash brightness included) as it was and play no
    sound. *)
Theorem calculateThunder_paused_frozen (w : Weather F) (calls : list (F * F * ThunderRolls)) :
  calculateThunderCalls true calls w
  = Ok (replicate (length calls) (mFlashBrightness w), w, []).
Proof.
  induction calls as [|[[transitionRatio elapsedSeconds] rng] calls IH].
  - reflexivity.
  - cbn [calculateThunderCalls]. rewrite calculateThunder_paused.
    cbn [res_bind fst snd]. rewrite IH. reflexivity.
Qed.

End ThunderClaims.

(** ** WeatherManager: the transition state machine *)

Section TransitionClaims.
Context {F : Type} `{FloatOps F}.
Local Open Scope float_scope.

Lemma addWeatherTransition_asserted (s : WeatherManager F) (weatherID : Z) :
  validIndex s weatherID ->
  addWeatherTransition weatherID s =
    if negb (inTransition s) && negb (weatherID =? mCurrentWeather s)%Z then
      Ok (set_mTransitionFactor f1 (set_mNextWeather weatherID s))
    else if inTransition s && negb (weatherID =? mNextWeather s)%Z then
      Ok (set_mQueuedWeather weatherID s)
    else Ok s.
Proof.
  intros [Hlo Hhi]. unfold addWeatherTransition.
  destruct (Z.leb_spec 0 weatherID) as [_|]; [|lia].
  destruct (Z.ltb_spec weatherID (Z.of_nat (length (mWeatherSettings s)))) as [_|]; [|lia].
  reflexivity.
Qed.

Lemma inTransition_true (s : WeatherManager F) :
  mNextWeather s <> invalidWeatherID -> inTransition s = true.
Proof.
  intros Hn. unfold inTransition.
  destruct (Z.eqb_spec (mNextWeather s) invalidWeatherID); [contradiction|reflexivity].
Qed.

Lemma inTransition_false (s : WeatherManager F) :
  mNextWeather s = invalidWeatherID -> inTransition s = false.
Proof. intros Hn. unfold inTransition. rewrite Hn. reflexivity. Qed.

Lemma addWeatherTransition_begin (s : WeatherManager F) (weatherID : Z) :
  validIndex s weatherID ->
  mNextWeather s = invalidWeatherID -> weatherID <> mCurrentWeather s ->
  addWeatherTransition weatherID s
  = Ok (set_mTransitionFactor f1 (set_mNextWeather weatherID s)).
Proof.
  intros Hv Hn Hc. rewrite (addWeatherTransition_asserted s weatherID Hv).
  rewrite (inTransition_false s Hn).
  destruct (Z.eqb_spec weatherID (mCurrentWeather s)); [contradiction|reflexivity].
Qed.

Lemma addWeatherTransition_queue (s : WeatherManager F) (weatherID : Z) :
  validIndex s weatherID ->
  mNextWeather s <> invalidWeatherID -> weatherID <> mNextWeather s ->
  addWeatherTransition weatherID s = Ok (set_mQueuedWeather weatherID s).
Proof.
  intros Hv Hn Hc. rewrite (addWeatherTransition_asserted s weatherID Hv).
  rewrite (inTransition_true s Hn).
  destruct (Z.eqb_spec weatherID (mNextWeather s)); [contradiction|reflexivity].
Qed.

(** While a transition runs, calls either leave the state alone or replace
    the queued id. *)
Lemma addWeatherTransitions_queue_only (ids : list Z) : forall s : WeatherManager F,
  mNextWeather s <> invalidWeatherID ->
  Forall (validIndex s) ids ->
  exists s', addWeatherTransitions ids s = Ok s' /\
             (s' = s \/ exists q, s' = set_mQueuedWeather q s).
Proof.
  induction ids as [|weatherID ids IH]; intros s Hn Hall.
  - exists s. split; [reflexivity|now left].
  - apply Forall_cons in Hall as [Hv Hall]. cbn [addWeatherTransitions].
    rewrite (addWeatherTransition_asserted s weatherID Hv), (inTransition_true s Hn).
    cbn [negb andb].
    destruct (negb (weatherID =? mNextWeather s)%Z); cbn [res_bind].
    + destruct (IH (set_mQueuedWeather weatherID s) Hn Hall) as (s' & Hrun & Hs').
      exists s'. split; [exact Hrun|]. right.
      destruct Hs' as [->|[q ->]]; [now exists weatherID | now exists q].
    + exact (IH s Hn Hall).
Qed.

Lemma addWeatherTransitions_app (ids ids' : list Z) : forall s : WeatherManager F,
  addWeatherTransitions (ids ++ ids') s
  = do s' <- addWeatherTransitions ids s; addWeatherTransitions ids' s'.
Proof.
  induction ids as [|weatherID ids IH]; intros s; cbn; [reflexivity|].
  destruct (addWeatherTransition weatherID s); cbn; [apply IH|reflexivity].
Qed.

(** C1.  For a valid weather index [weatherID]: with no transition in
    progress and [weatherID <> current], the call returns with
    [next = weatherID] and [transitionFactor = 1.0] ([current] and [queued]
    as before); with a transition in progress and [weatherID <> next], it
    returns with [queued = weatherID] while [current], [next] and the
    factor are as before; and after any run of such calls during a
    transition the queued slot holds the id written last.  No other member
    changes. *)
Theorem addWeatherTransition_begins_or_queues (s : WeatherManager F) (weatherID : Z) :
  validIndex s weatherID ->
  (mNextWeather s = invalidWeatherID -> weatherID <> mCurrentWeather s ->
     exists s', addWeatherTransition weatherID s = Ok s' /\
       mNextWeather s' = weatherID /\ mTransitionFactor s' = f1 /\
       mCurrentWeather s' = mCurrentWeather s /\ mQueuedWeather s' = mQueuedWeather s /\
       sameSurroundings s s') /\
  (mNextWeather s <> invalidWeatherID -> weatherID <> mNextWeather s ->
     exists s', addWeatherTransition weatherID s = Ok s' /\
       mQueuedWeather s' = weatherID /\
       mCurrentWeather s' = mCurrentWeather s /\ mNextWeather s' = mNextWeather s /\
       mTransitionFactor s' = mTransitionFactor s /\
       sameSurroundings s s') /\
  (mNextWeather s <> invalidWeatherID -> weatherID <> mNextWeather s ->
     forall earlier : list Z, Forall (validIndex s) earlier ->
       exists s', addWeatherTransitions (earlier ++ [weatherID]) s = Ok s' /\
         mQueuedWeather s' = weatherID /\
         mCurrentWeather s' = mCurrentWeather s /\ mNextWeather s' = mNextWeather s /\
         mTransitionFactor s' = mTransitionFactor s /\
         sameSurroundings s s').
Proof.
  intros Hv. split; [|split].
  - intros Hn Hc. rewrite (addWeatherTransition_begin s weatherID Hv Hn Hc).
    eexists. split; [reflexivity|]. unfold sameSurroundings, sameConfiguration. cbn. tauto.
  - intros Hn Hc. rewrite (addWeatherTransition_queue s weatherID Hv Hn Hc).
    eexists. split; [reflexivity|]. unfold sameSurroundings, sameConfiguration. cbn. tauto.
  - intros Hn Hne earlier Hall. rewrite addWeatherTransitions_app.
    destruct (addWeatherTransitions_queue_only earlier s Hn Hall) as (s' & -> & Hs').
    cbn [res_bind addWeatherTransitions].
    destruct Hs' as [->|[q ->]].
    + rewrite (addWeatherTransition_queue s weatherID Hv Hn Hne).
      eexists. split; [reflexivity|]. unfold sameSurroundings, sameConfiguration. cbn. tauto.
    + rewrite (addWeatherTransition_queue (set_mQueuedWeather q s) weatherID Hv Hn Hne).
      eexists. split; [reflexivity|]. unfold sameSurroundings, sameConfiguration. cbn. tauto.
Qed.

End TransitionClaims.

Lemma addWeatherTransition_begins_or_queues_witness :
  (exists s', addWeatherTransition 3 (freshManager (F := Binary32.float)) = Ok s' /\
     mNextWeather s' = 3 /\ mTransitionFactor s' = f1 /\
     mCurrentWeather s' = 0 /\ mQueuedWeather s' = invalidWeatherID) /\
  (exists s', addWeatherTransition 7 (midTransition (F := Binary32.float)) = Ok s' /\
     mQueuedWeather s' = 7 /\ mCurrentWeather s' = 0 /\ mNextWeather s' = 3 /\
     mTransitionFactor s' = f0_5) /\
  (exists s', addWeatherTransitions ([5; 3; 9] ++ [7]) (midTransition (F := Binary32.float))
              = Ok s' /\
     mQueuedWeather s' = 7 /\ mCurrentWeather s' = 0 /\ mNextWeather s' = 3 /\
     mTransitionFactor s' = f0_5).
Proof.
  set (fresh := freshManager (F := Binary32.float)).
  set (mid := midTransition (F := Binary32.float)).
  assert (Hfresh : validIndex fresh 3) by (unfold validIndex; cbn; lia).
  assert (Hmid : forall id, (0 <= id < 10)%Z -> validIndex mid id)
    by (intros id Hid; unfold validIndex; cbn; lia).
  assert (Hstable : mNextWeather fresh = invalidWeatherID) by (vm_compute; reflexivity).
  assert (Hother : 3 <> mCurrentWeather fresh) by (vm_compute; discriminate).
  assert (Hrunning : mNextWeather mid <> invalidWeatherID) by (vm_compute; discriminate).
  assert (Hnew : 7 <> mNextWeather mid) by (vm_compute; discriminate).
  assert (Hearlier : Forall (validIndex mid) [5; 3; 9])
    by (repeat constructor; apply Hmid; lia).
  destruct (addWeatherTransition_begins_or_queues fresh 3 Hfresh) as (Hbegin & _ & _).
  destruct (addWeatherTransition_begins_or_queues mid 7 (Hmid 7 ltac:(lia)))
    as (_ & Hqueue & Hlast).
  destruct (Hbegin Hstable Hother) as (s1 & Hrun1 & Hn1 & Hf1 & Hc1 & Hq1 & _).
  destruct (Hqueue Hrunning Hnew) as (s2 & Hrun2 & Hq2 & Hc2 & Hn2 & Hf2 & _).
  destruct (Hlast Hrunning Hnew [5; 3; 9] Hearlier) as (s3 & Hrun3 & Hq3 & Hc3 & Hn3 & Hf3 & _).
  split; [|split].
  - exists s1. rewrite Hn1, Hf1, Hc1, Hq1. split; [exact Hrun1|]. vm_compute. auto.
  - exists s2. rewrite Hq2, Hc2, Hn2, Hf2. split; [exact Hrun2|]. vm_compute. auto.
  - exists s3. rewrite Hq3, Hc3, Hn3, Hf3. split; [exact Hrun3|]. vm_compute. auto.
Defined.

Section ProgressClaims.
Context {F : Type} `{FloatOps F}.
Local Open Scope float_scope.

Lemma vec_at_weather (s : WeatherManager F) (weatherID : Z) (w : Weather F) :
  validWeatherID weatherID ->
  mWeatherSettings s !! Z.to_nat weatherID = Some w ->
  vec_at (mWeatherSettings s) weatherID = Ok w.
Proof. intros Hv Hw. apply vec_at_Ok; [unfold validWeatherID in Hv; lia | exact Hw]. Qed.

(** C2.  While transitioning and not fast-forwarding,
    [updateWeatherTransitions] lowers the transition factor by
    [elapsedSeconds * transitionDelta] of the next weather.  If the result
    is not [<= 0] that is all.  Otherwise [current] becomes [next], the
    queued id moves into [next] and [queued] is cleared; the factor becomes
    [0] when nothing was queued, and [1 - (overshootSeconds * newDelta)]
    with [overshootSeconds = -(factor / delta)] when a weather was.  No
    other member changes. *)
Theorem updateWeatherTransitions_progress (s : WeatherManager F) (elapsedSeconds : F)
    (next : Weather F) :
  mFastForward s = false ->
  validWeatherID (mNextWeather s) ->
  mWeatherSettings s !! Z.to_nat (mNextWeather s) = Some next ->
  let delta := transitionDelta next in
  let factor := mTransitionFactor s - elapsedSeconds * delta in
  ((factor <=? f0) = false ->
     exists s', updateWeatherTransitions elapsedSeconds s = Ok s' /\
       mTransitionFactor s' = factor /\
       mCurrentWeather s' = mCurrentWeather s /\ mNextWeather s' = mNextWeather s /\
       mQueuedWeather s' = mQueuedWeather s /\
       sameSurroundings s s') /\
  ((factor <=? f0) = true -> mQueuedWeather s = invalidWeatherID ->
     exists s', updateWeatherTransitions elapsedSeconds s = Ok s' /\
       mCurrentWeather s' = mNextWeather s /\
       mNextWeather s' = invalidWeatherID /\ mQueuedWeather s' = invalidWeatherID /\
       mTransitionFactor s' = f0 /\
       sameSurroundings s s') /\
  ((factor <=? f0) = true ->
     forall queued : Weather F,
       validWeatherID (mQueuedWeather s) ->
       mWeatherSettings s !! Z.to_nat (mQueuedWeather s) = Some queued ->
       let newDelta := transitionDelta queued in
       let overshootSeconds := - (factor / delta) in
       exists s', updateWeatherTransitions elapsedSeconds s = Ok s' /\
         mCurrentWeather s' = mNextWeather s /\
         mNextWeather s' = mQueuedWeather s /\ mQueuedWeather s' = invalidWeatherID /\
         mTransitionFactor s' = f1 - (overshootSeconds * newDelta) /\
         sameSurroundings s s').
Proof.
  intros Hff Hnext Hlook delta factor.
  assert (Htrans : inTransition s = true).
  { apply inTransition_true. unfold validWeatherID, invalidWeatherID in *. lia. }
  assert (Hstep : updateWeatherTransitions elapsedSeconds s =
    let s1 := set_mTransitionFactor factor s in
    if factor <=? f0 then
      let s2 := set_mQueuedWeather invalidWeatherID
                  (set_mNextWeather (mQueuedWeather s1)
                    (set_mCurrentWeather (mNextWeather s1) s1)) in
      if inTransition s2 then
        do next' <- vec_at (mWeatherSettings s2) (mNextWeather s2);
        Ok (set_mTransitionFactor
              (f1 - ((- (mTransitionFactor s2 / delta)) * transitionDelta next')) s2)
      else Ok (set_mTransitionFactor f0 s2)
    else Ok s1).
  { unfold updateWeatherTransitions. rewrite Hff, Htrans. cbn [negb andb].
    rewrite (vec_at_weather s (mNextWeather s) next Hnext Hlook). reflexivity. }
  rewrite Hstep. cbv zeta. split; [|split].
  - intros ->. eexists. split; [reflexivity|]. unfold sameSurroundings, sameConfiguration. cbn. tauto.
  - intros -> Hq. cbn [set_mTransitionFactor mQueuedWeather mNextWeather].
    unfold inTransition. cbn [set_mQueuedWeather set_mNextWeather mNextWeather].
    rewrite Hq. cbn [Z.eqb invalidWeatherID negb].
    eexists. split; [reflexivity|]. unfold sameSurroundings, sameConfiguration. cbn. tauto.
  - intros -> queued Hqv Hqlook.
    unfold inTransition.
    cbn [set_mQueuedWeather set_mNextWeather set_mCurrentWeather set_mTransitionFactor
         mNextWeather mQueuedWeather mWeatherSettings mTransitionFactor].
    destruct (Z.eqb_spec (mQueuedWeather s) invalidWeatherID) as [Heq|_].
    { unfold validWeatherID, invalidWeatherID in *. lia. }
    cbn [negb].
    rewrite (vec_at_Ok (mWeatherSettings s) (mQueuedWeather s) queued);
      [|unfold validWeatherID in Hqv; lia | exact Hqlook].
    cbn [res_bind]. eexists. split; [reflexivity|]. unfold sameSurroundings, sameConfiguration. cbn. tauto.
Qed.

(** C3.  After [advanceTime(hours, incremental = false)] the next
    [updateWeatherTransitions], from any state, makes [current] the queued
    weather if there is one, else the next weather if there is one, and
    clears [next], [queued] and the fast-forward flag. *)
Theorem updateWeatherTransitions_fast_forward (s : WeatherManager F) (hours elapsedSeconds : F) :
  exists s',
    updateWeatherTransitions elapsedSeconds (advanceTime hours false s) = Ok s' /\
    mCurrentWeather s' =
      (if negb (mQueuedWeather s =? invalidWeatherID)%Z then mQueuedWeather s
       else if negb (mNextWeather s =? invalidWeatherID)%Z then mNextWeather s
       else mCurrentWeather s) /\
    mNextWeather s' = invalidWeatherID /\
    mQueuedWeather s' = invalidWeatherID /\
    mFastForward s' = false.
Proof.
  unfold updateWeatherTransitions, advanceTime.
  cbn [negb set_mFastForward set_mTimePassed mFastForward andb mQueuedWeather mNextWeather].
  eexists. split; [reflexivity|].
  destruct (negb (mQueuedWeather s =? invalidWeatherID)%Z);
    [|destruct (negb (mNextWeather s =? invalidWeatherID)%Z)]; repeat split.
Qed.

End ProgressClaims.

Lemma updateWeatherTransitions_progress_witness :
  (exists s', updateWeatherTransitions (f_of_Z 1) (midTransition (F := Binary32.float)) = Ok s' /\
     mTransitionFactor s' = (f_of_Z 3 / f_of_Z 8)%F /\
     mCurrentWeather s' = 0 /\ mNextWeather s' = 3 /\ mQueuedWeather s' = 5) /\
  (exists s', updateWeatherTransitions (f_of_Z 8)
                (set_mQueuedWeather invalidWeatherID (midTransition (F := Binary32.float)))
              = Ok s' /\
     mCurrentWeather s' = 3 /\ mNextWeather s' = invalidWeatherID /\
     mQueuedWeather s' = invalidWeatherID /\ mTransitionFactor s' = f0) /\
  (exists s', updateWeatherTransitions (f_of_Z 8) (midTransition (F := Binary32.float)) = Ok s' /\
     mCurrentWeather s' = 3 /\ mNextWeather s' = 5 /\
     mQueuedWeather s' = invalidWeatherID /\ mTransitionFactor s' = f0_5).
Proof.
  set (s := midTransition (F := Binary32.float)).
  set (t := set_mQueuedWeather invalidWeatherID s).
  assert (Hs_ff : mFastForward s = false) by (vm_compute; reflexivity).
  assert (Hs_next : validWeatherID (mNextWeather s))
    by (vm_compute; split; [intro; discriminate | reflexivity]).
  assert (Hs_look : mWeatherSettings s !! Z.to_nat (mNextWeather s)
                    = Some (sampleWeather "Overcast")) by (vm_compute; reflexivity).
  assert (Hs_queued : validWeatherID (mQueuedWeather s))
    by (vm_compute; split; [intro; discriminate | reflexivity]).
  assert (Hs_qlook : mWeatherSettings s !! Z.to_nat (mQueuedWeather s)
                     = Some (sampleWeather "Thunderstorm")) by (vm_compute; reflexivity).
  assert (Ht_ff : mFastForward t = false) by (vm_compute; reflexivity).
  assert (Ht_next : validWeatherID (mNextWeather t))
    by (vm_compute; split; [intro; discriminate | reflexivity]).
  assert (Ht_look : mWeatherSettings t !! Z.to_nat (mNextWeather t)
                    = Some (sampleWeather "Overcast")) by (vm_compute; reflexivity).
  assert (Ht_none : mQueuedWeather t = invalidWeatherID) by (vm_compute; reflexivity).
  split; [|split].
  - destruct (updateWeatherTransitions_progress s (f_of_Z 1) _ Hs_ff Hs_next Hs_look)
      as (Hrun & _ & _).
    assert (Habove : ((mTransitionFactor s
                       - f_of_Z 1 * transitionDelta (sampleWeather "Overcast") <=? f0)%F = false))
      by (vm_compute; reflexivity).
    destruct (Hrun Habove) as (s' & Hs' & Hf & Hc & Hn & Hq & _).
    exists s'. rewrite Hf, Hc, Hn, Hq. split; [exact Hs'|]. vm_compute. auto.
  - destruct (updateWeatherTransitions_progress t (f_of_Z 8) _ Ht_ff Ht_next Ht_look)
      as (_ & Hdone & _).
    assert (Hbelow : ((mTransitionFactor t
                       - f_of_Z 8 * transitionDelta (sampleWeather "Overcast") <=? f0)%F = true))
      by (vm_compute; reflexivity).
    destruct (Hdone Hbelow Ht_none) as (s' & Hs' & Hc & Hn & Hq & Hf & _).
    exists s'. rewrite Hc, Hn, Hq, Hf. split; [exact Hs'|]. vm_compute. auto.
  - destruct (updateWeatherTransitions_progress s (f_of_Z 8) _ Hs_ff Hs_next Hs_look)
      as (_ & _ & Hpromote).
    assert (Hbelow : ((mTransitionFactor s
                       - f_of_Z 8 * transitionDelta (sampleWeather "Overcast") <=? f0)%F = true))
      by (vm_compute; reflexivity).
    destruct (Hpromote Hbelow _ Hs_queued Hs_qlook) as (s' & Hs' & Hc & Hn & Hq & Hf & _).
    exists s'. rewrite Hc, Hn, Hq, Hf. split; [exact Hs'|]. vm_compute. auto.
Defined.

(** ** WeatherManager: [changeWeather] *)

Section ChangeWeatherClaims.
Context {F : Type} `{FloatOps F}.

(** C9.  [changeWeather] with a weather id at or past the number of
    configured weather types, or with a region id that is not a key of the
    region map (the map is keyed by lower-case ids and the id is looked up
    in lower case), returns normally and leaves the manager and every
    region as they were. *)
Theorem changeWeather_ignored (world : World) (roll100 : Z) (regionID : string)
    (weatherID : N) (s : WeatherManager F) :
  (Z.of_nat (length (mWeatherSettings s)) <= Z.of_N weatherID)%Z \/
  mRegions s !! lowerCase regionID = None ->
  changeWeather world roll100 regionID weatherID s = Ok s.
Proof.
  intros Hignored. unfold changeWeather.
  destruct (Z.ltb_spec (Z.of_N weatherID) (Z.of_nat (length (mWeatherSettings s))))
    as [Hlt|Hge]; [|reflexivity].
  destruct Hignored as [Hbig|Hnone]; [lia|]. cbv zeta. rewrite Hnone. reflexivity.
Qed.

End ChangeWeatherClaims.

Lemma changeWeather_ignored_witness :
  changeWeather indoors 0 "Ascadian Isles Region" 10 (freshManager (F := Binary32.float))
  = Ok freshManager /\
  changeWeather indoors 0 "Sheogorad" 4 (freshManager (F := Binary32.float))
  = Ok freshManager.
Proof.
  split.
  - apply (changeWeather_ignored indoors 0 "Ascadian Isles Region" 10 freshManager).
    left. vm_compute. discriminate.
  - apply (changeWeather_ignored indoors 0 "Sheogorad" 4 freshManager).
    right. vm_compute. reflexivity.
Defined.

(** ** WeatherManager: the invariant of the transition ids *)

Section InvariantClaims.
Context {F : Type} `{FloatOps F}.

Lemma transitionInvariant_ids (s s' : WeatherManager F) :
  transitionIds s' = transitionIds s -> transitionInvariant s -> transitionInvariant s'.
Proof.
  unfold transitionIds, transitionInvariant, validOrInvalid, inTransition.
  intros Heq. injection Heq as -> -> -> ->. tauto.
Qed.

Lemma transitionInvariant_intro (s : WeatherManager F) :
  length (mWeatherSettings s) = 10%nat ->
  (mQueuedWeather s <> invalidWeatherID -> mNextWeather s <> invalidWeatherID) ->
  validOrInvalid s (mCurrentWeather s) ->
  validOrInvalid s (mNextWeather s) ->
  validOrInvalid s (mQueuedWeather s) ->
  transitionInvariant s.
Proof.
  intros Hlen Hq Hc Hn Hqv. unfold transitionInvariant. repeat split; try assumption.
  - apply inTransition_false.
  - unfold inTransition. destruct (Z.eqb_spec (mNextWeather s) invalidWeatherID); [auto|discriminate].
Qed.

Lemma forceWeather_invariant (weatherID : Z) (s : WeatherManager F) :
  validWeatherID weatherID -> transitionInvariant s ->
  transitionInvariant (forceWeather weatherID s).
Proof.
  intros Hv (Hlen & _). apply transitionInvariant_intro; unfold validOrInvalid; cbn.
  - exact Hlen.
  - congruence.
  - right. rewrite Hlen. unfold validWeatherID in Hv. lia.
  - now left.
  - now left.
Qed.

Lemma addWeatherTransition_invariant (weatherID : Z) (s s' : WeatherManager F) :
  transitionInvariant s -> addWeatherTransition weatherID s = Ok s' ->
  transitionInvariant s'.
Proof.
  intros Hinv Hrun. pose proof Hinv as (Hlen & _ & Hq & Hc & Hn & Hqv).
  unfold addWeatherTransition in Hrun.
  destruct (Z.leb_spec 0 weatherID) as [Hlo|]; [|discriminate].
  destruct (Z.ltb_spec weatherID (Z.of_nat (length (mWeatherSettings s)))) as [Hhi|];
    [|discriminate].
  cbn [andb negb] in Hrun. unfold inTransition in Hrun.
  destruct (Z.eqb_spec (mNextWeather s) invalidWeatherID) as [Hnone|Hsome]; cbn [negb andb] in Hrun.
  - destruct (negb (weatherID =? mCurrentWeather s)%Z); injection Hrun as <-; [|exact Hinv].
    apply transitionInvariant_intro; unfold validOrInvalid, invalidWeatherID in *; cbn;
      first [assumption | lia | right; lia].
  - destruct (negb (weatherID =? mNextWeather s)%Z); injection Hrun as <-; [|exact Hinv].
    apply transitionInvariant_intro; unfold validOrInvalid in *; cbn;
      first [assumption | now auto | right; lia].
Qed.

Lemma updateWeatherTransitions_invariant (elapsedSeconds : F) (s s' : WeatherManager F) :
  transitionInvariant s -> updateWeatherTransitions elapsedSeconds s = Ok s' ->
  transitionInvariant s'.
Proof.
  intros Hinv Hrun. pose proof Hinv as (Hlen & _ & Hq & Hc & Hn & Hqv).
  unfold updateWeatherTransitions in Hrun.
  destruct (negb (mFastForward s) && inTransition s) eqn:Hbranch.
  - apply andb_prop in Hbranch as [_ Htrans].
    assert (Hnext : mNextWeather s <> invalidWeatherID).
    { intros Heq. rewrite (inTransition_false s Heq) in Htrans. discriminate. }
    destruct (vec_at (mWeatherSettings s) (mNextWeather s)) as [next|]; [|discriminate].
    cbn [res_bind] in Hrun. cbv zeta in Hrun.
    cbn [set_mTransitionFactor mTransitionFactor mQueuedWeather mNextWeather] in Hrun.
    match type of Hrun with (if ?c then _ else _) = _ => destruct c end.
    + unfold inTransition in Hrun.
      cbn [set_mQueuedWeather set_mNextWeather set_mCurrentWeather mNextWeather mWeatherSettings]
        in Hrun.
      destruct (Z.eqb_spec (mQueuedWeather s) invalidWeatherID) as [Hnone|Hsome];
        cbn [negb] in Hrun.
      * injection Hrun as <-.
        apply transitionInvariant_intro; unfold validOrInvalid in *; cbn;
          first [assumption | congruence | now left].
      * destruct (vec_at _ (mQueuedWeather s)) as [next'|]; [|discriminate].
        cbn [res_bind] in Hrun. injection Hrun as <-.
        apply transitionInvariant_intro; unfold validOrInvalid in *; cbn;
          first [assumption | congruence | now left | tauto].
    + injection Hrun as <-. revert Hinv. apply transitionInvariant_ids. reflexivity.
  - injection Hrun as <-.
    assert (Hcur : forall t : WeatherManager F,
              transitionIds t = transitionIds s \/
              (mQueuedWeather s <> invalidWeatherID /\
               transitionIds t = transitionIds (set_mCurrentWeather (mQueuedWeather s) s)) \/
              (mNextWeather s <> invalidWeatherID /\
               transitionIds t = transitionIds (set_mCurrentWeather (mNextWeather s) s)) ->
              transitionInvariant
                (set_mFastForward false
                  (set_mQueuedWeather invalidWeatherID (set_mNextWeather invalidWeatherID t)))).
    { intros t Ht. apply transitionInvariant_intro; unfold validOrInvalid.
      - cbn. destruct Ht as [Ht|[[_ Ht]|[_ Ht]]];
          apply (f_equal (fun p => fst (fst (fst p)))) in Ht; cbn in Ht; congruence.
      - cbn. congruence.
      - cbn. destruct Ht as [Ht|[[Hne Ht]|[Hne Ht]]].
        + injection Ht as -> -> _ _. exact Hc.
        + injection Ht as -> -> _ _. unfold validOrInvalid in Hqv. tauto.
        + injection Ht as -> -> _ _. unfold validOrInvalid in Hn. tauto.
      - cbn. now left.
      - cbn. now left. }
    apply Hcur.
    destruct (Z.eqb_spec (mQueuedWeather s) invalidWeatherID) as [|Hqs]; cbn [negb].
    + destruct (Z.eqb_spec (mNextWeather s) invalidWeatherID) as [|Hns]; cbn [negb].
      * now left.
      * right. right. split; [exact Hns|reflexivity].
    + right. left. split; [exact Hqs|reflexivity].
Qed.

Lemma calculateWeatherResult_ids (elapsedSeconds : F) (isPaused : bool) (rng : UpdateRolls F)
    (s s' : WeatherManager F) (played : list string) :
  calculateWeatherResult elapsedSeconds isPaused rng s = Ok (s', played) ->
  transitionIds s' = transitionIds s.
Proof.
  unfold calculateWeatherResult. intros Hrun.
  destruct (negb (inTransition s)).
  - destruct (vec_at _ _) as [w|]; [|discriminate]. cbn [res_bind] in Hrun.
    destruct (calculateThunder _ _ _ _ _) as [r|]; [|discriminate]. cbn [res_bind] in Hrun.
    injection Hrun as <- _. unfold transitionIds. cbn. now rewrite length_insert.
  - destruct (vec_at _ (mCurrentWeather s)) as [w|]; [|discriminate]. cbn [res_bind] in Hrun.
    destruct (vec_at _ (mNextWeather s)) as [w0|]; [|discriminate]. cbn [res_bind] in Hrun.
    destruct (calculateThunder _ _ _ _ _) as [r|]; [|discriminate]. cbn [res_bind] in Hrun.
    cbv zeta in Hrun.
    destruct (vec_at _ _) as [w'|]; [|discriminate]. cbn [res_bind] in Hrun.
    destruct (calculateThunder _ _ _ _ _) as [r'|]; [|discriminate]. cbn [res_bind] in Hrun.
    injection Hrun as <- _. unfold transitionIds. cbn. now rewrite !length_insert.
Qed.

Lemma updateWeatherTime_ids (s : WeatherManager F) :
  transitionIds (snd (updateWeatherTime s)) = transitionIds s.
Proof. unfold updateWeatherTime. cbv zeta. destruct (f_le _ _); reflexivity. Qed.

Lemma updateWeatherRegion_ids (playerRegion : string) (s : WeatherManager F) :
  transitionIds (snd (updateWeatherRegion playerRegion s)) = transitionIds s.
Proof. unfold updateWeatherRegion. destruct (_ && _); reflexivity. Qed.

Lemma update_invariant (world : World) (rng : UpdateRolls F) (duration : F) (paused : bool)
    (s s' : WeatherManager F) (played : list string) :
  transitionInvariant s -> update world rng duration paused s = Ok (s', played) ->
  transitionInvariant s'.
Proof.
  intros Hinv Hrun. unfold update in Hrun.
  match type of Hrun with
  | res_bind ?m _ = _ => assert (Hfirst : forall s1, m = Ok s1 -> transitionInvariant s1)
  end.
  { intros s1 Hs1. destruct (negb paused); [|injection Hs1 as <-; exact Hinv].
    cbv zeta in Hs1.
    pose proof (updateWeatherTime_ids s) as Htime.
    destruct (updateWeatherTime s) as [timeUp sa]. cbn [snd] in Htime.
    pose proof (updateWeatherRegion_ids (lowerCase (playerCellRegion world)) sa) as Hregion.
    assert (Hsb : forall (changed : bool) (sb : WeatherManager F),
              (if timeUp then (true, sa)
               else updateWeatherRegion (lowerCase (playerCellRegion world)) sa) = (changed, sb) ->
              transitionInvariant sb).
    { intros changed sb Heq. apply (transitionInvariant_ids s); [|exact Hinv].
      destruct timeUp.
      - injection Heq as _ <-. exact Htime.
      - rewrite Heq in Hregion. cbn [snd] in Hregion. congruence. }
    destruct (if timeUp then (true, sa)
              else updateWeatherRegion (lowerCase (playerCellRegion world)) sa)
      as [changed sb] eqn:Heq.
    specialize (Hsb changed sb eq_refl).
    match type of Hs1 with
    | res_bind ?m _ = _ => assert (Hsc : forall sc, m = Ok sc -> transitionInvariant sc)
    end.
    { intros sc Hsc. destruct changed; [|injection Hsc as <-; exact Hsb].
      destruct (mRegions sb !! mCurrentRegion sb) as [region|]; [|injection Hsc as <-; exact Hsb].
      destruct (getWeather (rollDice100 rng) region) as [id region'].
      eapply addWeatherTransition_invariant; [|exact Hsc].
      revert Hsb. apply transitionInvariant_ids. reflexivity. }
    match type of Hs1 with
    | res_bind ?m _ = _ => destruct m as [sc|]; [|discriminate]
    end.
    cbn [res_bind] in Hs1.
    eapply updateWeatherTransitions_invariant; [|exact Hs1]. now apply Hsc. }
  match type of Hrun with
  | res_bind ?m _ = _ => destruct m as [s1|]; [|discriminate]
  end.
  cbn [res_bind] in Hrun. cbv zeta in Hrun. specialize (Hfirst s1 eq_refl).
  destruct (negb (isCellExterior world || isCellQuasiExterior world)).
  - injection Hrun as <- _. exact Hfirst.
  - apply (transitionInvariant_ids s1); [|exact Hfirst].
    eapply calculateWeatherResult_ids. exact Hrun.
Qed.

Lemma changeWeather_invariant (world : World) (roll100 : Z) (regionID : string) (weatherID : N)
    (s s' : WeatherManager F) :
  transitionInvariant s -> changeWeather world roll100 regionID weatherID s = Ok s' ->
  transitionInvariant s'.
Proof.
  intros Hinv Hrun. unfold changeWeather in Hrun.
  destruct (_ <? _)%Z; [|injection Hrun as <-; exact Hinv]. cbv zeta in Hrun.
  destruct (mRegions s !! lowerCase regionID) as [region|]; [|injection Hrun as <-; exact Hinv].
  unfold regionalWeatherChanged in Hrun.
  assert (Hkeep : forall (r : RegionWeather) (t : WeatherManager F),
            transitionInvariant t ->
            transitionInvariant (set_mRegions (<[lowerCase regionID := r]> (mRegions t)) t)).
  { intros r t. apply transitionInvariant_ids. reflexivity. }
  destruct (playerIsInCell world);
    [|cbn [res_bind fst snd] in Hrun; injection Hrun as <-; now apply Hkeep].
  cbv zeta in Hrun.
  destruct (_ && _);
    [|cbn [res_bind fst snd] in Hrun; injection Hrun as <-; now apply Hkeep].
  destruct (getWeather roll100 _) as [id region'].
  destruct (addWeatherTransition id s) as [t|] eqn:Hadd; [|discriminate].
  cbn [res_bind fst snd] in Hrun. injection Hrun as <-. apply Hkeep.
  eapply addWeatherTransition_invariant; [exact Hinv|exact Hadd].
Qed.

Lemma readRecord_invariant (type : RecNameInts) (format : Z) (state : WeatherState F)
    (s : WeatherManager F) :
  recordIdsOk state -> transitionInvariant s ->
  transitionInvariant (snd (readRecord type format state s)).
Proof.
  intros (Hq & Hc & Hn & Hqv) Hinv. pose proof Hinv as (Hlen & _).
  unfold readRecord. destruct type as [|n]; [|exact Hinv].
  cbv zeta. destruct (format <? 2)%Z; [exact Hinv|].
  assert (Hloaded : forall t : WeatherManager F,
            transitionIds t = (length (mWeatherSettings s), st_mCurrentWeather state,
                               st_mNextWeather state, st_mQueuedWeather state) ->
            transitionInvariant t).
  { intros t Ht. injection Ht as Htl Htc Htn Htq.
    apply transitionInvariant_intro; unfold validOrInvalid, validWeatherID in *;
      rewrite ?Htl, ?Htc, ?Htn, ?Htq, ?Hlen; first [assumption | tauto]. }
  destruct (decide _); apply Hloaded; reflexivity.
Qed.

Lemma WeatherManager_new_invariant (fallback : Fallback F) (store : ESMStore F) :
  transitionInvariant (WeatherManager_new fallback store).
Proof.
  apply transitionInvariant_intro; unfold validOrInvalid; cbn.
  - reflexivity.
  - congruence.
  - right. lia.
  - now left.
  - now left.
Qed.

End InvariantClaims.

(** C4, as stated, fails: [readRecord] copies the ids of the record without
    looking at them, so a record with [queued = 3] and [next = -1] leaves the
    manager with a queued weather and no transition. *)
Lemma readRecord_breaks_invariant :
  let s := snd (readRecord REC_WTHR 2 strayQueued freshManager) in
  reachable anyMutator freshManager s /\
  mNextWeather s = invalidWeatherID /\
  mQueuedWeather s = 3 /\
  ~ transitionInvariant s.
Proof.
  cbv zeta. split; [|split; [|split]].
  - apply (reachable_step anyMutator freshManager freshManager _
             (ReadRecord REC_WTHR 2 strayQueued)).
    + apply reachable_init.
    + exact I.
    + reflexivity.
  - vm_compute. reflexivity.
  - vm_compute. reflexivity.
  - intros (_ & _ & Hq & _). apply Hq; vm_compute; congruence.
Qed.

(** A region whose chances are all zero reaches [forceWeather] with the id 10
    through [playerTeleported]: the loop of [chooseNewWeather] runs off the
    end of the table, and nothing checks the id on this path. *)
Lemma playerTeleported_past_the_end :
  mCurrentWeather
    (playerTeleported outdoorsInMournhold 0 (WeatherManager_new sampleFallback barrenStore))
  = 10.
Proof. vm_compute. reflexivity. Qed.

(** ** RegionWeather: what a selection guarantees *)

Lemma chooseLoop_nonneg (chance : Z) (chances : list Z) :
  0 <= chooseLoop chance 0 0 chances <= Z.of_nat (length chances).
Proof. destruct (chooseLoop_spec chance chances 0 0) as (Hrange & _). cbv zeta in Hrange. lia. Qed.

Lemma getWeather_selected (roll100 : Z) (rw : RegionWeather) :
  mWeather rw <> invalidWeatherID -> getWeather roll100 rw = (mWeather rw, rw).
Proof.
  intros Hsel. unfold getWeather.
  destruct (Z.eqb_spec (mWeather rw) invalidWeatherID); [contradiction|reflexivity].
Qed.

(** X1. [getWeather] selects lazily and only once: whatever it returns,
    a second read returns the same id and leaves the region as it is,
    without regard to the second draw. *)
Theorem getWeather_stable (roll100 roll100' : Z) (rw : RegionWeather) :
  getWeather roll100' (snd (getWeather roll100 rw)) = getWeather roll100 rw /\
  fst (getWeather roll100 rw) = mWeather (snd (getWeather roll100 rw)) /\
  mChances (snd (getWeather roll100 rw)) = mChances rw /\
  fst (getWeather roll100 rw) <> invalidWeatherID.
Proof.
  unfold getWeather at 2 3 4 5 6 7.
  destruct (Z.eqb_spec (mWeather rw) invalidWeatherID) as [Hnone|Hsome]; cbn [fst snd].
  - pose proof (chooseLoop_nonneg (roll100 + 1) (mChances rw)) as Hpos.
    assert (Hsel : mWeather (chooseNewWeather roll100 rw) <> invalidWeatherID).
    { unfold chooseNewWeather, setWeather, invalidWeatherID. cbn. lia. }
    rewrite (getWeather_selected _ _ Hsel). repeat split. exact Hsel.
  - rewrite (getWeather_selected _ _ Hsome). repeat split. exact Hsome.
Qed.

Lemma prefixSum_S (chances : list Z) (n : nat) (c : Z) :
  chances !! n = Some c -> prefixSum chances (S n) = prefixSum chances n + c.
Proof.
  revert n. induction chances as [|x chances IH]; intros n Hn; [discriminate|].
  destruct n as [|n].
  - cbn in Hn. injection Hn as ->. unfold prefixSum. cbn. rewrite take_0. cbn. lia.
  - cbn in Hn. rewrite !prefixSum_cons, (IH n Hn). lia.
Qed.

Lemma chooseLoop_positive (roll100 : Z) (chances : list Z) (c : Z) :
  0 <= roll100 ->
  chances !! Z.to_nat (chooseLoop (roll100 + 1) 0 0 chances) = Some c ->
  0 < c.
Proof.
  intros Hroll.
  destruct (chooseLoop_spec (roll100 + 1) chances 0 0) as (Hrange & Hbefore & Hat).
  set (r := chooseLoop (roll100 + 1) 0 0 chances) in *.
  intros Hc. apply lookup_lt_Some in Hc as Hlt.
  specialize (Hat ltac:(lia)). replace (r - 0) with r in Hat by lia.
  rewrite (prefixSum_S _ _ _ Hc) in Hat.
  destruct (Z.to_nat r) as [|j] eqn:Hj.
  - unfold prefixSum in Hat. rewrite take_0 in Hat. cbn in Hat. lia.
  - specialize (Hbefore j ltac:(lia)). lia.
Qed.

(** X2. A weather whose chance is zero (or less) is never selected: when
    [chooseNewWeather] selects an entry of the table, that entry is positive. *)
Theorem chooseNewWeather_positive_chance (roll100 : Z) (rw : RegionWeather) (c : Z) :
  0 <= roll100 ->
  mChances rw !! Z.to_nat (mWeather (chooseNewWeather roll100 rw)) = Some c ->
  0 < c.
Proof.
  intros Hroll. unfold chooseNewWeather, setWeather. cbn [mWeather].
  now apply chooseLoop_positive.
Qed.

Lemma chooseNewWeather_positive_chance_witness :
  mWeather (chooseNewWeather 5 sparseTable) = 0 /\ 0 < 10.
Proof.
  split; [reflexivity|].
  apply (chooseNewWeather_positive_chance 5 sparseTable 10); [lia | reflexivity].
Defined.

Lemma vec_at_lookup {A : Type} (v : list A) (i : Z) (a : A) :
  vec_at v i = Ok a -> v !! Z.to_nat (to_size_t i) = Some a.
Proof.
  unfold vec_at. cbv zeta. destruct (_ <? _); [|discriminate].
  destruct (v !! Z.to_nat (to_size_t i)); [|discriminate]. congruence.
Qed.

Lemma to_size_t_int (i : Z) : isInt i -> 0 <= i -> to_size_t i = i.
Proof. unfold isInt. intros Hi Hpos. apply to_size_t_small. lia. Qed.

(** X3. After a successful [setChances] the selected weather is supported
    by the table: if the stored id indexes the new table, its chance there is
    not zero. *)
Theorem setChances_supported (chances : list Z) (roll100 : Z) (rw rw' : RegionWeather) (c : Z) :
  0 <= roll100 -> isInt (mWeather rw) ->
  setChances chances roll100 rw = Ok rw' ->
  0 <= mWeather rw' ->
  mChances rw' !! Z.to_nat (mWeather rw') = Some c ->
  c <> 0.
Proof.
  intros Hroll Hint Hset Hpos Hc. unfold setChances in Hset.
  destruct (writeChances 0 chances (mChances rw)) as [table|]; [|discriminate].
  cbn [res_bind mWeather] in Hset.
  assert (Hchosen : forall t, t = chooseNewWeather roll100 {| mWeather := mWeather rw; mChances := table |} ->
            mChances t !! Z.to_nat (mWeather t) = Some c -> c <> 0).
  { intros t -> Ht. cbn [chooseNewWeather setWeather mChances mWeather] in Ht.
    pose proof (chooseLoop_positive roll100 table c Hroll Ht). lia. }
  destruct (_ >=? _).
  - injection Hset as <-. now apply (Hchosen _ eq_refl).
  - destruct (vec_at table (mWeather rw)) as [c'|] eqn:Hat; [|discriminate].
    cbn [res_bind] in Hset. destruct (Z.eqb_spec c' 0) as [|Hne].
    + injection Hset as <-. now apply (Hchosen _ eq_refl).
    + injection Hset as <-. cbn [mWeather mChances] in *.
      apply vec_at_lookup in Hat. rewrite (to_size_t_int _ Hint Hpos) in Hat. congruence.
Qed.

Lemma setChances_supported_witness :
  setChances [0; 40; 60] 50 clearRegion
  = Ok {| mWeather := 2; mChances := [0; 40; 60; 0; 0; 0; 0; 0; 0; 0] |} /\ 60 <> 0.
Proof.
  split; [reflexivity|].
  apply (setChances_supported [0; 40; 60] 50 clearRegion
           {| mWeather := 2; mChances := [0; 40; 60; 0; 0; 0; 0; 0; 0; 0] |} 60).
  - lia.
  - vm_compute. split; [discriminate | reflexivity].
  - reflexivity.
  - cbn. lia.
  - reflexivity.
Defined.

Lemma setChances_fault (chances : list Z) (roll100 : Z) (rw : RegionWeather) :
  ((length (mChances rw) < length chances)%nat -> setChances chances roll100 rw = Fail OutOfBounds) /\
  ((length chances <= length (mChances rw))%nat -> exists rw', setChances chances roll100 rw = Ok rw').
Proof.
  destruct (writeChances_spec chances 0 (mChances rw) ltac:(lia)) as [Hok Hfail]. split.
  - intros Hover. unfold setChances. now rewrite (Hfail ltac:(lia)).
  - intros Hfit. destruct (Hok ltac:(lia)) as (table & Heq & Hlen & _).
    unfold setChances. rewrite Heq. cbn [res_bind mWeather]. rewrite Z.geb_leb.
    destruct (Z.leb_spec (Z.of_nat (length table)) (to_size_t (mWeather rw))) as [|Hin];
      [eauto|].
    destruct (vec_at_in_range table (mWeather rw) Hin) as [c ->]. cbn [res_bind].
    destruct (c =? 0); eauto.
Qed.

(** ** WeatherManager: regions, updates, saving *)

Section ManagerExtras.
Context {F : Type} `{FloatOps F}.
Local Open Scope float_scope.

Lemma addWeatherTransition_fault (weatherID : Z) (s : WeatherManager F) (f : fault) :
  addWeatherTransition weatherID s = Fail f -> f = AssertionFailed.
Proof.
  unfold addWeatherTransition.
  destruct (negb _); [congruence|]. destruct (_ && _); [discriminate|].
  destruct (_ && _); discriminate.
Qed.

Lemma regionalWeatherChanged_fault (world : World) (roll100 : Z) (regionID : string)
    (region : RegionWeather) (s : WeatherManager F) (f : fault) :
  regionalWeatherChanged world roll100 regionID region s = Fail f -> f = AssertionFailed.
Proof.
  unfold regionalWeatherChanged. destruct (playerIsInCell world); [|discriminate].
  cbv zeta. destruct (_ && _); [|discriminate].
  destruct (getWeather roll100 region) as [id region'].
  destruct (addWeatherTransition id s) eqn:Hadd; [discriminate|].
  cbn. intros Heq. injection Heq as <-. exact (addWeatherTransition_fault _ _ _ Hadd).
Qed.

(** X4. [modRegion] ignores a region it does not know, and it runs past the
    end of a region's chance table exactly when the region is known and the
    new list is longer than that table. *)
Theorem modRegion_faults (world : World) (roll100 : Z) (regionID : string) (chances : list Z)
    (s : WeatherManager F) :
  (mRegions s !! lowerCase regionID = None ->
     modRegion world roll100 regionID chances s = Ok s) /\
  (modRegion world roll100 regionID chances s = Fail OutOfBounds <->
   exists region, mRegions s !! lowerCase regionID = Some region /\
                  (length (mChances region) < length chances)%nat).
Proof.
  unfold modRegion. cbv zeta. split.
  - intros ->. reflexivity.
  - destruct (mRegions s !! lowerCase regionID) as [region|]; split.
    + intros Hfail. exists region. split; [reflexivity|].
      destruct (setChances_fault chances roll100 region) as [_ Hok].
      destruct (Nat.lt_ge_cases (length (mChances region)) (length chances)) as [|Hfit];
        [assumption|].
      destruct (Hok Hfit) as [region1 Hset]. rewrite Hset in Hfail. cbn [res_bind] in Hfail.
      destruct (regionalWeatherChanged world roll100 (lowerCase regionID) region1 s) eqn:Hr;
        [discriminate|].
      cbn in Hfail. apply regionalWeatherChanged_fault in Hr. congruence.
    + intros (region' & Heq & Hover). injection Heq as <-.
      destruct (setChances_fault chances roll100 region) as [Hfail _].
      now rewrite (Hfail Hover).
    + discriminate.
    + intros (region' & Heq & _). discriminate.
Qed.

Lemma getWeather_setWeather (roll100 weatherID : Z) (region : RegionWeather) :
  (0 <= weatherID)%Z ->
  getWeather roll100 (setWeather weatherID region) = (weatherID, setWeather weatherID region).
Proof.
  intros Hpos. apply getWeather_selected. cbn. unfold invalidWeatherID. lia.
Qed.

Lemma regionalWeatherChanged_elsewhere (world : World) (roll100 : Z) (key : string)
    (region : RegionWeather) (s : WeatherManager F) :
  playerIsIn world key = false ->
  regionalWeatherChanged world roll100 key region s = Ok (region, s).
Proof.
  unfold playerIsIn, regionalWeatherChanged. cbv zeta.
  destruct (playerIsInCell world); [|reflexivity]. cbn [andb]. now intros ->.
Qed.

Lemma regionalWeatherChanged_here (world : World) (roll100 : Z) (key : string)
    (region : RegionWeather) (s : WeatherManager F) :
  playerIsIn world key = true ->
  regionalWeatherChanged world roll100 key region s =
    do s' <- addWeatherTransition (fst (getWeather roll100 region)) s;
    Ok (snd (getWeather roll100 region), s').
Proof.
  unfold playerIsIn, regionalWeatherChanged. cbv zeta.
  destruct (playerIsInCell world); [|discriminate]. cbn [andb]. intros ->.
  destruct (getWeather roll100 region); reflexivity.
Qed.

(** X5. [changeWeather] with a configured weather and a known region
    returns with that weather stored for the region (its chances and every
    other region as before, and the store, settings, timers, flag and
    current region untouched).  When the player is elsewhere the transition
    is as before.  When the player is in that region: a stable manager
    ends with [next = id] and factor 1 ([current] and [queued] as before)
    unless [id] is current already; a transitioning one ends with
    [queued = id] ([current], [next] and the factor as before) unless [id]
    is next already; in those two exceptions the transition is as before. *)
Theorem changeWeather_effect (world : World) (roll100 : Z) (regionID : string)
    (weatherID : N) (region : RegionWeather) (s : WeatherManager F) :
  (Z.of_N weatherID < Z.of_nat (length (mWeatherSettings s)))%Z ->
  mRegions s !! lowerCase regionID = Some region ->
  let id := Z.of_N weatherID in
  let key := lowerCase regionID in
  exists (s' : WeatherManager F) (stored : RegionWeather),
    changeWeather world roll100 regionID weatherID s = Ok s' /\
    mRegions s' !! key = Some stored /\
    mWeather stored = id /\ mChances stored = mChances region /\
    (forall other, other <> key -> mRegions s' !! other = mRegions s !! other) /\
    sameConfiguration s s' /\
    (playerIsIn world key = false -> sameTransition s s') /\
    (playerIsIn world key = true ->
       (mNextWeather s = invalidWeatherID -> id <> mCurrentWeather s ->
          mNextWeather s' = id /\ mTransitionFactor s' = f1 /\
          mCurrentWeather s' = mCurrentWeather s /\ mQueuedWeather s' = mQueuedWeather s) /\
       (mNextWeather s <> invalidWeatherID -> id <> mNextWeather s ->
          mQueuedWeather s' = id /\
          mCurrentWeather s' = mCurrentWeather s /\ mNextWeather s' = mNextWeather s /\
          mTransitionFactor s' = mTransitionFactor s) /\
       ((mNextWeather s = invalidWeatherID /\ id = mCurrentWeather s) \/
        (mNextWeather s <> invalidWeatherID /\ id = mNextWeather s) ->
          sameTransition s s')).
Proof.
  intros Hvalid Hregion. cbv zeta. unfold changeWeather.
  destruct (Z.ltb_spec (Z.of_N weatherID) (Z.of_nat (length (mWeatherSettings s)))); [|lia].
  cbv zeta. rewrite Hregion.
  assert (Hid : validIndex s (Z.of_N weatherID)) by (unfold validIndex; lia).
  assert (Hstored : forall t : WeatherManager F, mRegions t = mRegions s ->
            let s' := set_mRegions
                        (<[lowerCase regionID := setWeather (Z.of_N weatherID) region]> (mRegions t)) t in
            mRegions s' !! lowerCase regionID = Some (setWeather (Z.of_N weatherID) region) /\
            (forall other, other <> lowerCase regionID -> mRegions s' !! other = mRegions s !! other)).
  { intros t Ht. cbn. rewrite Ht. split; [apply lookup_insert_eq|].
    intros other Hother. now apply lookup_insert_ne. }
  destruct (playerIsIn world (lowerCase regionID)) eqn:Hplayer.
  - rewrite (regionalWeatherChanged_here _ _ _ _ _ Hplayer).
    rewrite (getWeather_setWeather roll100 _ region (N2Z.is_nonneg weatherID)). cbn [fst snd].
    rewrite (addWeatherTransition_asserted s _ Hid).
    destruct (Z.eqb_spec (mNextWeather s) invalidWeatherID) as [Hn|Hn].
    + rewrite (inTransition_false s Hn). cbn [negb andb].
      destruct (Z.eqb_spec (Z.of_N weatherID) (mCurrentWeather s)) as [Hc|Hc];
        cbn [negb res_bind fst snd];
        (eexists _, _; split; [reflexivity|]);
        (split; [apply Hstored; reflexivity|]);
        (split; [reflexivity|]); (split; [reflexivity|]);
        (split; [apply Hstored; reflexivity|]);
        unfold sameConfiguration, sameTransition; cbn; intuition congruence.
    + rewrite (inTransition_true s Hn). cbn [negb andb].
      destruct (Z.eqb_spec (Z.of_N weatherID) (mNextWeather s)) as [Hc|Hc];
        cbn [negb res_bind fst snd];
        (eexists _, _; split; [reflexivity|]);
        (split; [apply Hstored; reflexivity|]);
        (split; [reflexivity|]); (split; [reflexivity|]);
        (split; [apply Hstored; reflexivity|]);
        unfold sameConfiguration, sameTransition; cbn; intuition congruence.
  - rewrite (regionalWeatherChanged_elsewhere _ _ _ _ _ Hplayer). cbn [res_bind fst snd].
    eexists _, _; split; [reflexivity|].
    split; [apply Hstored; reflexivity|].
    split; [reflexivity|]. split; [reflexivity|].
    split; [apply Hstored; reflexivity|].
    unfold sameConfiguration, sameTransition; cbn; intuition congruence.
Qed.
Lemma set_mWeatherSettings_same (s : WeatherManager F) :
  set_mWeatherSettings (mWeatherSettings s) s = s.
Proof. destruct s; reflexivity. Qed.

Lemma insert_read_back (settings : list (Weather F)) (weatherID : Z) (w : Weather F) :
  (0 <= weatherID < 2 ^ 64)%Z -> vec_at settings weatherID = Ok w ->
  <[Z.to_nat weatherID := w]> settings = settings.
Proof.
  intros Hrange Hat. apply vec_at_lookup in Hat.
  rewrite (to_size_t_small _ Hrange) in Hat. now apply list_insert_id.
Qed.

Lemma vec_at_valid (s : WeatherManager F) (weatherID : Z) (w : Weather F) :
  tenWeathers s -> validOrInvalid s weatherID ->
  vec_at (mWeatherSettings s) weatherID = Ok w -> (0 <= weatherID < 2 ^ 64)%Z.
Proof.
  unfold tenWeathers, validOrInvalid. intros Hten [->|Hvalid] Hat.
  - unfold vec_at in Hat. rewrite Hten in Hat. discriminate.
  - rewrite Hten in Hvalid. lia.
Qed.

Lemma calculateWeatherResult_paused (elapsedSeconds : F) (rng : UpdateRolls F)
    (s s' : WeatherManager F) (played : list string) :
  transitionInvariant s ->
  calculateWeatherResult elapsedSeconds true rng s = Ok (s', played) ->
  s' = s /\ played = [].
Proof.
  intros (Hten & _ & _ & Hc & Hn & _). unfold calculateWeatherResult.
  destruct (negb (inTransition s)).
  - destruct (vec_at _ _) as [w|] eqn:Hw; [|discriminate]. cbn [res_bind].
    rewrite calculateThunder_paused. cbn [res_bind fst snd].
    rewrite (insert_read_back _ _ _ (vec_at_valid s _ _ Hten Hc Hw) Hw).
    rewrite set_mWeatherSettings_same. intros Heq. now injection Heq as <- <-.
  - destruct (vec_at _ (mCurrentWeather s)) as [w|] eqn:Hw; [|discriminate]. cbn [res_bind].
    destruct (vec_at _ (mNextWeather s)) as [w0|] eqn:Hw0; [|discriminate]. cbn [res_bind].
    rewrite calculateThunder_paused. cbn [res_bind fst snd]. cbv zeta.
    rewrite (insert_read_back _ _ _ (vec_at_valid s _ _ Hten Hc Hw) Hw).
    rewrite set_mWeatherSettings_same, Hw0. cbn [res_bind].
    rewrite calculateThunder_paused. cbn [res_bind fst snd].
    rewrite (insert_read_back _ _ _ (vec_at_valid s _ _ Hten Hn Hw0) Hw0).
    rewrite set_mWeatherSettings_same. intros Heq. now injection Heq as <- <-.
Qed.

(** X6. A paused [update] that returns leaves every member of the manager
    that the transition machine reads or writes as it was: the store, the
    settings of every weather (flash brightness included), the timers, the
    fast-forward flag, the current region, the region map, and [current],
    [next], [queued] and the transition factor; and it plays no thunder
    sound.  This holds indoors and outdoors, in any state satisfying the
    invariant of the transition ids.  (The rendering result, the wind and
    storm outputs and the ambient sound, which [update] refreshes also when
    paused, are not part of the statement.) *)
Theorem update_paused_frozen (world : World) (rng : UpdateRolls F) (duration : F)
    (s s' : WeatherManager F) (played : list string) :
  transitionInvariant s ->
  update world rng duration true s = Ok (s', played) ->
  sameSurroundings s s' /\ sameTransition s s' /\ played = [].
Proof.
  intros Hinv. unfold update. cbn [negb res_bind]. cbv zeta.
  assert (Hsame : sameSurroundings s s /\ sameTransition s s)
    by (unfold sameSurroundings, sameConfiguration, sameTransition; tauto).
  destruct (negb _).
  - intros Heq. injection Heq as <- <-. tauto.
  - intros Hrun. destruct (calculateWeatherResult_paused _ _ _ _ _ Hinv Hrun) as [-> ->].
    tauto.
Qed.

(** X7. [playerTeleported] does nothing indoors, for an unknown region or
    for the region already current; otherwise it makes the player's region
    current and forces that region's weather, dropping any transition.  In
    every case a second call in the same place changes nothing more. *)
Theorem playerTeleported_effect (world : World) (roll100 roll100' : Z) (s : WeatherManager F) :
  let s1 := playerTeleported world roll100 s in
  let key := lowerCase (playerCellRegion world) in
  let outdoors := isCellExterior world || isCellQuasiExterior world in
  playerTeleported world roll100' s1 = s1 /\
  (outdoors = false \/ mRegions s !! key = None \/ key = mCurrentRegion s -> s1 = s) /\
  (forall region, outdoors = true -> mRegions s !! key = Some region -> key <> mCurrentRegion s ->
     mCurrentRegion s1 = key /\
     mCurrentWeather s1 = fst (getWeather roll100 region) /\
     mNextWeather s1 = invalidWeatherID /\
     mQueuedWeather s1 = invalidWeatherID /\
     mTransitionFactor s1 = f0 /\
     mRegions s1 = <[key := snd (getWeather roll100 region)]> (mRegions s)).
Proof.
  cbv zeta. unfold playerTeleported.
  destruct (isCellExterior world || isCellQuasiExterior world) eqn:Hout.
  - cbv zeta. destruct (mRegions s !! lowerCase (playerCellRegion world)) as [region|] eqn:Hregion.
    + destruct (String.eqb_spec (lowerCase (playerCellRegion world)) (mCurrentRegion s)) as [Hsame|Hnew];
        cbn [negb].
      * split; [|split].
        -- rewrite Hregion. destruct (String.eqb_spec (lowerCase (playerCellRegion world)) (mCurrentRegion s));
             [reflexivity|contradiction].
        -- reflexivity.
        -- intros region' _ _ Hne. contradiction.
      * destruct (getWeather roll100 region) as [id region'] eqn:Hget. split; [|split].
        -- cbn [forceWeather set_mQueuedWeather set_mNextWeather set_mCurrentWeather
                 set_mTransitionFactor set_mRegions set_mCurrentRegion mRegions mCurrentRegion].
           rewrite lookup_insert_eq, String.eqb_refl. reflexivity.
        -- intros [Hfalse|[Hnone|Hsame]]; [discriminate|discriminate|contradiction].
        -- intros region0 _ Heq _. injection Heq as <-. rewrite Hget. cbn. repeat split.
    + split; [|split].
      * now rewrite Hregion.
      * reflexivity.
      * intros region _ Hsome. discriminate.
  - split; [|split].
    + reflexivity.
    + reflexivity.
    + intros region Htrue. discriminate.
Qed.

Lemma RegionWeather_state_round_trip (regions : gmap string RegionWeather) :
  RegionWeather_of_state <$> (RegionWeather_to_state <$> regions) = regions.
Proof.
  rewrite <- map_fmap_compose. rewrite <- (map_fmap_id regions) at 2.
  apply map_fmap_ext. intros k [w c] _. reflexivity.
Qed.

Lemma foldl_insert_new_lookup (regions : list Region) : forall (m : gmap string RegionWeather) (key : string),
  foldl (fun m region => map_insert_new (lowerCase (mId region)) (RegionWeather_of_region region) m)
        m regions !! key
  = match m !! key with
    | Some region => Some region
    | None =>
        RegionWeather_of_region <$>
          (snd <$> list_find (fun region => lowerCase (mId region) = key) regions)
    end.
Proof.
  induction regions as [|region regions IH]; intros m key; cbn [foldl].
  - cbn. now destruct (m !! key).
  - rewrite IH. unfold map_insert_new. cbn [list_find].
    destruct (decide (lowerCase (mId region) = key)) as [Heq|Hne].
    + subst key. destruct (m !! lowerCase (mId region)) eqn:Hm.
      * now rewrite Hm.
      * rewrite lookup_insert_eq. reflexivity.
    + destruct (m !! lowerCase (mId region)) eqn:Hm.
      * destruct (m !! key); [reflexivity|].
        destruct (list_find _ regions) as [[? ?]|]; reflexivity.
      * rewrite lookup_insert_ne by exact Hne.
        destruct (m !! key); [reflexivity|].
        destruct (list_find _ regions) as [[? ?]|]; reflexivity.
Qed.

(** The manager [t] after the eight saved scalars of [s] were copied in and
    the region map was replaced by [regions]. *)
Lemma readRecord_write_result (format : Z) (s t : WeatherManager F) :
  (2 <= format)%Z ->
  readRecord REC_WTHR format (write s) t =
    let loaded (regions : gmap string RegionWeather) : WeatherManager F :=
      {| mStore := mStore t; mTimeSettings := mTimeSettings t;
         mHoursBetweenWeatherChanges := mHoursBetweenWeatherChanges t;
         mWeatherSettings := mWeatherSettings t;
         mCurrentRegion := mCurrentRegion s; mTimePassed := mTimePassed s;
         mFastForward := mFastForward s; mWeatherUpdateTime := mWeatherUpdateTime s;
         mTransitionFactor := mTransitionFactor s; mCurrentWeather := mCurrentWeather s;
         mNextWeather := mNextWeather s; mQueuedWeather := mQueuedWeather s;
         mRegions := regions |} in
    if decide (size (mRegions s) = 0%nat) then (true, importRegions (loaded ∅))
    else (true, loaded (mRegions s)).
Proof.
  intros Hformat. unfold readRecord. cbv zeta.
  destruct (Z.ltb_spec format 2); [lia|].
  cbn [write st_mRegions st_mQueuedWeather st_mNextWeather st_mCurrentWeather
       st_mTransitionFactor st_mWeatherUpdateTime st_mFastForward st_mTimePassed
       st_mCurrentRegion].
  rewrite map_size_fmap, RegionWeather_state_round_trip.
  destruct (decide (size (mRegions s) = 0%nat)); reflexivity.
Qed.

(** X8. Save and load: [readRecord] (format 2 or later) of the record made
    by [write] always reports the record as read and restores the eight
    saved scalars of the saved manager (current region, time passed,
    fast-forward flag, weather update time, transition factor, current,
    next and queued weather); it restores the saved region map when that is
    not empty, and otherwise imports the regions of its own store.  The
    store, the time settings, the hours between weather changes and the
    weather settings (with their flash brightness, which is not saved) stay
    those of the loading manager. *)
Theorem readRecord_write (format : Z) (s t : WeatherManager F) :
  (2 <= format)%Z ->
  let r := snd (readRecord REC_WTHR format (write s) t) in
  fst (readRecord REC_WTHR format (write s) t) = true /\
  mCurrentRegion r = mCurrentRegion s /\ mTimePassed r = mTimePassed s /\
  mFastForward r = mFastForward s /\ mWeatherUpdateTime r = mWeatherUpdateTime s /\
  mTransitionFactor r = mTransitionFactor s /\ mCurrentWeather r = mCurrentWeather s /\
  mNextWeather r = mNextWeather s /\ mQueuedWeather r = mQueuedWeather s /\
  (mRegions s <> ∅ -> mRegions r = mRegions s) /\
  (mRegions s = ∅ ->
     forall key, mRegions r !! key = RegionWeather_of_region <$> firstStoreRegion (mStore t) key) /\
  mStore r = mStore t /\ mTimeSettings r = mTimeSettings t /\
  mHoursBetweenWeatherChanges r = mHoursBetweenWeatherChanges t /\
  mWeatherSettings r = mWeatherSettings t.
Proof.
  intros Hformat. cbv zeta. rewrite (readRecord_write_result format s t Hformat). cbv zeta.
  destruct (decide (size (mRegions s) = 0%nat)) as [Hempty|Hfull]; cbn [fst snd].
  - apply map_size_empty_iff in Hempty.
    repeat (split; [reflexivity|]). split; [intros Hne; contradiction|].
    split; [|repeat split].
    intros _ key. unfold importRegions, firstStoreRegion. cbn [set_mRegions mRegions mStore].
    rewrite foldl_insert_new_lookup. cbn. now rewrite lookup_empty.
  - repeat (split; [reflexivity|]). split; [|repeat split].
    intros Hempty. exfalso. apply Hfull. rewrite Hempty. apply map_size_empty.
Qed.

(** X9. What [importRegions] leaves under a key: the entry that was there,
    and otherwise the first region of the store whose lower-case id is the
    key, unselected and with its ten chances; keys that are no lower-case
    id of a store region stay absent. *)
Theorem importRegions_lookup (s : WeatherManager F) (key : string) :
  mRegions (importRegions s) !! key
  = match mRegions s !! key with
    | Some region => Some region
    | None => RegionWeather_of_region <$> firstStoreRegion (mStore s) key
    end.
Proof.
  unfold importRegions, firstStoreRegion. cbn [set_mRegions mRegions].
  apply foldl_insert_new_lookup.
Qed.

Lemma addWeatherTransition_flag (weatherID : Z) (s s' : WeatherManager F) :
  addWeatherTransition weatherID s = Ok s' -> mFastForward s' = mFastForward s.
Proof.
  unfold addWeatherTransition. destruct (negb _); [discriminate|].
  destruct (_ && _); [intros Heq; now injection Heq as <-|].
  destruct (_ && _); intros Heq; now injection Heq as <-.
Qed.

Lemma updateWeatherTransitions_snap (elapsedSeconds : F) (s s' : WeatherManager F) :
  mFastForward s = true -> updateWeatherTransitions elapsedSeconds s = Ok s' ->
  mNextWeather s' = invalidWeatherID /\ mQueuedWeather s' = invalidWeatherID /\
  mFastForward s' = false.
Proof.
  intros Hff. unfold updateWeatherTransitions. rewrite Hff. cbn [negb andb].
  intros Heq. injection Heq as <-. repeat split.
Qed.

Lemma calculateWeatherResult_flag (elapsedSeconds : F) (isPaused : bool) (rng : UpdateRolls F)
    (s s' : WeatherManager F) (played : list string) :
  calculateWeatherResult elapsedSeconds isPaused rng s = Ok (s', played) ->
  mFastForward s' = mFastForward s.
Proof.
  unfold calculateWeatherResult. intros Hrun.
  destruct (negb (inTransition s)).
  - destruct (vec_at _ _) as [w|]; [|discriminate]. cbn [res_bind] in Hrun.
    destruct (calculateThunder _ _ _ _ _) as [r|]; [|discriminate]. cbn [res_bind] in Hrun.
    now injection Hrun as <- _.
  - destruct (vec_at _ (mCurrentWeather s)) as [w|]; [|discriminate]. cbn [res_bind] in Hrun.
    destruct (vec_at _ (mNextWeather s)) as [w0|]; [|discriminate]. cbn [res_bind] in Hrun.
    destruct (calculateThunder _ _ _ _ _) as [r|]; [|discriminate]. cbn [res_bind] in Hrun.
    cbv zeta in Hrun.
    destruct (vec_at _ _) as [w'|]; [|discriminate]. cbn [res_bind] in Hrun.
    destruct (calculateThunder _ _ _ _ _) as [r'|]; [|discriminate]. cbn [res_bind] in Hrun.
    now injection Hrun as <- _.
Qed.

(** X10. After time was advanced in bulk (fast-forward flag set), one
    unpaused [update] that returns leaves no transition behind: [next] and
    [queued] are cleared and the flag is reset, whatever the timers, the
    player's region and the draws did in that tick. *)
Theorem update_fast_forward (world : World) (rng : UpdateRolls F) (duration : F)
    (s s' : WeatherManager F) (played : list string) :
  mFastForward s = true ->
  update world rng duration false s = Ok (s', played) ->
  mNextWeather s' = invalidWeatherID /\ mQueuedWeather s' = invalidWeatherID /\
  mFastForward s' = false.
Proof.
  intros Hff Hrun. unfold update in Hrun. cbn [negb] in Hrun. cbv zeta in Hrun.
  assert (Htime : mFastForward (snd (updateWeatherTime s)) = true).
  { unfold updateWeatherTime. cbv zeta. destruct (f_le _ _); exact Hff. }
  destruct (updateWeatherTime s) as [timeUp sa]. cbn [snd] in Htime.
  assert (Hregion : mFastForward
            (snd (if timeUp then (true, sa)
                  else updateWeatherRegion (lowerCase (playerCellRegion world)) sa)) = true).
  { destruct timeUp; [exact Htime|]. unfold updateWeatherRegion.
    destruct (_ && _); exact Htime. }
  destruct (if timeUp then (true, sa)
            else updateWeatherRegion (lowerCase (playerCellRegion world)) sa) as [changed sb].
  cbn [snd] in Hregion.
  match type of Hrun with
  | res_bind (res_bind ?m _) _ = _ =>
      assert (Hsc : forall sc, m = Ok sc -> mFastForward sc = true);
      [|destruct m as [sc|]; [|discriminate]]
  end.
  { intros sc Hsc. destruct changed; [|injection Hsc as <-; exact Hregion].
    destruct (mRegions sb !! mCurrentRegion sb) as [region|]; [|injection Hsc as <-; exact Hregion].
    destruct (getWeather (rollDice100 rng) region) as [id region'].
    apply addWeatherTransition_flag in Hsc. cbn in Hsc. congruence. }
  cbn [res_bind] in Hrun. specialize (Hsc sc eq_refl).
  destruct (updateWeatherTransitions duration sc) as [s1|] eqn:Hs1; [|discriminate].
  cbn [res_bind] in Hrun.
  destruct (updateWeatherTransitions_snap duration sc s1 Hsc Hs1) as (Hn & Hq & Hf).
  destruct (negb _).
  - injection Hrun as <- _. auto.
  - pose proof (calculateWeatherResult_ids _ _ _ _ _ _ Hrun) as Hids.
    pose proof (calculateWeatherResult_flag _ _ _ _ _ _ Hrun) as Hflag.
    unfold transitionIds in Hids. injection Hids as _ _ Hn' Hq'. repeat split; congruence.
Qed.

(** X11. A weather type that uses precipitation always has an ambient loop
    sound: when the configuration names none, it is "rain". *)
Theorem Weather_new_rain_sound (name : string) (fallback : Fallback F)
    (stormWindSpeed rainSpeed : F) (particleEffect : string) :
  let w := Weather_new name fallback stormWindSpeed rainSpeed particleEffect in
  (mRainEffect w <> "" -> mAmbientLoopSoundID w <> "") /\
  (getFallbackBool fallback ("Weather_" +:+ name +:+ "_Using_Precip") = true ->
   getFallbackString fallback ("Weather_" +:+ name +:+ "_Rain_Loop_Sound_ID") = "" ->
   mAmbientLoopSoundID w = "rain").
Proof.
  cbv zeta. unfold Weather_new. cbn [mRainEffect mAmbientLoopSoundID]. cbv zeta.
  destruct (getFallbackBool fallback _).
  - cbn [negb String.eqb Ascii.eqb]. split.
    + intros _. destruct (String.eqb_spec (getFallbackString fallback
                 ("Weather_" +:+ name +:+ "_Rain_Loop_Sound_ID")) ""); [discriminate|assumption].
    + intros _ ->. reflexivity.
  - split; [intros Hne; now contradiction Hne | discriminate].
Qed.

End ManagerExtras.

Lemma changeWeather_effect_witness :
  let s := WeatherManager_new sampleFallback barrenStore in
  exists (s' : WeatherManager Binary32.float) (stored : RegionWeather),
    changeWeather outdoorsInMournhold 0 "Mournhold" 4 s = Ok s' /\
    mRegions s' !! "mournhold" = Some stored /\ mWeather stored = 4 /\
    mNextWeather s' = 4 /\ mTransitionFactor s' = f1 /\
    mCurrentWeather s' = 0 /\ mQueuedWeather s' = invalidWeatherID.
Proof.
  cbv zeta.
  set (s := WeatherManager_new sampleFallback barrenStore).
  set (region := {| mWeather := invalidWeatherID; mChances := [0; 0; 0; 0; 0; 0; 0; 0; 0; 0] |}).
  assert (Hvalid : Z.of_N 4 < Z.of_nat (length (mWeatherSettings s)))
    by (vm_compute; reflexivity).
  assert (Hregion : mRegions s !! lowerCase "Mournhold" = Some region)
    by (vm_compute; reflexivity).
  assert (Hhere : playerIsIn outdoorsInMournhold (lowerCase "Mournhold") = true)
    by (vm_compute; reflexivity).
  assert (Hstable : mNextWeather s = invalidWeatherID) by (vm_compute; reflexivity).
  assert (Hother : Z.of_N 4 <> mCurrentWeather s) by (vm_compute; discriminate).
  assert (Hcurrent : mCurrentWeather s = 0) by (vm_compute; reflexivity).
  assert (Hqueued : mQueuedWeather s = invalidWeatherID) by (vm_compute; reflexivity).
  pose proof (changeWeather_effect outdoorsInMournhold 0 "Mournhold" 4 region s Hvalid Hregion)
    as Heffect.
  cbv zeta in Heffect.
  destruct Heffect as (s' & stored & Hrun & Hlook & Hweather & _ & _ & _ & _ & Hin).
  destruct (Hin Hhere) as [Hbegin _].
  destruct (Hbegin Hstable Hother) as (Hn & Hf & Hc & Hq).
  exists s', stored. rewrite Hn, Hf, Hc, Hq, Hcurrent, Hqueued.
  split; [exact Hrun|]. split; [exact Hlook|]. split; [exact Hweather|].
  do 3 (split; [reflexivity|]). reflexivity.
Defined.

Lemma update_paused_frozen_witness :
  exists s' played,
    update outdoorsInMournhold quietRolls f1 true (freshManager (F := Binary32.float))
      = Ok (s', played)
    /\ sameSurroundings freshManager s' /\ sameTransition freshManager s' /\ played = [].
Proof.
  set (s := freshManager (F := Binary32.float)).
  destruct (update outdoorsInMournhold quietRolls f1 true s) as [[s' played]|] eqn:Hrun;
    [|vm_compute in Hrun; discriminate Hrun].
  exists s', played. split; [reflexivity|].
  exact (update_paused_frozen outdoorsInMournhold quietRolls f1 s s' played
           (WeatherManager_new_invariant sampleFallback sampleStore) Hrun).
Defined.

Lemma readRecord_write_witness :
  let s := midTransition (F := Binary32.float) in
  let r := snd (readRecord REC_WTHR 2 (write s) freshManager) in
  mCurrentWeather r = 0 /\ mNextWeather r = 3 /\ mQueuedWeather r = 5 /\
  mTransitionFactor r = f0_5 /\ mRegions r = mRegions s.
Proof.
  cbv zeta.
  set (s := midTransition (F := Binary32.float)).
  set (t := freshManager (F := Binary32.float)).
  assert (Hc : mCurrentWeather s = 0) by (vm_compute; reflexivity).
  assert (Hn : mNextWeather s = 3) by (vm_compute; reflexivity).
  assert (Hq : mQueuedWeather s = 5) by (vm_compute; reflexivity).
  assert (Hf : mTransitionFactor s = f0_5) by (vm_compute; reflexivity).
  assert (Hfull : mRegions s <> ∅).
  { intros Hempty. assert (Hsize : size (mRegions s) = 1%nat) by (vm_compute; reflexivity).
    rewrite Hempty, map_size_empty in Hsize. discriminate Hsize. }
  pose proof (readRecord_write 2 s t ltac:(lia)) as Hloaded. cbv zeta in Hloaded.
  destruct Hloaded as (_ & _ & _ & _ & _ & Hf' & Hc' & Hn' & Hq' & Hregions & _).
  rewrite Hf', Hc', Hn', Hq', Hc, Hn, Hq, Hf.
  do 4 (split; [reflexivity|]). exact (Hregions Hfull).
Defined.

Lemma update_fast_forward_witness :
  let s := advanceTime (F := Binary32.float) f1 false midTransition in
  exists s' played,
    update outdoorsInMournhold quietRolls f1 false s = Ok (s', played)
    /\ mNextWeather s' = invalidWeatherID /\ mQueuedWeather s' = invalidWeatherID
    /\ mFastForward s' = false.
Proof.
  cbv zeta.
  set (s := advanceTime (F := Binary32.float) f1 false midTransition).
  destruct (update outdoorsInMournhold quietRolls f1 false s) as [[s' played]|] eqn:Hrun;
    [|vm_compute in Hrun; discriminate Hrun].
  exists s', played. split; [reflexivity|].
  apply (update_fast_forward outdoorsInMournhold quietRolls f1 s s' played);
    [reflexivity | exact Hrun].
Defined.

(** ** WeatherManager: the invariant is kept and no call faults *)

Lemma chooseLoop_in_table (roll100 : Z) (chances : list Z) :
  0 <= roll100 < 100 -> 100 <= prefixSum chances (length chances) ->
  0 <= chooseLoop (roll100 + 1) 0 0 chances < Z.of_nat (length chances).
Proof.
  intros Hroll Hsum.
  destruct (chooseLoop_spec (roll100 + 1) chances 0 0) as (Hrange & Hbefore & _).
  set (r := chooseLoop (roll100 + 1) 0 0 chances) in *.
  split; [lia|].
  destruct (Z.lt_ge_cases r (Z.of_nat (length chances))) as [|Hend]; [assumption|].
  destruct (length chances) as [|n] eqn:Hlen.
  - unfold prefixSum in Hsum. rewrite take_0 in Hsum. cbn in Hsum. lia.
  - specialize (Hbefore n ltac:(lia)). lia.
Qed.

Lemma storeRegionOk_selectable (region : Region) :
  storeRegionOk region -> selectable (RegionWeather_of_region region).
Proof. intros [_ Hsum]. split; [now left|]. split; [cbn; lia | exact Hsum]. Qed.

Lemma getWeather_valid (roll100 : Z) (region : RegionWeather) :
  selectable region -> 0 <= roll100 < 100 ->
  validWeatherID (fst (getWeather roll100 region)) /\
  selectable (snd (getWeather roll100 region)).
Proof.
  intros (Hid & Hlen & Hsum) Hroll. unfold getWeather.
  destruct (Z.eqb_spec (mWeather region) invalidWeatherID) as [Hunset|Hset]; cbn [fst snd].
  - pose proof (chooseLoop_in_table roll100 (mChances region) Hroll Hsum) as Hin.
    unfold chooseNewWeather, setWeather, selectable, validWeatherID. cbn [mWeather mChances].
    split; [lia|]. split; [right; lia|]. split; assumption.
  - split; [|repeat split; assumption]. destruct Hid; [contradiction|assumption].
Qed.

Section WellFormedClaims.
Context {F : Type} `{FloatOps F}.
Local Open Scope float_scope.

Lemma calculateThunder_ok (w : Weather F) (transitionRatio elapsedSeconds : F)
    (isPaused : bool) (rng : ThunderRolls) :
  fourSounds w -> (0 <= rollDice4 rng < 4)%Z ->
  exists r, calculateThunder w transitionRatio elapsedSeconds isPaused rng = Ok r /\
            fourSounds (snd (fst r)).
Proof.
  intros Hsounds Hdice. unfold calculateThunder.
  destruct (negb isPaused); [|eexists; split; [reflexivity|exact Hsounds]].
  destruct (_ && _); [|eexists; split; [reflexivity|exact Hsounds]].
  cbv zeta. destruct (_ <=? _); [|eexists; split; [reflexivity|exact Hsounds]].
  unfold lightningAndThunder. cbv zeta.
  destruct (vec_at_in_range (mThunderSoundID (flashDecrement w elapsedSeconds)) (rollDice4 rng))
    as [sound ->].
  { rewrite to_size_t_small by lia. change (mThunderSoundID (flashDecrement w elapsedSeconds))
      with (mThunderSoundID w). unfold fourSounds in Hsounds. rewrite Hsounds. lia. }
  cbn [res_bind]. eexists. split; [reflexivity|exact Hsounds].
Qed.

Lemma wellFormed_frame (s s' : WeatherManager F) :
  transitionIds s' = transitionIds s ->
  Forall fourSounds (mWeatherSettings s') ->
  mRegions s' = mRegions s -> mStore s' = mStore s ->
  wellFormed s -> wellFormed s'.
Proof.
  intros Hids Hsounds Hregions Hstore (Hinv & Hcur & _ & Hreg & Hst).
  split; [exact (transitionInvariant_ids s s' Hids Hinv)|].
  split; [|split; [exact Hsounds|rewrite Hregions, Hstore; split; assumption]].
  unfold transitionIds in Hids. injection Hids as _ -> _ _. exact Hcur.
Qed.

Lemma vec_at_setting (s : WeatherManager F) (weatherID : Z) :
  wellFormed s -> validWeatherID weatherID ->
  exists w, vec_at (mWeatherSettings s) weatherID = Ok w /\ fourSounds w /\
            mWeatherSettings s !! Z.to_nat weatherID = Some w.
Proof.
  intros ((Hlen & _) & _ & Hsounds & _) Hvalid. unfold validWeatherID in Hvalid.
  destruct (lookup_lt_is_Some_2 (mWeatherSettings s) (Z.to_nat weatherID) ltac:(lia)) as [w Hw].
  exists w. split; [apply vec_at_Ok; [lia|exact Hw]|]. split; [|exact Hw].
  rewrite Forall_lookup in Hsounds. exact (Hsounds _ _ Hw).
Qed.

Lemma next_valid (s : WeatherManager F) :
  wellFormed s -> mNextWeather s <> invalidWeatherID -> validWeatherID (mNextWeather s).
Proof.
  intros ((Hlen & _ & _ & _ & Hn & _) & _) Hne. unfold validOrInvalid in Hn.
  destruct Hn as [|Hn]; [contradiction|]. unfold validWeatherID. rewrite Hlen in Hn. lia.
Qed.

Lemma queued_valid (s : WeatherManager F) :
  wellFormed s -> mQueuedWeather s <> invalidWeatherID -> validWeatherID (mQueuedWeather s).
Proof.
  intros ((Hlen & _ & _ & _ & _ & Hq) & _) Hne. unfold validOrInvalid in Hq.
  destruct Hq as [|Hq]; [contradiction|]. unfold validWeatherID. rewrite Hlen in Hq. lia.
Qed.
Lemma dataOk_same (s s' : WeatherManager F) : sameData s s' -> dataOk s -> dataOk s'.
Proof. intros (Hst & Hset & Hreg). unfold dataOk. now rewrite Hst, Hset, Hreg. Qed.

(** *** [addWeatherTransition] *)

Lemma addWeatherTransition_shape (weatherID : Z) (s s' : WeatherManager F) :
  addWeatherTransition weatherID s = Ok s' ->
  sameData s s' /\ mCurrentWeather s' = mCurrentWeather s.
Proof.
  unfold addWeatherTransition, sameData. destruct (negb _); [discriminate|].
  destruct (_ && _); [intros Heq; injection Heq as <-; cbn; tauto|].
  destruct (_ && _); intros Heq; injection Heq as <-; cbn; tauto.
Qed.

Lemma addWeatherTransition_ok (weatherID : Z) (s : WeatherManager F) :
  wellFormed s -> validWeatherID weatherID ->
  exists s', addWeatherTransition weatherID s = Ok s' /\ wellFormed s'.
Proof.
  intros Hwf Hvalid. pose proof Hwf as (Hinv & Hcur & Hdata). pose proof Hinv as (Hlen & _).
  assert (Hindex : validIndex s weatherID).
  { unfold validIndex, validWeatherID in *. rewrite Hlen. lia. }
  assert (Hrun : exists s', addWeatherTransition weatherID s = Ok s').
  { rewrite (addWeatherTransition_asserted s weatherID Hindex).
    destruct (_ && _); [eauto|]. destruct (_ && _); eauto. }
  destruct Hrun as [s' Hrun]. exists s'. split; [exact Hrun|].
  destruct (addWeatherTransition_shape _ _ _ Hrun) as [Hsame Hc].
  split; [exact (addWeatherTransition_invariant _ _ _ Hinv Hrun)|].
  split; [now rewrite Hc | exact (dataOk_same _ _ Hsame Hdata)].
Qed.

(** *** [updateWeatherTransitions] *)

Lemma updateWeatherTransitions_shape (elapsedSeconds : F) (s s' : WeatherManager F) :
  updateWeatherTransitions elapsedSeconds s = Ok s' ->
  sameData s s' /\
  (mCurrentWeather s' = mCurrentWeather s \/
   (mCurrentWeather s' = mNextWeather s /\ mNextWeather s <> invalidWeatherID) \/
   (mCurrentWeather s' = mQueuedWeather s /\ mQueuedWeather s <> invalidWeatherID)).
Proof.
  unfold updateWeatherTransitions, sameData. intros Hrun.
  destruct (negb (mFastForward s) && inTransition s) eqn:Hbranch.
  - apply andb_prop in Hbranch as [_ Htrans].
    assert (Hnext : mNextWeather s <> invalidWeatherID).
    { intros Heq. rewrite (inTransition_false s Heq) in Htrans. discriminate. }
    destruct (vec_at (mWeatherSettings s) (mNextWeather s)) as [next|]; [|discriminate].
    cbn [res_bind] in Hrun. cbv zeta in Hrun.
    match type of Hrun with (if ?c then _ else _) = _ => destruct c end.
    + match type of Hrun with (if ?c then _ else _) = _ => destruct c end.
      * match type of Hrun with res_bind ?m _ = _ => destruct m as [next'|]; [|discriminate] end.
        cbn [res_bind] in Hrun. injection Hrun as <-. cbn. tauto.
      * injection Hrun as <-. cbn. tauto.
    + injection Hrun as <-. cbn. tauto.
  - injection Hrun as <-.
    destruct (Z.eqb_spec (mQueuedWeather s) invalidWeatherID) as [|Hq]; cbn [negb].
    + destruct (Z.eqb_spec (mNextWeather s) invalidWeatherID) as [|Hn]; cbn; tauto.
    + cbn. tauto.
Qed.

Lemma updateWeatherTransitions_ok (elapsedSeconds : F) (s : WeatherManager F) :
  wellFormed s ->
  exists s', updateWeatherTransitions elapsedSeconds s = Ok s' /\ wellFormed s'.
Proof.
  intros Hwf. pose proof Hwf as (Hinv & Hcur & Hdata).
  assert (Hrun : exists s', updateWeatherTransitions elapsedSeconds s = Ok s').
  { unfold updateWeatherTransitions.
    destruct (negb (mFastForward s) && inTransition s) eqn:Hbranch; [|eauto].
    apply andb_prop in Hbranch as [_ Htrans].
    assert (Hnext : mNextWeather s <> invalidWeatherID).
    { intros Heq. rewrite (inTransition_false s Heq) in Htrans. discriminate. }
    destruct (vec_at_setting s _ Hwf (next_valid s Hwf Hnext)) as (next & -> & _).
    cbn [res_bind]. cbv zeta.
    match goal with |- exists _, (if ?c then _ else _) = _ => destruct c end; [|eauto].
    unfold inTransition.
    cbn [set_mQueuedWeather set_mNextWeather set_mCurrentWeather set_mTransitionFactor
         mNextWeather mQueuedWeather mWeatherSettings].
    destruct (Z.eqb_spec (mQueuedWeather s) invalidWeatherID) as [|Hq]; cbn [negb]; [eauto|].
    destruct (vec_at_setting s _ Hwf (queued_valid s Hwf Hq)) as (queued & -> & _).
    cbn [res_bind]. eauto. }
  destruct Hrun as [s' Hrun]. exists s'. split; [exact Hrun|].
  destruct (updateWeatherTransitions_shape _ _ _ Hrun) as [Hsame Hc].
  split; [exact (updateWeatherTransitions_invariant _ _ _ Hinv Hrun)|].
  split; [|exact (dataOk_same _ _ Hsame Hdata)].
  destruct Hc as [->|[[-> Hn]|[-> Hq]]];
    [exact Hcur | exact (next_valid s Hwf Hn) | exact (queued_valid s Hwf Hq)].
Qed.

(** *** [calculateWeatherResult] *)

Lemma calculateWeatherResult_ok (elapsedSeconds : F) (isPaused : bool) (rng : UpdateRolls F)
    (s : WeatherManager F) :
  wellFormed s -> rollsInRange rng ->
  exists s' played,
    calculateWeatherResult elapsedSeconds isPaused rng s = Ok (s', played) /\ wellFormed s'.
Proof.
  intros Hwf (_ & Hdc & Hdn). pose proof Hwf as (Hinv & Hcur & Hsounds & Hregions & Hstore).
  assert (Hkeep : forall (t : WeatherManager F) (index : Z) (w : Weather F),
            Forall fourSounds (mWeatherSettings t) -> fourSounds w ->
            Forall fourSounds (<[Z.to_nat index := w]> (mWeatherSettings t))).
  { intros t index w Hall Hw. rewrite Forall_lookup in *. intros i x Hx.
    destruct (decide (i = Z.to_nat index)) as [->|Hne].
    - apply list_lookup_insert_Some in Hx as [(_ & <- & _)|(Hne & _)]; [exact Hw|contradiction].
    - rewrite list_lookup_insert_ne in Hx by congruence. exact (Hall _ _ Hx). }
  assert (Hrun : exists s' played,
            calculateWeatherResult elapsedSeconds isPaused rng s = Ok (s', played) /\
            Forall fourSounds (mWeatherSettings s') /\ mRegions s' = mRegions s /\
            mStore s' = mStore s).
  { unfold calculateWeatherResult.
    destruct (vec_at_setting s _ Hwf Hcur) as (w & Hw & Hws & _).
    destruct (negb (inTransition s)) eqn:Htrans.
    - rewrite Hw. cbn [res_bind].
      destruct (calculateThunder_ok w f1 elapsedSeconds isPaused (rollsCurrent rng) Hws Hdc)
        as (r & -> & Hr).
      cbn [res_bind]. eexists _, _. split; [reflexivity|]. cbn. split; [|tauto].
      now apply Hkeep.
    - assert (Hnext : mNextWeather s <> invalidWeatherID).
      { intros Heq. rewrite (inTransition_false s Heq) in Htrans. discriminate. }
      pose proof (next_valid s Hwf Hnext) as Hnv.
      destruct (vec_at_setting s _ Hwf Hnv) as (w0 & Hw0 & _ & _).
      rewrite Hw, Hw0. cbn [res_bind].
      destruct (calculateThunder_ok w (mTransitionFactor s) elapsedSeconds isPaused
                  (rollsCurrent rng) Hws Hdc) as (r & -> & Hr).
      cbn [res_bind]. cbv zeta.
      cbn [set_mWeatherSettings mWeatherSettings mNextWeather mTransitionFactor mCurrentWeather].
      pose proof (Hkeep s (mCurrentWeather s) (snd (fst r)) Hsounds Hr) as Hall1.
      set (settings1 := <[Z.to_nat (mCurrentWeather s) := snd (fst r)]> (mWeatherSettings s)) in *.
      assert (Hlen1 : length settings1 = 10%nat).
      { unfold settings1. rewrite length_insert. exact (proj1 Hinv). }
      destruct (lookup_lt_is_Some_2 settings1 (Z.to_nat (mNextWeather s))
                  ltac:(unfold validWeatherID in Hnv; lia)) as [w' Hw'].
      rewrite (vec_at_Ok settings1 (mNextWeather s) w'
                 ltac:(unfold validWeatherID in Hnv; lia) Hw').
      cbn [res_bind].
      assert (Hws' : fourSounds w') by (rewrite Forall_lookup in Hall1; exact (Hall1 _ _ Hw')).
      destruct (calculateThunder_ok w' (f1 - mTransitionFactor s) elapsedSeconds isPaused
                  (rollsNext rng) Hws' Hdn) as (r' & -> & Hr').
      cbn [res_bind]. eexists _, _. split; [reflexivity|]. cbn. split; [|tauto].
      rewrite Forall_lookup in *. intros i x Hx.
      destruct (decide (i = Z.to_nat (mNextWeather s))) as [->|Hne].
      + apply list_lookup_insert_Some in Hx as [(_ & <- & _)|(Hne & _)]; [exact Hr'|contradiction].
      + rewrite list_lookup_insert_ne in Hx by congruence. exact (Hall1 _ _ Hx). }
  destruct Hrun as (s' & played & Hrun & Hall & Hreg & Hst).
  exists s', played. split; [exact Hrun|].
  exact (wellFormed_frame s s' (calculateWeatherResult_ids _ _ _ _ _ _ Hrun) Hall Hreg Hst Hwf).
Qed.
(** *** [update] *)

Lemma updateWeatherTime_wellFormed (s : WeatherManager F) :
  wellFormed s -> wellFormed (snd (updateWeatherTime s)).
Proof.
  intros Hwf. pose proof Hwf as (Hinv & Hcur & Hsounds & Hregions & Hstore).
  split; [exact (transitionInvariant_ids s _ (updateWeatherTime_ids s) Hinv)|].
  unfold updateWeatherTime. cbv zeta. destruct (f_le _ _); cbn [snd].
  - split; [exact Hcur|]. split; [exact Hsounds|]. split; [|exact Hstore].
    cbn [mRegions set_mRegions set_mWeatherUpdateTime set_mTimePassed].
    apply map_Forall_fmap. intros key region Hregion. cbn.
    destruct (Hregions key region Hregion) as (_ & Hlen & Hsum).
    split; [now left|]. split; assumption.
  - split; [exact Hcur|]. split; [exact Hsounds|]. split; assumption.
Qed.

Lemma updateWeatherRegion_wellFormed (playerRegion : string) (s : WeatherManager F) :
  wellFormed s -> wellFormed (snd (updateWeatherRegion playerRegion s)).
Proof.
  intros Hwf. unfold updateWeatherRegion. destruct (_ && _); [|exact Hwf]. exact Hwf.
Qed.

Lemma selected_wellFormed (roll100 : Z) (key : string) (region : RegionWeather)
    (s : WeatherManager F) :
  wellFormed s -> (0 <= roll100 < 100)%Z -> mRegions s !! key = Some region ->
  validWeatherID (fst (getWeather roll100 region)) /\
  wellFormed (set_mRegions (<[key := snd (getWeather roll100 region)]> (mRegions s)) s).
Proof.
  intros (Hinv & Hcur & Hsounds & Hregions & Hstore) Hroll Hregion.
  destruct (getWeather_valid roll100 region (Hregions key region Hregion) Hroll) as [Hid Hsel].
  split; [exact Hid|].
  split; [exact Hinv|]. split; [exact Hcur|]. split; [exact Hsounds|]. split; [|exact Hstore].
  cbn [mRegions set_mRegions]. now apply map_Forall_insert_2.
Qed.

Lemma update_ok (world : World) (rng : UpdateRolls F) (duration : F) (paused : bool)
    (s : WeatherManager F) :
  wellFormed s -> rollsInRange rng ->
  exists s' played, update world rng duration paused s = Ok (s', played) /\ wellFormed s'.
Proof.
  intros Hwf Hrolls. pose proof Hrolls as (Hroll & _). unfold update.
  match goal with
  | |- exists _ _, res_bind ?m _ = _ /\ _ =>
      assert (Hfirst : exists s1, m = Ok s1 /\ wellFormed s1)
  end.
  { destruct (negb paused); [|eauto]. cbv zeta.
    pose proof (updateWeatherTime_wellFormed s Hwf) as Hsa.
    destruct (updateWeatherTime s) as [timeUp sa]. cbn [snd] in Hsa.
    pose proof (updateWeatherRegion_wellFormed (lowerCase (playerCellRegion world)) sa Hsa) as Hsb.
    assert (Hsb' : wellFormed (snd (if timeUp then (true, sa)
                   else updateWeatherRegion (lowerCase (playerCellRegion world)) sa)))
      by (destruct timeUp; assumption).
    destruct (if timeUp then (true, sa)
              else updateWeatherRegion (lowerCase (playerCellRegion world)) sa) as [changed sb].
    cbn [snd] in Hsb'.
    match goal with
    | |- exists _, res_bind ?m _ = _ /\ _ =>
        assert (Hsc : exists sc, m = Ok sc /\ wellFormed sc)
    end.
    { destruct changed; [|eauto].
      destruct (mRegions sb !! mCurrentRegion sb) as [region|] eqn:Hregion; [|eauto].
      destruct (selected_wellFormed (rollDice100 rng) _ region sb Hsb' Hroll Hregion)
        as [Hid Hstored].
      destruct (getWeather (rollDice100 rng) region) as [id region']. cbn [fst snd] in *.
      exact (addWeatherTransition_ok id _ Hstored Hid). }
    destruct Hsc as (sc & -> & Hsc). cbn [res_bind].
    exact (updateWeatherTransitions_ok duration sc Hsc). }
  destruct Hfirst as (s1 & -> & Hs1). cbn [res_bind]. cbv zeta.
  destruct (negb _); [eauto|].
  exact (calculateWeatherResult_ok duration paused rng s1 Hs1 Hrolls).
Qed.

(** *** [changeWeather] *)

Lemma changeWeather_ok (world : World) (roll100 : Z) (regionID : string) (weatherID : N)
    (s : WeatherManager F) :
  wellFormed s ->
  exists s', changeWeather world roll100 regionID weatherID s = Ok s' /\ wellFormed s'.
Proof.
  intros Hwf. pose proof Hwf as (Hinv & Hcur & Hsounds & Hregions & Hstore).
  pose proof Hinv as (Hlen & _). unfold changeWeather.
  destruct (Z.ltb_spec (Z.of_N weatherID) (Z.of_nat (length (mWeatherSettings s))))
    as [Hlt|]; [|eauto].
  cbv zeta. destruct (mRegions s !! lowerCase regionID) as [region|] eqn:Hregion; [|eauto].
  assert (Hvalid : validWeatherID (Z.of_N weatherID)).
  { unfold validWeatherID. rewrite Hlen in Hlt. lia. }
  assert (Hstored : selectable (setWeather (Z.of_N weatherID) region)).
  { destruct (Hregions _ _ Hregion) as (_ & Hl & Hsum).
    split; [now right|]. split; assumption. }
  assert (Hkeep : forall t : WeatherManager F, wellFormed t ->
            wellFormed (set_mRegions
                          (<[lowerCase regionID := setWeather (Z.of_N weatherID) region]>
                             (mRegions t)) t)).
  { intros t (Hi & Hc & Hs & Hr & Hst). split; [exact Hi|]. split; [exact Hc|].
    split; [exact Hs|]. split; [|exact Hst]. cbn [mRegions set_mRegions].
    now apply map_Forall_insert_2. }
  destruct (playerIsIn world (lowerCase regionID)) eqn:Hplayer.
  - rewrite (regionalWeatherChanged_here _ _ _ _ _ Hplayer).
    rewrite (getWeather_setWeather roll100 _ region (N2Z.is_nonneg weatherID)). cbn [fst snd].
    destruct (addWeatherTransition_ok _ s Hwf Hvalid) as (t & -> & Ht). cbn [res_bind fst snd].
    eexists. split; [reflexivity|]. now apply Hkeep.
  - rewrite (regionalWeatherChanged_elsewhere _ _ _ _ _ Hplayer). cbn [res_bind fst snd].
    eexists. split; [reflexivity|]. now apply Hkeep.
Qed.

(** *** [readRecord], [forceWeather] and the constructor *)

Lemma importRegions_selectable (s : WeatherManager F) :
  Forall storeRegionOk (storeRegions (mStore s)) ->
  map_Forall (fun _ region => selectable region) (mRegions s) ->
  map_Forall (fun _ region => selectable region) (mRegions (importRegions s)).
Proof.
  intros Hstore Hregions key region. unfold importRegions. cbn [mRegions set_mRegions].
  rewrite foldl_insert_new_lookup.
  destruct (mRegions s !! key) as [kept|] eqn:Hkept.
  - intros Heq. injection Heq as <-. exact (Hregions key kept Hkept).
  - destruct (list_find _ (storeRegions (mStore s))) as [[index imported]|] eqn:Hfind;
      [|discriminate].
    cbn. intros Heq. injection Heq as <-.
    apply list_find_Some in Hfind as (Hlook & _).
    rewrite Forall_lookup in Hstore. apply storeRegionOk_selectable.
    exact (Hstore _ _ Hlook).
Qed.

Lemma readRecord_wellFormed (type : RecNameInts) (format : Z) (state : WeatherState F)
    (s : WeatherManager F) :
  recordOk state -> wellFormed s -> wellFormed (snd (readRecord type format state s)).
Proof.
  intros (Hids & Hcurrent & Hsaved) Hwf.
  pose proof Hwf as (Hinv & Hcur & Hsounds & Hregions & Hstore).
  split; [exact (readRecord_invariant type format state s Hids Hinv)|].
  assert (Hrest : validWeatherID (mCurrentWeather s) /\ dataOk s)
    by (split; [exact Hcur|]; split; [exact Hsounds|]; split; assumption).
  unfold readRecord. destruct type as [|n]; [|exact Hrest].
  cbv zeta. destruct (format <? 2)%Z; [exact Hrest|].
  destruct (decide _); cbn [snd].
  - split; [exact Hcurrent|]. split; [exact Hsounds|]. split; [|exact Hstore].
    apply importRegions_selectable; [exact Hstore|]. cbn. apply map_Forall_empty.
  - split; [exact Hcurrent|]. split; [exact Hsounds|]. split; [|exact Hstore].
    cbn [mRegions set_mRegions]. apply map_Forall_fmap. exact Hsaved.
Qed.

Lemma forceWeather_wellFormed (weatherID : Z) (s : WeatherManager F) :
  validWeatherID weatherID -> wellFormed s -> wellFormed (forceWeather weatherID s).
Proof.
  intros Hvalid (Hinv & _ & Hdata).
  split; [now apply forceWeather_invariant|]. split; [exact Hvalid|exact Hdata].
Qed.

Lemma WeatherManager_new_wellFormed (fallback : Fallback F) (store : ESMStore F) :
  Forall storeRegionOk (storeRegions store) ->
  wellFormed (WeatherManager_new fallback store).
Proof.
  intros Hstore. split; [apply WeatherManager_new_invariant|].
  split; [cbn; unfold validWeatherID; lia|].
  split; [cbn; repeat constructor|]. split; [|exact Hstore].
  unfold WeatherManager_new. cbv zeta.
  change (mRegions (forceWeather 0 ?t)) with (mRegions t).
  apply importRegions_selectable; [exact Hstore|]. cbn. apply map_Forall_empty.
Qed.

(** One call of a conforming mutator on a well-formed manager returns
    normally, and the manager stays well formed. *)
Lemma conforming_step (m : mutator) (s : WeatherManager F) :
  wellFormed s -> conformingMutator m ->
  exists s', runMutator m s = Ok s' /\ wellFormed s'.
Proof.
  intros Hwf Hok.
  destruct m as [weatherID|weatherID|elapsedSeconds|world roll100 regionID weatherID
                 |type format state|world rng duration paused]; cbn in Hok; cbn [runMutator].
  - eexists. split; [reflexivity|]. now apply forceWeather_wellFormed.
  - now apply addWeatherTransition_ok.
  - now apply updateWeatherTransitions_ok.
  - now apply changeWeather_ok.
  - eexists. split; [reflexivity|]. now apply readRecord_wellFormed.
  - destruct (update_ok world rng duration paused s Hwf Hok) as (s' & played & -> & Hs').
    cbn [res_bind fst]. eauto.
Qed.

(** C4, amended.  Take a manager constructed over a store whose regions
    have chances within 0..127 that sum to 100 or more, and any state
    reached from it by [forceWeather] and [addWeatherTransition] with a
    valid id (0..9), [updateWeatherTransitions], [changeWeather], the
    per-tick [update] with draws in their ranges ([rollDice(100)] in 0..99,
    [rollDice(4)] in 0..3), and [readRecord] of a record whose current id
    is valid, whose next and queued ids obey the conditions below, and
    whose regions have an unset or valid weather and at most ten chances
    summing to 100 or more.  In every such state [next] is the sentinel
    exactly when no transition is in progress, [queued] is set only when
    [next] is, each of [current], [next] and [queued] is the sentinel or an
    index into the ten weather settings, and [current] is such an index.
    Moreover every such call returns normally from such a state: the
    assertion of [addWeatherTransition] holds and no vector is indexed
    outside its bounds, so that no step is left out. *)
Theorem transitionInvariant_reachable (fallback : Fallback F) (store : ESMStore F)
    (s : WeatherManager F) :
  Forall storeRegionOk (storeRegions store) ->
  reachable conformingMutator (WeatherManager_new fallback store) s ->
  transitionInvariant s /\
  validWeatherID (mCurrentWeather s) /\
  (forall m, conformingMutator m -> exists s', runMutator m s = Ok s').
Proof.
  intros Hstore Hreach.
  assert (Hwf : wellFormed s).
  { induction Hreach as [|s s' m _ IH Hok Hrun].
    - now apply WeatherManager_new_wellFormed.
    - destruct (conforming_step m s IH Hok) as (t & Ht & Hwf).
      rewrite Ht in Hrun. injection Hrun as <-. exact Hwf. }
  destruct Hwf as (Hinv & Hcur & Hdata). split; [exact Hinv|]. split; [exact Hcur|].
  intros m Hok.
  destruct (conforming_step m s (conj Hinv (conj Hcur Hdata)) Hok) as (s' & Hrun & _). eauto.
Qed.

End WellFormedClaims.

Lemma transitionInvariant_reachable_witness :
  let s := set_mTransitionFactor f1 (set_mNextWeather 3 (freshManager (F := Binary32.float))) in
  transitionInvariant s /\
  validWeatherID (mCurrentWeather s) /\
  (forall m, conformingMutator m -> exists s', runMutator m s = Ok s').
Proof.
  cbv zeta.
  apply (transitionInvariant_reachable sampleFallback sampleStore).
  - repeat constructor; vm_compute; intro; discriminate.
  - apply (reachable_step conformingMutator _ freshManager _ (AddWeatherTransition 3)).
    + apply reachable_init.
    + vm_compute. split; [intro; discriminate | reflexivity].
    + vm_compute. reflexivity.
Defined.

(** Without the condition on the chances the ids that [update] picks need
    not be valid: over a region whose chances are all zero the per-tick
    [update] selects weather 10 and stops at the assertion of
    [addWeatherTransition]. *)
Lemma update_zero_chances_asserts :
  update outdoorsInMournhold quietRolls f1 false (WeatherManager_new sampleFallback barrenStore)
  = Fail AssertionFailed.
Proof. vm_compute. reflexivity. Qed.

(** ** WeatherManager: [clear] *)

(** X13. [clear] puts the manager back on weather 0 with no transition, no
    current region and both timers at 0, and replaces the region map by the
    regions of the store, all unselected: selections and chance tables set
    since are dropped.  The fast-forward flag and the weather settings (with
    their flash brightness) are not touched. *)
Theorem clear_resets {F : Type} `{FloatOps F} (s : WeatherManager F) :
  let c := clear s in
  mCurrentRegion c = "" /\ mTimePassed c = f0 /\ mWeatherUpdateTime c = f0 /\
  mTransitionFactor c = f0 /\ mCurrentWeather c = 0 /\
  mNextWeather c = invalidWeatherID /\ mQueuedWeather c = invalidWeatherID /\
  mFastForward c = mFastForward s /\ mWeatherSettings c = mWeatherSettings s /\
  (forall key, mRegions c !! key = RegionWeather_of_region <$> firstStoreRegion (mStore s) key) /\
  (forall key region, mRegions c !! key = Some region ->
     mWeather region = invalidWeatherID /\ length (mChances region) = 10%nat).
Proof.
  cbv zeta.
  assert (Hlook : forall key, mRegions (clear s) !! key
                    = RegionWeather_of_region <$> firstStoreRegion (mStore s) key).
  { intros key. unfold clear, importRegions, firstStoreRegion. cbn [set_mRegions mRegions].
    rewrite foldl_insert_new_lookup. cbn. now rewrite lookup_empty. }
  assert (Hfresh : forall key region, mRegions (clear s) !! key = Some region ->
                     exists imported, region = RegionWeather_of_region imported).
  { intros key region Hregion. rewrite Hlook in Hregion.
    destruct (firstStoreRegion (mStore s) key) as [imported|]; [|discriminate].
    injection Hregion as <-. now exists imported. }
  repeat (split; [first [reflexivity | exact Hlook]|]).
  intros key region Hregion. destruct (Hfresh key region Hregion) as [imported ->].
  split; reflexivity.
Qed.

(** ** MoonModel *)

Lemma phase_range {F : Type} `{FloatOps F} `{FloatFmod F} (m : MoonModel F)
    (gameTime : TimeStamp F) :
  0 <= getDay gameTime -> 0 <= phase m gameTime <= 7.
Proof.
  intros Hday. unfold phase, to_unsigned.
  assert (Hrem : forall d, 0 <= d -> 0 <= (Z.rem (Z.quot d 3) 8) mod 2 ^ 32 <= 7).
  { intros d Hd. pose proof (Z.quot_pos d 3 Hd ltac:(lia)) as Hq.
    pose proof (Z.rem_bound_pos (Z.quot d 3) 8 Hq ltac:(lia)).
    rewrite Z.mod_small; lia. }
  destruct (f_lt _ _); apply Hrem; lia.
Qed.

Section MoonClaims.
Context {F : Type} `{FloatOps F} `{FloatFmod F}.
Local Open Scope float_scope.

Lemma angle_below (m : MoonModel F) (gameTime : TimeStamp F) :
  (f0 >=? f180) = false -> (angle m gameTime >=? f180) = false.
Proof.
  intros Hzero. unfold angle. cbv zeta.
  match goal with
  | |- ((if ?c then f0 else ?a) >=? f180) = false => destruct c eqn:Hset
  end; [exact Hzero | exact Hset].
Qed.


End MoonClaims.


(** *** binary32: no quotient is taken when the bounds of a fade coincide *)

Lemma binary32_le_lt_exclusive (a x : Binary32.float) :
  ((x >=? a) && (x <? a))%F = false.
Proof.
  cbn. unfold Binary32.le, Binary32.lt, SFleb, SFltb.
  rewrite (binary32_compare_antisym a x).
  destruct (SFcompare a x) as [[]|]; reflexivity.
Qed.

(** X18. In binary32, when the bounds of a fade coincide (fade start angle =
    fade end angle; fade-out start = finish and fade-in start = finish), no
    branch with a quotient is taken: [shadowBlend] and [hourlyAlpha] return
    exactly 0 or 1, for every argument, NaN included.  The divisions by
    [start - end] are therefore never divisions by zero. *)
Theorem moon_fades_degenerate (m : MoonModel Binary32.float) (x : Binary32.float) :
  (mFadeStartAngle m = mFadeEndAngle m ->
     shadowBlend m x = f0 \/ shadowBlend m x = f1) /\
  (mFadeOutStart m = mFadeOutFinish m -> mFadeInStart m = mFadeInFinish m ->
     hourlyAlpha m x = f0 \/ hourlyAlpha m x = f1).
Proof.
  split.
  - intros Heq. unfold shadowBlend. cbv zeta. rewrite Heq.
    rewrite !binary32_le_lt_exclusive.
    destruct (_ && _); auto.
  - intros Hout Hin. unfold hourlyAlpha. rewrite Hout, Hin.
    rewrite !binary32_le_lt_exclusive.
    destruct (_ && _); auto.
Qed.

(** *** Exact arithmetic *)

Lemma exact_lt (x y : Q) : (x <? y)%F = true <-> (x < y)%Q.
Proof.
  cbn. rewrite negb_true_iff. split.
  - intros Hf. apply Qnot_le_lt. intros Hle. apply Qle_bool_iff in Hle. congruence.
  - intros Hlt. destruct (Qle_bool y x) eqn:E; [|reflexivity].
    apply Qle_bool_iff in E. exfalso. exact (Qlt_not_le _ _ Hlt E).
Qed.

Lemma exact_lt_false (x y : Q) : (x <? y)%F = false <-> (y <= x)%Q.
Proof. cbn. rewrite negb_false_iff. apply Qle_bool_iff. Qed.

(** ** Weather: lightning and thunder *)

Lemma setFlashBrightness_same {F : Type} `{FloatOps F} (w : Weather F) :
  setFlashBrightness w (mFlashBrightness w) = w.
Proof. destruct w; reflexivity. Qed.

Lemma flashDecrement_nonneg (w : Weather Q) (elapsedSeconds : Q) :
  (0 <= mFlashBrightness w)%Q ->
  (0 <= mFlashBrightness (flashDecrement w elapsedSeconds))%Q.
Proof.
  intros Hb. unfold flashDecrement. cbv zeta. cbn [setFlashBrightness mFlashBrightness].
  destruct (_ <? _)%F eqn:E.
  - now compute.
  - apply exact_lt_false in E. change (0 <= mFlashBrightness w - mFlashDecrement w * elapsedSeconds)%Q.
    change (mFlashDecrement w * elapsedSeconds <= mFlashBrightness w)%Q in E. lra.
Qed.

Lemma strike_brightness (distance : Z) :
  0 <= distance < 4 -> (1 # 4 <= f1 - f_of_Z distance * f0_25)%Q.
Proof.
  intros Hd. assert (Hcases : distance = 0 \/ distance = 1 \/ distance = 2 \/ distance = 3) by lia.
  destruct Hcases as [-> | [-> | [-> | ->]]]; vm_compute; intro; discriminate.
Qed.

(** X19. In exact arithmetic the flash brightness never becomes negative, and
    [calculateThunder] does not fault: for a weather with its four thunder
    sounds and a draw of [rollDice(4)] (0..3), every call returns the new
    brightness, which is not negative, and changes nothing but the
    brightness; it plays either no sound or the one sound of the drawn
    distance, and after such a strike the brightness is at least 1/4. *)
Theorem calculateThunder_brightness (w : Weather Q) (transitionRatio elapsedSeconds : Q)
    (isPaused : bool) (rng : ThunderRolls) :
  (0 <= mFlashBrightness w)%Q -> 0 <= rollDice4 rng < 4 ->
  length (mThunderSoundID w) = 4%nat ->
  exists (brightness : Q) (sounds : list string),
    calculateThunder w transitionRatio elapsedSeconds isPaused rng
      = Ok (brightness, setFlashBrightness w brightness, sounds)
    /\ (0 <= brightness)%Q
    /\ (sounds = [] \/
        exists sound, sounds = [sound]
          /\ mThunderSoundID w !! Z.to_nat (rollDice4 rng) = Some sound
          /\ (1 # 4 <= brightness)%Q).
Proof.
  intros Hb Hdice Hsounds. unfold calculateThunder. destruct isPaused; cbn [negb].
  - exists (mFlashBrightness w), []. cbn [res_bind fst snd].
    rewrite setFlashBrightness_same. auto.
  - destruct (_ && _).
    + pose proof (flashDecrement_nonneg w elapsedSeconds Hb) as Hb1. cbv zeta.
      set (w1 := flashDecrement w elapsedSeconds) in *.
      assert (Hw1 : forall b, setFlashBrightness w1 b = setFlashBrightness w b) by reflexivity.
      destruct (_ <=? _)%F.
      * unfold lightningAndThunder. cbv zeta.
        destruct (lookup_lt_is_Some_2 (mThunderSoundID w) (Z.to_nat (rollDice4 rng)) ltac:(lia))
          as [sound Hsound].
        change (mThunderSoundID w1) with (mThunderSoundID w).
        rewrite (vec_at_Ok (mThunderSoundID w) (rollDice4 rng) sound ltac:(lia) Hsound). cbn [res_bind fst snd].
        rewrite Hw1. cbn [setFlashBrightness mFlashBrightness].
        pose proof (strike_brightness (rollDice4 rng) Hdice) as Hstrike.
        eexists _, [sound]. split; [reflexivity|].
        change (0 <= mFlashBrightness w1 + (f1 - f_of_Z (rollDice4 rng) * f0_25)
                /\ ([sound] = [] \/
                    exists sound0, [sound] = [sound0]
                      /\ mThunderSoundID w !! Z.to_nat (rollDice4 rng) = Some sound0
                      /\ 1 # 4 <= mFlashBrightness w1 + (f1 - f_of_Z (rollDice4 rng) * f0_25)))%Q.
        split; [lra|]. right. exists sound. repeat split; [exact Hsound|lra].
      * exists (mFlashBrightness w1), []. cbn [res_bind fst snd].
        rewrite <- Hw1, setFlashBrightness_same. auto.
    + exists f0, []. cbn [res_bind fst snd setFlashBrightness mFlashBrightness].
      split; [reflexivity|]. split; [now compute|now left].
Qed.

Lemma calculateThunder_brightness_witness :
  exists (brightness : Q) (sounds : list string),
    calculateThunder flashingWeather 1%Q (1 # 10)%Q false strikingRolls
      = Ok (brightness, setFlashBrightness flashingWeather brightness, sounds)
    /\ (0 <= brightness)%Q
    /\ (sounds = [] \/
        exists sound, sounds = [sound]
          /\ mThunderSoundID flashingWeather !! Z.to_nat (rollDice4 strikingRolls) = Some sound
          /\ (1 # 4 <= brightness)%Q).
Proof.
  apply (calculateThunder_brightness flashingWeather 1%Q (1 # 10)%Q false strikingRolls).
  - vm_compute. intro. discriminate.
  - vm_compute. split; [intro; discriminate | reflexivity].
  - reflexivity.
Defined.

(** ** CellCoordinates *)

Section CellCoordinatesProperties.
Import CellCoordinates.

Lemma append_String (c : ascii) (s rest : string) :
  String c s +:+ rest = String c (s +:+ rest).
Proof. reflexivity. Qed.

Lemma append_empty (rest : string) : "" +:+ rest = rest.
Proof. reflexivity. Qed.

Lemma readDigits_no_digit (rest : string) :
  noLeadingDigit rest -> readDigits rest = (Nil, rest).
Proof. destruct rest as [|c rest]; cbn; [reflexivity|]. now intros ->. Qed.

Lemma readDigits_string_of_uint (d : uint) (rest : string) :
  noLeadingDigit rest ->
  readDigits (NilEmpty.string_of_uint d +:+ rest) = (d, rest).
Proof.
  intros Hrest. induction d as [|d IH|d IH|d IH|d IH|d IH|d IH|d IH|d IH|d IH|d IH];
    cbn [NilEmpty.string_of_uint]; rewrite ?append_String, ?append_empty;
    [now apply readDigits_no_digit | cbn [readDigits digitOf]; now rewrite IH ..].
Qed.

Lemma readInt_digits (c : ascii) (digit : uint -> uint) (s : string) :
  digitOf c = Some digit ->
  readInt (String c s) =
    let '(d, rest) := readDigits s in
    let value := Z.of_N (N.of_uint (digit d)) in
    if fitsInt value then Some (value, rest) else None.
Proof.
  intros Hc. unfold readInt.
  assert (Hspace : isSpace c = false).
  { destruct c as [[] [] [] [] [] [] [] []]; try discriminate Hc; reflexivity. }
  cbn [skipWhitespace]. rewrite Hspace.
  assert (Hsign : (match String c s with
                   | String "-" r => (true, r)
                   | String "+" r => (false, r)
                   | _ => (false, String c s)
                   end) = (false, String c s)).
  { destruct c as [[] [] [] [] [] [] [] []]; try discriminate Hc; reflexivity. }
  rewrite Hsign. cbn [readDigits]. rewrite Hc.
  destruct (readDigits s) as [d rest].
  destruct c as [[] [] [] [] [] [] [] []]; try discriminate Hc;
    injection Hc as <-; reflexivity.
Qed.

Lemma string_of_uint_digit (d : uint) :
  d <> Nil ->
  exists c digit d', digitOf c = Some digit /\ d = digit d' /\
    NilEmpty.string_of_uint d = String c (NilEmpty.string_of_uint d').
Proof.
  destruct d as [|d|d|d|d|d|d|d|d|d|d]; [congruence| ..]; intros _;
    eexists _, _, d; repeat split; reflexivity.
Qed.

Lemma readInt_unsigned (p : positive) (rest : string) :
  fitsInt (Zpos p) = true -> noLeadingDigit rest ->
  readInt (NilEmpty.string_of_uint (Pos.to_uint p) +:+ rest) = Some (Zpos p, rest).
Proof.
  intros Hfits Hrest.
  destruct (string_of_uint_digit (Pos.to_uint p) (DecimalPos.Unsigned.to_uint_nonnil p))
    as (c & digit & d' & Hc & Hd & Hs).
  rewrite Hs, append_String, (readInt_digits c digit _ Hc).
  rewrite (readDigits_string_of_uint d' rest Hrest). cbv zeta.
  rewrite <- Hd. unfold N.of_uint. rewrite DecimalPos.Unsigned.of_to.
  cbn [Z.of_N]. now rewrite Hfits.
Qed.

Lemma readInt_minus (s : string) :
  readInt (String "-" s) =
    let '(d, rest) := readDigits s in
    match d with
    | Nil => None
    | _ =>
        let value := - Z.of_N (N.of_uint d) in
        if fitsInt value then Some (value, rest) else None
    end.
Proof. reflexivity. Qed.

Lemma readInt_showInt (n : Z) (rest : string) :
  fitsInt n = true -> noLeadingDigit rest ->
  readInt (showInt n +:+ rest) = Some (n, rest).
Proof.
  intros Hfits Hrest. destruct n as [|p|p]; cbn [showInt].
  - rewrite append_String, append_empty, (readInt_digits "0" D0 rest eq_refl).
    rewrite (readDigits_no_digit rest Hrest). reflexivity.
  - now apply readInt_unsigned.
  - rewrite append_String, readInt_minus.
    rewrite (readDigits_string_of_uint (Pos.to_uint p) rest Hrest).
    pose proof (DecimalPos.Unsigned.to_uint_nonnil p) as Hnonnil.
    pose proof (DecimalPos.Unsigned.of_to p) as Hvalue.
    unfold N.of_uint. rewrite Hvalue. cbn [Z.of_N].
    change (- Z.pos p) with (Z.neg p). rewrite Hfits.
    destruct (Pos.to_uint p); [congruence|reflexivity ..].
Qed.

Lemma readInt_space (s : string) : readInt (String " " s) = readInt s.
Proof. reflexivity. Qed.

Lemma append_assoc3 (a b c : string) : (a +:+ b) +:+ c = a +:+ (b +:+ c).
Proof. induction a as [|x a IH]; [reflexivity|]. now rewrite !append_String, IH. Qed.

Lemma fromId_hash (s : string) :
  fromId (String "#" s) =
    match readInt s with
    | Some (x, s2) =>
        match readInt s2 with
        | Some (y, _) => ({| mX := x; mY := y |}, true)
        | None => (origin, false)
        end
    | None => (origin, false)
    end.
Proof. reflexivity. Qed.

(** X20. The id written by [getId] is read back by [fromId], also when
    followed by text that does not begin with a digit. *)
Theorem fromId_getId (worldspace : string) (c : CellCoordinates) (rest : string) :
  fitsInt (mX c) = true -> fitsInt (mY c) = true -> noLeadingDigit rest ->
  fromId (getId worldspace c +:+ rest) = (c, true).
Proof.
  intros Hx Hy Hrest. unfold getId.
  rewrite !append_assoc3, append_String, append_empty, fromId_hash.
  rewrite readInt_showInt; [|exact Hx|reflexivity].
  rewrite append_String, append_empty, readInt_space.
  rewrite readInt_showInt; [|exact Hy|exact Hrest].
  destruct c; reflexivity.
Qed.

Lemma fromId_getId_witness :
  fromId "#-12 7" = ({| mX := -12; mY := 7 |}, true).
Proof.
  exact (fromId_getId "sys::default" {| mX := -12; mY := 7 |} "" eq_refl eq_refl I).
Defined.

Lemma readInt_fits (s : string) (n : Z) (rest : string) :
  readInt s = Some (n, rest) -> fitsInt n = true.
Proof.
  unfold readInt. cbv zeta.
  destruct (match skipWhitespace s with
            | String "-" r => (true, r)
            | String "+" r => (false, r)
            | _ => (false, skipWhitespace s)
            end) as [negative s2].
  destruct (readDigits s2) as [digits rest'].
  destruct digits; try discriminate;
    match goal with
    | |- (if fitsInt ?v then _ else _) = _ -> _ =>
        destruct (fitsInt v) eqn:Hfits; [|discriminate]
    end; intros Heq; injection Heq as <- _; exact Hfits.
Qed.

(** X21. What [fromId] returns.  A failure always carries the default
    coordinates (0, 0); a success needs an id that begins with '#' and yields
    coordinates inside the range of [int]. *)
Theorem fromId_outcome (id : string) :
  fromId id = (origin, false) \/
  exists (c : CellCoordinates) (body : string),
    fromId id = (c, true) /\ id = String "#" body /\
    fitsInt (mX c) = true /\ fitsInt (mY c) = true.
Proof.
  destruct id as [|ch body]; [now left|].
  destruct (Ascii.eqb_spec ch "#") as [->|Hne].
  - rewrite fromId_hash.
    destruct (readInt body) as [[x s2]|] eqn:Hx; [|now left].
    destruct (readInt s2) as [[y s3]|] eqn:Hy; [|now left].
    right. exists {| mX := x; mY := y |}, body. repeat split.
    + exact (readInt_fits _ _ _ Hx).
    + exact (readInt_fits _ _ _ Hy).
  - left. destruct ch as [[] [] [] [] [] [] [] []]; try reflexivity. now contradiction Hne.
Qed.

Lemma CellCoordinates_eqb_eq (left right : CellCoordinates) : eqb left right = true <-> left = right.
Proof.
  unfold eqb, getX, getY. destruct left as [x y], right as [x' y']. cbn. split.
  - intros H. apply andb_prop in H as [Hx Hy]. apply Z.eqb_eq in Hx, Hy. congruence.
  - intros H. injection H as -> ->. now rewrite !Z.eqb_refl.
Qed.

Lemma CellCoordinates_ltb_lex (left right : CellCoordinates) :
  ltb left right = true <->
  mX left < mX right \/ (mX left = mX right /\ mY left < mY right).
Proof.
  unfold ltb, getX, getY.
  destruct (Z.ltb_spec (mX left) (mX right)) as [Hlt|Hge]; [intuition lia|].
  rewrite Z.gtb_ltb.
  destruct (Z.ltb_spec (mX right) (mX left)) as [Hgt|Hle]; [intuition (discriminate || lia)|].
  rewrite Z.ltb_lt. lia.
Qed.

(** X22. [operator<] is a strict total order that agrees with [operator==]:
    irreflexive, transitive, and for any two coordinates exactly one of
    [left < right], [left == right], [right < left] holds;
    [operator!=] is the negation of [operator==]. *)
Theorem ltb_strict_total_order :
  (forall c, ltb c c = false) /\
  (forall a b c, ltb a b = true -> ltb b c = true -> ltb a c = true) /\
  (forall a b,
     (ltb a b = true /\ eqb a b = false /\ ltb b a = false) \/
     (ltb a b = false /\ eqb a b = true /\ ltb b a = false) \/
     (ltb a b = false /\ eqb a b = false /\ ltb b a = true)) /\
  (forall a b, eqb a b = true <-> a = b) /\
  (forall a b, neqb a b = negb (eqb a b)).
Proof.
  split; [|split; [|split; [|split]]].
  - intros c. destruct (ltb c c) eqn:E; [|reflexivity]. apply CellCoordinates_ltb_lex in E. lia.
  - intros a b c Hab Hbc. apply CellCoordinates_ltb_lex in Hab, Hbc. apply CellCoordinates_ltb_lex. lia.
  - intros a b.
    destruct (ltb a b) eqn:Hab, (eqb a b) eqn:Heq, (ltb b a) eqn:Hba;
      try (apply CellCoordinates_ltb_lex in Hab); try (apply CellCoordinates_ltb_lex in Hba);
      try (apply CellCoordinates_eqb_eq in Heq; subst b);
      try lia; auto.
    + exfalso. assert (Hna : ~ (mX a < mX b \/ mX a = mX b /\ mY a < mY b))
        by (rewrite <- CellCoordinates_ltb_lex; congruence).
      assert (Hnb : ~ (mX b < mX a \/ mX b = mX a /\ mY b < mY a))
        by (rewrite <- CellCoordinates_ltb_lex; congruence).
      assert (a = b) by (destruct a, b; cbn in *; f_equal; lia).
      apply CellCoordinates_eqb_eq in H. congruence.
  - apply CellCoordinates_eqb_eq.
  - reflexivity.
Qed.

Lemma fitsInt_range (z : Z) : fitsInt z = true <-> INT_MIN <= z <= INT_MAX.
Proof. unfold fitsInt. rewrite andb_true_iff, !Z.leb_le. reflexivity. Qed.

(** X23. [move] adds offsets.  A move that stays inside the range of [int] is
    undone by the opposite move (for offsets other than [INT_MIN], whose
    opposite is no [int]); two moves in a row amount to one move by the sum
    of the offsets when those sums are [int]s; and a move that leaves the
    range of [int] has no defined result. *)
Theorem move_compose (c : CellCoordinates) (x y : Z) :
  fitsInt (mX c) = true -> fitsInt (mY c) = true ->
  (forall c', move x y c = Some c' ->
     (INT_MIN < x -> INT_MIN < y -> move (- x) (- y) c' = Some c) /\
     (forall x' y', fitsInt (x + x') = true -> fitsInt (y + y') = true ->
        move x' y' c' = move (x + x') (y + y') c)) /\
  (move x y c = None <->
   ~ (INT_MIN <= mX c + x <= INT_MAX /\ INT_MIN <= mY c + y <= INT_MAX)).
Proof.
  intros Hcx Hcy. unfold move. split.
  - intros c' Hmove.
    destruct (fitsInt (mX c + x) && fitsInt (mY c + y)) eqn:Hfit; [|discriminate].
    injection Hmove as <-. cbn [mX mY]. split.
    + intros _ _. replace (mX c + x + - x) with (mX c) by lia.
      replace (mY c + y + - y) with (mY c) by lia.
      rewrite Hcx, Hcy. destruct c; reflexivity.
    + intros x' y' _ _. now rewrite <- !Z.add_assoc.
  - rewrite <- !fitsInt_range.
    destruct (fitsInt (mX c + x)), (fitsInt (mY c + y)); cbn; split;
      intros; try discriminate; try reflexivity; intuition congruence.
Qed.

Lemma move_compose_witness :
  move (-1) (-2) {| mX := 4; mY := -2 |} = Some {| mX := 3; mY := -4 |}.
Proof.
  destruct (move_compose {| mX := 3; mY := -4 |} 1 2 eq_refl eq_refl) as [Hmoved _].
  destruct (Hmoved {| mX := 4; mY := -2 |} eq_refl) as [Hback _].
  apply Hback; reflexivity.
Defined.

End CellCoordinatesProperties.
